(** * Quota rotation core of gastown: a shallow embedding and its properties

    The development follows the Go sources of package [quota]:
    the quota state store and rotation policy (state.go), the reset-time
    grammar ([ParseResetTime]) and the macOS keychain rotator and token
    validator (keychain_darwin.go).

    Go strings are byte sequences; they are modelled by [string]
    (a list of 8-bit [ascii] characters).  Go's [int] and [int64] values are
    modelled by [Z]; every integer the code computes from its inputs stays
    far below 2^63 (an hour group has at most two digits), so no wrap-around
    can occur on the paths modelled here. *)

From Stdlib Require Import ZArith Lia List Ascii String Sorted Permutation.
From stdpp Require Import gmap strings list finite sorting.

Local Open Scope string_scope.
Local Open Scope Z_scope.

(** ** Go's [strings] package *)
Module GoStrings.

(** The numeric value of a byte. *)
Definition code (c : ascii) : Z := Z.of_N (N_of_ascii c).

Definition byte (n : Z) : ascii := ascii_of_N (Z.to_N n).

(** [len(s)] *)
Definition len (s : string) : Z := Z.of_nat (String.length s).

(** [asciiSpace] of package strings: tab, newline, vertical tab, form feed,
    carriage return and space. *)
Definition asciiSpace (c : ascii) : bool :=
  ((9 <=? code c) && (code c <=? 13)) || (code c =? 32).

(** [strings.TrimLeftFunc(s, unicode.IsSpace)] on the UTF-8 bytes of [s].
    Besides the ASCII white space, [unicode.IsSpace] holds of U+0085 and
    U+00A0 (encoded C2 85 and C2 A0), U+1680 (E1 9A 80), U+2000..U+200A
    (E2 80 80 .. E2 80 8A), U+2028, U+2029, U+202F (E2 80 A8, E2 80 A9,
    E2 80 AF), U+205F (E2 81 9F) and U+3000 (E3 80 80). *)
Fixpoint trimLeft (s : string) : string :=
  match s with
  | EmptyString => s
  | String c rest =>
      if asciiSpace c then trimLeft rest
      else match rest with
           | String d rest1 =>
               if (code c =? 194) && ((code d =? 133) || (code d =? 160))
               then trimLeft rest1
               else match rest1 with
                    | String e rest2 =>
                        if ((code c =? 225) && (code d =? 154) && (code e =? 128))
                           || ((code c =? 226) && (code d =? 128)
                               && (((128 <=? code e) && (code e <=? 138))
                                   || (code e =? 168) || (code e =? 169)
                                   || (code e =? 175)))
                           || ((code c =? 226) && (code d =? 129) && (code e =? 159))
                           || ((code c =? 227) && (code d =? 128) && (code e =? 128))
                        then trimLeft rest2
                        else s
                    | EmptyString => s
                    end
           | EmptyString => s
           end
  end.

Fixpoint revOnto (s acc : string) : string :=
  match s with
  | EmptyString => acc
  | String c rest => revOnto rest (String c acc)
  end.

Definition rev (s : string) : string := revOnto s EmptyString.

(** The same runes read from the end of the string (the bytes of each
    encoding appear in reverse), as [strings.TrimRightFunc] finds them with
    [utf8.DecodeLastRuneInString]. *)
Fixpoint trimLeftRev (s : string) : string :=
  match s with
  | EmptyString => s
  | String c rest =>
      if asciiSpace c then trimLeftRev rest
      else match rest with
           | String d rest1 =>
               if (code d =? 194) && ((code c =? 133) || (code c =? 160))
               then trimLeftRev rest1
               else match rest1 with
                    | String e rest2 =>
                        if ((code e =? 225) && (code d =? 154) && (code c =? 128))
                           || ((code e =? 226) && (code d =? 128)
                               && (((128 <=? code c) && (code c <=? 138))
                                   || (code c =? 168) || (code c =? 169)
                                   || (code c =? 175)))
                           || ((code e =? 226) && (code d =? 129) && (code c =? 159))
                           || ((code e =? 227) && (code d =? 128) && (code c =? 128))
                        then trimLeftRev rest2
                        else s
                    | EmptyString => s
                    end
           | EmptyString => s
           end
  end.

Definition trimRight (s : string) : string := rev (trimLeftRev (rev s)).

(** [strings.TrimSpace] *)
Definition TrimSpace (s : string) : string := trimRight (trimLeft s).

(** [strings.HasPrefix] *)
Definition HasPrefix (s pre : string) : bool := String.prefix pre s.

(** [strings.Index]: the index of the first instance of [sub] in [s],
    or -1. *)
Fixpoint indexFrom (i : Z) (s sub : string) : Z :=
  if String.prefix sub s then i
  else match s with
       | EmptyString => -1
       | String _ rest => indexFrom (i + 1) rest sub
       end.

Definition Index (s sub : string) : Z := indexFrom 0 s sub.

(** The slice expression [s[lo:hi]], used where the code has
    established [0 <= lo <= hi <= len(s)]. *)
Definition slice (s : string) (lo hi : Z) : string :=
  String.substring (Z.to_nat lo) (Z.to_nat (hi - lo)) s.

(** [s[lo:]] *)
Definition sliceFrom (s : string) (lo : Z) : string :=
  String.substring (Z.to_nat lo) (String.length s - Z.to_nat lo)%nat s.

Definition lowerByte (c : ascii) : ascii :=
  if (65 <=? code c) && (code c <=? 90) then byte (code c + 32) else c.

(** [strings.ToLower] on ASCII letters; the callers below apply it to the
    two letters matched by [(am|pm)] only. *)
Fixpoint ToLower (s : string) : string :=
  match s with
  | EmptyString => EmptyString
  | String c rest => String (lowerByte c) (ToLower rest)
  end.

(** [strings.Split(s, sep)] for a one-byte separator: the pieces between
    the separators, always at least one. *)
Fixpoint splitOn (sep : ascii) (s cur : string) : list string :=
  match s with
  | EmptyString => [rev cur]
  | String c rest =>
      if Ascii.eqb c sep then rev cur :: splitOn sep rest EmptyString
      else splitOn sep rest (String c cur)
  end.

Definition Split (s : string) (sep : ascii) : list string :=
  splitOn sep s EmptyString.

End GoStrings.

(** ** Go's [time] package

    An instant is a count of seconds (and nanoseconds) since the Unix epoch
    together with the [Location] it is presented in.  A [Location] is its
    table of zone transitions: the UTC offset in force before the first
    transition, and for each transition the instant it happens at and the
    offset in force from then on.  (The rule by which the package extends a
    table beyond its last transition is left out: a table here says all
    there is to say about its zone.)  Dates follow the proleptic Gregorian
    calendar, computed by the usual era arithmetic; the package's own day
    count, from its tables of days before each month, is the same number. *)
Module GoTime.

Record Location : Type := mkLocation {
  zoneName : string;
  zoneInitial : Z;
  zoneTrans : list (Z * Z)
}.

Definition UTC : Location := mkLocation "UTC" 0 [].

(** [time.FixedZone] *)
Definition FixedZone (name : string) (offset : Z) : Location :=
  mkLocation name offset [].

(** The bounds [alpha] and [omega] that [lookup] reports for the first and
    the last period of a location. *)
Definition alpha : Z := - 2 ^ 63.
Definition omega : Z := 2 ^ 63 - 1.

(** [Location.lookup]: the offset in force at the instant [sec] and the
    period [start <= sec < stop] it is in force for. *)
Fixpoint lookupFrom (offset start : Z) (tx : list (Z * Z)) (sec : Z)
  : Z * Z * Z :=
  match tx with
  | [] => (offset, start, omega)
  | (when, offset') :: rest =>
      if sec <? when then (offset, start, when)
      else lookupFrom offset' when rest sec
  end.

Definition lookup (l : Location) (sec : Z) : Z * Z * Z :=
  lookupFrom (zoneInitial l) alpha (zoneTrans l) sec.

Definition offsetAt (l : Location) (sec : Z) : Z := fst (fst (lookup l sec)).

Record Time : Type := mkTime {
  unixSec : Z;
  nsec : Z;
  loc : Location
}.

(** [t.Location()] *)
Definition LocationOf (t : Time) : Location := loc t.

(** [t.In(l)]: the same instant, presented in [l]. *)
Definition In (t : Time) (l : Location) : Time :=
  mkTime (unixSec t) (nsec t) l.

(** [t.After(u)] *)
Definition After (t u : Time) : bool :=
  (unixSec u <? unixSec t)
  || ((unixSec t =? unixSec u) && (nsec u <? nsec t)).

(** The proleptic Gregorian calendar: the day number (days since
    1970-01-01) of a civil date, linear in the day of the month so that a
    day past the end of the month runs into the following months, as
    [time.Date] has it. *)
Definition daysFromCivil (y m d : Z) : Z :=
  let y' := if m <=? 2 then y - 1 else y in
  let era := y' / 400 in
  let yoe := y' - era * 400 in
  let mp := if 2 <? m then m - 3 else m + 9 in
  let doy := (153 * mp + 2) / 5 + d - 1 in
  let doe := yoe * 365 + yoe / 4 - yoe / 100 + doy in
  era * 146097 + doe - 719468.

(** The civil date (year, month, day) of a day number. *)
Definition civilFromDays (z : Z) : Z * Z * Z :=
  let z' := z + 719468 in
  let era := z' / 146097 in
  let doe := z' - era * 146097 in
  let yoe := (doe - doe / 1460 + doe / 36524 - doe / 146096) / 365 in
  let doy := doe - (365 * yoe + yoe / 4 - yoe / 100) in
  let mp := (5 * doy + 2) / 153 in
  let d := doy - (153 * mp + 2) / 5 + 1 in
  let m := if mp <? 10 then mp + 3 else mp - 9 in
  ((if m <=? 2 then yoe + era * 400 + 1 else yoe + era * 400), m, d).

(** Seconds since the epoch on the wall clock of the time's location. *)
Definition wallSec (t : Time) : Z := unixSec t + offsetAt (loc t) (unixSec t).

Definition dayNumber (t : Time) : Z := wallSec t / 86400.

(** [t.Date()], and [t.Year()], [t.Month()], [t.Day()] *)
Definition DateOf (t : Time) : Z * Z * Z := civilFromDays (dayNumber t).
Definition Year (t : Time) : Z := fst (fst (DateOf t)).
Definition Month (t : Time) : Z := snd (fst (DateOf t)).
Definition Day (t : Time) : Z := snd (DateOf t).

(** [t.Hour()], [t.Minute()] *)
Definition Hour (t : Time) : Z := (wallSec t mod 86400) / 3600.
Definition Minute (t : Time) : Z := (wallSec t mod 3600) / 60.

(** [norm(hi, lo, base)]: carries the part of [lo] outside [0, base) into
    [hi]. *)
Definition norm (hi lo base : Z) : Z * Z := (hi + lo / base, lo mod base).

(** [time.Date(year, month, day, hour, min, sec, nsec, loc)].  The fields
    are normalised, the wall-clock second count is computed, and the zone
    offset is looked up first at that count read as UTC and, when the
    adjusted instant falls outside the period found, once more at the
    adjusted instant. *)
Definition Date (year month day hour min sec nsec : Z) (l : Location) : Time :=
  let '(year, m) := norm year (month - 1) 12 in
  let month := m + 1 in
  let '(sec, nsec) := norm sec nsec 1000000000 in
  let '(min, sec) := norm min sec 60 in
  let '(hour, min) := norm hour min 60 in
  let '(day, hour) := norm day hour 24 in
  let d := daysFromCivil year month day in
  let unix := d * 86400 + hour * 3600 + min * 60 + sec in
  let '(offset, start, stop) := lookup l unix in
  let unix :=
    if offset =? 0 then unix
    else
      let utc := unix - offset in
      let offset :=
        if (utc <? start) || (stop <=? utc) then offsetAt l utc else offset in
      unix - offset in
  mkTime unix nsec l.

End GoTime.

(** ** Package [config]: the quota data model *)
Module Config.

(** Modelled from the spec: the [QuotaStatus] constants of package config,
    whose declarations are not among the sources; section 6 of the spec
    gives their persisted spellings. *)
Definition QuotaStatusAvailable : string := "available".
Definition QuotaStatusLimited : string := "limited".
Definition QuotaStatusCooldown : string := "cooldown".

(** [AccountQuotaState]: every field is a Go string. *)
Record AccountQuotaState : Type := mkAccount {
  Status : string;
  LimitedAt : string;
  ResetsAt : string;
  LastUsed : string
}.

(** The zero value, which indexing a Go map yields for an absent key. *)
Definition zeroAccount : AccountQuotaState := mkAccount "" "" "" "".

(** [state.Accounts[handle]] as an expression. *)
Definition index (accounts : gmap string AccountQuotaState) (handle : string)
  : AccountQuotaState :=
  default zeroAccount (accounts !! handle).

(** [QuotaState]; [Accounts] is a Go map, which may be nil ([None]). *)
Record QuotaState : Type := mkState {
  Version : Z;
  Accounts : option (gmap string AccountQuotaState)
}.

End Config.

(** ** Package [quota], state.go *)
Module Quota.
Import GoStrings Config.

Inductive Error : Type :=
| ErrLock                         (* "acquiring quota lock: ..." *)
| ErrReading                      (* "reading quota state: ..." *)
| ErrParsing                      (* "parsing quota state: ..." *)
| ErrWriting                      (* error of EnsureDirAndWriteJSON *)
| ErrCannotParse (resetsAt : string). (* "cannot parse reset time: %q" *)

Inductive result (A : Type) : Type :=
| Ok (a : A)
| Err (e : Error).
Arguments Ok {A} a.
Arguments Err {A} e.

(** *** The reset-time pattern

    [(?i)^(\d{1,2})(?::(\d{2}))?\s*(am|pm)\b], matched the way the regexp
    package does: each greedy choice is tried first and given up when the
    rest of the pattern fails after it.  Every stage returns the text it
    matched together with its capture groups. *)

Definition isDigit (c : ascii) : bool := (48 <=? code c) && (code c <=? 57).

(** [\s] of the regexp syntax: tab, newline, form feed, carriage return,
    space. *)
Definition isReSpace (c : ascii) : bool :=
  (code c =? 9) || (code c =? 10) || (code c =? 12) || (code c =? 13)
  || (code c =? 32).

(** [\w]: an ASCII letter, digit or underscore. *)
Definition isWordChar (c : ascii) : bool :=
  isDigit c || ((65 <=? code c) && (code c <=? 90))
  || ((97 <=? code c) && (code c <=? 122)) || (code c =? 95).

Definition orElse {A : Type} (a b : option A) : option A :=
  match a with Some x => Some x | None => b end.

(** [\b] after a word character: the end of the text or a non-word byte. *)
Definition wordBoundaryBefore (rest : string) : bool :=
  match rest with
  | EmptyString => true
  | String c _ => negb (isWordChar c)
  end.

(** [(am|pm)\b] under [(?i)] *)
Definition matchMeridiem (s : string) : option (string * string) :=
  match s with
  | String a (String m rest) =>
      if ((code (lowerByte a) =? 97) || (code (lowerByte a) =? 112))
         && (code (lowerByte m) =? 109) && wordBoundaryBefore rest
      then Some (String a (String m ""), String a (String m ""))
      else None
  | _ => None
  end.

(** [\s*(am|pm)\b] *)
Fixpoint matchSpaces (s : string) : option (string * string) :=
  match s with
  | String c rest =>
      if isReSpace c
      then orElse
             (match matchSpaces rest with
              | Some (txt, ap) => Some (String c txt, ap)
              | None => None
              end)
             (matchMeridiem s)
      else matchMeridiem s
  | EmptyString => matchMeridiem s
  end.

(** [(?::(\d{2}))?\s*(am|pm)\b] *)
Definition matchMinute (s : string) : option (string * string * string) :=
  orElse
    (match s with
     | String c (String d1 (String d2 rest)) =>
         if (code c =? 58) && isDigit d1 && isDigit d2
         then match matchSpaces rest with
              | Some (txt, ap) =>
                  Some (String c (String d1 (String d2 txt)),
                        String d1 (String d2 ""), ap)
              | None => None
              end
         else None
     | _ => None
     end)
    (match matchSpaces s with
     | Some (txt, ap) => Some (txt, "", ap)
     | None => None
     end).

(** [parseResetTimePattern.FindStringSubmatch]: the matched text and the
    three groups, or the nil slice when the pattern does not match at the
    start of [s]. *)
Definition FindStringSubmatch (s : string) : list string :=
  let two :=
    match s with
    | String d1 (String d2 rest) =>
        if isDigit d1 && isDigit d2
        then match matchMinute rest with
             | Some (txt, mm, ap) =>
                 Some [String d1 (String d2 txt); String d1 (String d2 ""); mm; ap]
             | None => None
             end
        else None
    | _ => None
    end in
  let one :=
    match s with
    | String d1 rest =>
        if isDigit d1
        then match matchMinute rest with
             | Some (txt, mm, ap) =>
                 Some [String d1 txt; String d1 ""; mm; ap]
             | None => None
             end
        else None
    | _ => None
    end in
  default [] (orElse two one).

(** *** [fmt.Sscanf(s, "%d", &v)]

    Leading spaces are skipped, a sign is accepted, and the longest run of
    digits and underscores is handed to [strconv.ParseInt] in base 10,
    which rejects an empty run, an underscore and a value outside int64.
    [None] stands for the error, in which case the destination keeps its
    previous value. *)
Fixpoint skipSpaces (s : string) : string :=
  match s with
  | String c rest => if asciiSpace c then skipSpaces rest else s
  | EmptyString => s
  end.

Fixpoint scanDigits (acc : option Z) (s : string) : option Z :=
  match s with
  | String c rest =>
      if isDigit c
      then scanDigits (Some (default 0 acc * 10 + (code c - 48))) rest
      else if code c =? 95 then None
      else acc
  | EmptyString => acc
  end.

Definition Sscanf_d (s : string) : option Z :=
  let s := skipSpaces s in
  let '(neg, s) :=
    match s with
    | String c rest =>
        if code c =? 45 then (true, rest)
        else if code c =? 43 then (false, rest)
        else (false, s)
    | EmptyString => (false, s)
    end in
  match scanDigits None s with
  | Some v =>
      let v := if neg : bool then - v else v in
      if (- 2 ^ 63 <=? v) && (v <=? 2 ^ 63 - 1) then Some v else None
  | None => None
  end.

(** The value left in an [int] variable initialised to [init] after
    [fmt.Sscanf(s, "%d", &v)] whose error is not looked at. *)
Definition scanInto (init : Z) (s : string) : Z := default init (Sscanf_d s).

(** *** [ParseResetTime] *)
Section Grammar.
(** [time.LoadLocation]: the zone database of the host. *)
Variable LoadLocation : string -> option GoTime.Location.

(** The first part of [ParseResetTime]: the zone the time is resolved
    in, and what is left of the text once a parenthesised zone name has
    been cut off. *)
Definition splitZone (resetsAt : string) (reference : GoTime.Time)
  : GoTime.Location * string :=
  let resetsAt := TrimSpace resetsAt in
  let loc := GoTime.LocationOf reference in
  let idx := Index resetsAt "(" in
  if negb (idx =? -1) then
    let end_ := Index resetsAt ")" in
    if idx <? end_ then
      let tzName := TrimSpace (slice resetsAt (idx + 1) end_) in
      let loc :=
        match LoadLocation tzName with
        | Some parsed => parsed
        | None => loc
        end in
      (loc, TrimSpace (slice resetsAt 0 idx))
    else (loc, resetsAt)
  else (loc, resetsAt).

(** The hour of the day from the hour group and the meridiem. *)
Definition hourOfDay (hour : Z) (ampm : string) : Z :=
  if String.eqb ampm "pm" && negb (hour =? 12) then hour + 12
  else if String.eqb ampm "am" && (hour =? 12) then 0
  else hour.

Definition ParseResetTime (resetsAt : string) (reference : GoTime.Time)
  : result GoTime.Time :=
  let '(loc, resetsAt) := splitZone resetsAt reference in
  let m := FindStringSubmatch resetsAt in
  if (Z.of_nat (length m) <? 4) then Err (ErrCannotParse resetsAt)
  else
    let m1 := default "" (m !! 1%nat) in
    let m2 := default "" (m !! 2%nat) in
    let m3 := default "" (m !! 3%nat) in
    let hour := scanInto 0 m1 in
    let minute := if String.eqb m2 "" then 0 else scanInto 0 m2 in
    let ampm := ToLower m3 in
    let hour := hourOfDay hour ampm in
    let refInLoc := GoTime.In reference loc in
    Ok (GoTime.Date (GoTime.Year refInLoc) (GoTime.Month refInLoc)
          (GoTime.Day refInLoc) hour minute 0 0 loc).

(** *** [clearExpiredAt]

    The loop ranges over the map while assigning to the key at hand.
    Go leaves the order of a range over a map unspecified; [order] is
    the sequence of keys the range produces. *)
Definition clearExpiredStep (now : GoTime.Time)
    (st : gmap string AccountQuotaState * Z) (handle : string)
  : gmap string AccountQuotaState * Z :=
  let '(accounts, cleared) := st in
  match accounts !! handle with
  | None => st
  | Some acctState =>
      if negb (String.eqb (Status acctState) QuotaStatusLimited) then st
      else if String.eqb (ResetsAt acctState) "" then st
      else
        match ParseResetTime (ResetsAt acctState) now with
        | Err _ => st
        | Ok resetTime =>
            if GoTime.After now resetTime
            then (<[handle := mkAccount QuotaStatusAvailable "" ""
                                (LastUsed acctState)]> accounts,
                  cleared + 1)
            else st
        end
  end.

Definition clearExpiredAt (order : list string)
    (accounts : gmap string AccountQuotaState) (now : GoTime.Time)
  : gmap string AccountQuotaState * Z :=
  fold_left (clearExpiredStep now) order (accounts, 0).

End Grammar.

(** *** [sortByLastUsed]: insertion sort on the slice of handles

    The slice is a list updated by index.  [insertKey] is the inner loop:
    [hole] stands for [j+1]; while [handles[j]] was used later than the
    key it moves one place up. *)
Fixpoint insertKey (accounts : gmap string AccountQuotaState) (key : string)
    (hole : nat) (handles : list string) : list string :=
  match hole with
  | O => <[O := key]> handles
  | S j =>
      match handles !! j with
      | Some hj =>
          if String.ltb (LastUsed (index accounts key))
                        (LastUsed (index accounts hj))
          then insertKey accounts key j (<[S j := hj]> handles)
          else <[S j := key]> handles
      | None => handles
      end
  end.

(** The outer loop, [for i := 1; i < len(handles); i++], with [n]
    iterations left. *)
Fixpoint sortFrom (accounts : gmap string AccountQuotaState) (n i : nat)
    (handles : list string) : list string :=
  match n with
  | O => handles
  | S n' =>
      match handles !! i with
      | Some key => sortFrom accounts n' (S i) (insertKey accounts key i handles)
      | None => handles
      end
  end.

Definition sortByLastUsed (handles : list string)
    (accounts : gmap string AccountQuotaState) : list string :=
  sortFrom accounts (length handles - 1)%nat 1%nat handles.

(** [AvailableAccounts]; [order] is the sequence of keys the range over
    the map produces. *)
Definition AvailableAccounts (order : list string)
    (accounts : gmap string AccountQuotaState) : list string :=
  let available :=
    fold_left
      (fun (available : list string) handle =>
         let acctState := index accounts handle in
         if String.eqb (Status acctState) QuotaStatusAvailable
            || String.eqb (Status acctState) ""
         then (available ++ [handle])%list
         else available)
      order [] in
  sortByLastUsed available accounts.

(** [LimitedAccounts] *)
Definition LimitedAccounts (order : list string)
    (accounts : gmap string AccountQuotaState) : list string :=
  fold_left
    (fun (limited : list string) handle =>
       if String.eqb (Status (index accounts handle)) QuotaStatusLimited
       then (limited ++ [handle])%list
       else limited)
    order [].

(** *** The persisted store *)

(** What [os.ReadFile] on the state path returns. *)
Inductive ReadResult : Type :=
| NotExist
| ReadFailed
| Contents (data : string).

(** The files the manager touches: the state file, whether the lock can be
    taken, and whether the state file can be written. *)
Record FileSystem : Type := mkFS {
  stateFile : ReadResult;
  lockable : bool;
  writable : bool
}.

Section Store.
(** The current schema version, a constant of package config. *)
Variable CurrentQuotaVersion : Z.
(** [json.Unmarshal] into a [QuotaState]; [None] is its error. *)
Variable jsonUnmarshal : string -> option QuotaState.
(** The JSON text written for a state. *)
Variable jsonMarshal : QuotaState -> string.

(** [Manager.lock]: the error, if the lock cannot be taken. *)
Definition lock (fs : FileSystem) : option Error :=
  if lockable fs then None else Some ErrLock.

(** [Manager.Load] *)
Definition Load (fs : FileSystem) : result QuotaState :=
  match stateFile fs with
  | NotExist => Ok (mkState CurrentQuotaVersion (Some ∅))
  | ReadFailed => Err ErrReading
  | Contents data =>
      match jsonUnmarshal data with
      | None => Err ErrParsing
      | Some state =>
          match Accounts state with
          | None => Ok (mkState (Version state) (Some ∅))
          | Some _ => Ok state
          end
      end
  end.

(** Modelled from the spec: [util.EnsureDirAndWriteJSON], whose source is
    not among the files; it replaces the state file by the JSON text of
    the state, or fails and leaves the file as it was. *)
Definition EnsureDirAndWriteJSON (fs : FileSystem) (state : QuotaState)
  : FileSystem * option Error :=
  if writable fs
  then (mkFS (Contents (jsonMarshal state)) (lockable fs) (writable fs), None)
  else (fs, Some ErrWriting).

(** The assignment [state.Accounts[handle] = v]; it panics on a nil map
    ([None]). *)
Definition assign (state : QuotaState) (handle : string)
    (v : AccountQuotaState) : option QuotaState :=
  match Accounts state with
  | Some accounts => Some (mkState (Version state) (Some (<[handle := v]> accounts)))
  | None => None
  end.

(** The accounts of a state, for reading: a nil map reads as empty. *)
Definition accountsOf (state : QuotaState) : gmap string AccountQuotaState :=
  default ∅ (Accounts state).

(** The outcome of a locked operation: the file system after it and the
    error returned, or a panic. *)
Inductive outcome : Type :=
| Returned (fs : FileSystem) (err : option Error)
| Panicked.

(** [Manager.MarkLimited]; [now] is [time.Now().UTC().Format(time.RFC3339)]. *)
Definition MarkLimited (handle resetsAt now : string) (fs : FileSystem)
  : outcome :=
  match lock fs with
  | Some err => Returned fs (Some err)
  | None =>
      match Load fs with
      | Err err => Returned fs (Some err)
      | Ok state =>
          match assign state handle
                  (mkAccount QuotaStatusLimited now resetsAt
                     (LastUsed (index (accountsOf state) handle))) with
          | None => Panicked
          | Some state' =>
              let '(fs', err) := EnsureDirAndWriteJSON fs state' in
              Returned fs' err
          end
      end
  end.

(** [Manager.MarkAvailable] *)
Definition MarkAvailable (handle : string) (fs : FileSystem) : outcome :=
  match lock fs with
  | Some err => Returned fs (Some err)
  | None =>
      match Load fs with
      | Err err => Returned fs (Some err)
      | Ok state =>
          let existing := index (accountsOf state) handle in
          match assign state handle
                  (mkAccount QuotaStatusAvailable "" "" (LastUsed existing)) with
          | None => Panicked
          | Some state' =>
              let '(fs', err) := EnsureDirAndWriteJSON fs state' in
              Returned fs' err
          end
      end
  end.

(** [Manager.Save].  The caller's state is a pointer: once the lock is
    held the call stamps it with the current version, and that is the state
    the caller is left with.  The result is that state, the file system and
    the error. *)
Definition Save (state : QuotaState) (fs : FileSystem)
  : QuotaState * FileSystem * option Error :=
  match lock fs with
  | Some err => (state, fs, Some err)
  | None =>
      let state := mkState CurrentQuotaVersion (Accounts state) in
      let '(fs', err) := EnsureDirAndWriteJSON fs state in
      (state, fs', err)
  end.

(** [Manager.SaveUnlocked] *)
Definition SaveUnlocked (state : QuotaState) (fs : FileSystem)
  : QuotaState * FileSystem * option Error :=
  let state := mkState CurrentQuotaVersion (Accounts state) in
  let '(fs', err) := EnsureDirAndWriteJSON fs state in
  (state, fs', err).

(** [Manager.WithLock].  The callback is a closure; [S] is what it has
    captured and may change besides the files. *)
Definition WithLock {S : Type}
    (fn : S -> FileSystem -> S * FileSystem * option Error)
    (captured : S) (fs : FileSystem) : S * FileSystem * option Error :=
  match lock fs with
  | Some err => (captured, fs, Some err)
  | None => fn captured fs
  end.

End Store.

(** [Manager.EnsureAccountsTracked].  [order] is the sequence of handles the
    range over the registered accounts produces; the account records
    themselves are not looked at.  [None] is the panic of an assignment to a
    nil map. *)
Definition ensureTracked (st : option QuotaState) (handle : string)
  : option QuotaState :=
  match st with
  | None => None
  | Some state =>
      match accountsOf state !! handle with
      | Some _ => Some state
      | None => assign state handle (mkAccount QuotaStatusAvailable "" "" "")
      end
  end.

Definition EnsureAccountsTracked (order : list string) (state : QuotaState)
  : option QuotaState :=
  fold_left ensureTracked order (Some state).

End Quota.

(** ** Package [quota], keychain_darwin.go *)
Module Keychain.
Import GoStrings.

Definition keychainServiceBase : string := "Claude Code-credentials".
Definition defaultClaudeConfigDir : string := ".claude".

Record KeychainCredential : Type := mkCredential {
  ServiceName : string;
  Token : string
}.

Inductive Error : Type :=
| ErrReadToken (serviceName : string)   (* "reading keychain token for %q" *)
| ErrWriteToken (serviceName : string)  (* "writing keychain token for %q" *)
| ErrBackup (cause : Error)             (* "backing up target token: %w" *)
| ErrSource (cause : Error)             (* "reading source token: %w" *)
| ErrTarget (cause : Error)             (* "writing source token to target keychain: %w" *)
| ErrExpired (at_ : Z)                  (* "token expired at %s" *)
| ErrJWTExpired (at_ : Z)               (* "JWT expired at %s" *)
| ErrRejected.                          (* "token rejected by API (HTTP 401)" *)

(** *** Service names *)
Section Host.
(** [os.UserHomeDir]: the home directory, or [None] for its error. *)
Variable UserHomeDir : option string.
(** [sha256.Sum256]: the 32 bytes of the digest. *)
Variable Sum256 : string -> string.

(** [expandTilde] *)
Definition expandTilde (path : string) : string :=
  if HasPrefix path "~/" then
    match UserHomeDir with
    | Some home => home ++ sliceFrom path 1
    | None => path
    end
  else path.

Definition hexDigit (n : Z) : ascii :=
  if n <? 10 then byte (48 + n) else byte (87 + n).

(** The verb [%x] on a byte slice: two lower-case digits per byte. *)
Fixpoint hex (bytes : string) : string :=
  match bytes with
  | EmptyString => EmptyString
  | String c rest =>
      String (hexDigit (code c / 16)) (String (hexDigit (code c mod 16)) (hex rest))
  end.

(** [KeychainServiceName] *)
Definition KeychainServiceName (configDirPath : string) : string :=
  let expanded := expandTilde configDirPath in
  let hashed := keychainServiceBase ++ "-" ++ hex (slice (Sum256 expanded) 0 4) in
  match UserHomeDir with
  | Some home =>
      if String.eqb expanded (home ++ "/" ++ defaultClaudeConfigDir)
      then keychainServiceBase
      else hashed
  | None => hashed
  end.

(** *** The keychain

    Modelled from the spec: the OS-secured credential store reached
    through the [security] command, as the capability of section 9: one
    secret per service address.  [find-generic-password -w] prints the
    secret followed by a newline and fails for an address without an
    entry; [add-generic-password -U] writes or updates the entry and
    fails for the addresses the store refuses to write. *)
Record SecureStore : Type := mkStore {
  items : gmap string string;
  refused : gset string
}.

Definition newline : string := String (byte 10) EmptyString.

Definition securityFind (ks : SecureStore) (serviceName : string)
  : option string :=
  match items ks !! serviceName with
  | Some secret => Some (secret ++ newline)
  | None => None
  end.

Definition securityAdd (ks : SecureStore) (serviceName accountLabel token : string)
  : option SecureStore :=
  if decide (serviceName ∈ refused ks) then None
  else Some (mkStore (<[serviceName := token]> (items ks)) (refused ks)).

(** [ReadKeychainToken] *)
Definition ReadKeychainToken (ks : SecureStore) (serviceName : string)
  : string + Error :=
  match securityFind ks serviceName with
  | None => inr (ErrReadToken serviceName)
  | Some out => inl (TrimSpace out)
  end.

(** [WriteKeychainToken] *)
Definition WriteKeychainToken (ks : SecureStore)
    (serviceName accountLabel token : string) : SecureStore * option Error :=
  match securityAdd ks serviceName accountLabel token with
  | Some ks' => (ks', None)
  | None => (ks, Some (ErrWriteToken serviceName))
  end.

(** [SwapKeychainCredential]: the store afterwards, and the backup or the
    error. *)
Definition SwapKeychainCredential (targetConfigDir sourceConfigDir : string)
    (ks : SecureStore) : SecureStore * (KeychainCredential + Error) :=
  let targetSvc := KeychainServiceName targetConfigDir in
  let sourceSvc := KeychainServiceName sourceConfigDir in
  match ReadKeychainToken ks targetSvc with
  | inr err => (ks, inr (ErrBackup err))
  | inl backupToken =>
      match ReadKeychainToken ks sourceSvc with
      | inr err => (ks, inr (ErrSource err))
      | inl sourceToken =>
          match WriteKeychainToken ks targetSvc "claude-code" sourceToken with
          | (ks', Some err) => (ks', inr (ErrTarget err))
          | (ks', None) => (ks', inl (mkCredential targetSvc backupToken))
          end
      end
  end.

(** [RestoreKeychainToken]; the backup is a pointer, [None] when nil. *)
Definition RestoreKeychainToken (backup : option KeychainCredential)
    (ks : SecureStore) : SecureStore * option Error :=
  match backup with
  | None => (ks, None)
  | Some b => WriteKeychainToken ks (ServiceName b) "claude-code" (Token b)
  end.

(** *** [ValidateKeychainToken] *)

(** [json.Unmarshal] of the secret into a struct with the one field
    [expires_at]: [None] for its error, otherwise the field (0 when the
    document has none). *)
Variable unmarshalExpiresAt : string -> option Z.
(** [base64.RawURLEncoding.DecodeString] *)
Variable base64Decode : string -> option string.
(** [json.Unmarshal] of a token payload into a struct with the one field
    [exp]. *)
Variable unmarshalExp : string -> option Z.
(** The remote service: the status code answered to a POST carrying the
    token as bearer, or [None] for a network error or a timeout. *)
Variable apiStatus : string -> option Z.

(** A request sent to the remote service. *)
Inductive NetCall : Type := Post (bearer : string).

(** What [net/http] checks of a header value before it sends a request
    ([httpguts.ValidHeaderFieldValue], called by the transport): no control
    byte other than the tab, and no DEL. *)
Definition validHeaderByte (c : ascii) : bool :=
  negb (((code c <? 32) || (code c =? 127))
        && negb ((code c =? 32) || (code c =? 9))).

Fixpoint ValidHeaderFieldValue (v : string) : bool :=
  match v with
  | EmptyString => true
  | String c rest => validHeaderByte c && ValidHeaderFieldValue rest
  end.

(** [validateTokenHTTP]: the error returned and the requests sent.  The
    request is built from constants and the token, which [http.NewRequest]
    does not reject; [client.Do] returns an error without sending anything
    when the [Authorization] value is not a valid header value, and
    otherwise the outcome of sending is open. *)
Definition validateTokenHTTP (token : string) : option Error * list NetCall :=
  if ValidHeaderFieldValue ("Bearer " ++ token) then
    match apiStatus token with
    | None => (None, [Post token])
    | Some status =>
        if status =? 401 then (Some ErrRejected, [Post token])
        else (None, [Post token])
    end
  else (None, []).

(** Strategies 2 and 3 of [ValidateKeychainToken]: the [exp] claim of a
    three-segment token, and otherwise the request to the remote service. *)
Definition validateJWT (raw : string) (now : Z) : option Error * list NetCall :=
  let parts := Split raw "." in
  if (length parts =? 3)%nat then
    match base64Decode (default "" (parts !! 1%nat)) with
    | Some payload =>
        match unmarshalExp payload with
        | Some exp =>
            if 0 <? exp then
              if exp <=? now then (Some (ErrJWTExpired exp), [])
              else (None, [])
            else validateTokenHTTP raw
        | None => validateTokenHTTP raw
        end
    | None => validateTokenHTTP raw
    end
  else validateTokenHTTP raw.

(** [ValidateKeychainToken]; [now] is [time.Now().Unix()].  The result is
    the error returned and the requests sent on the way. *)
Definition ValidateKeychainToken (configDir : string) (now : Z)
    (ks : SecureStore) : option Error * list NetCall :=
  let svc := KeychainServiceName configDir in
  match ReadKeychainToken ks svc with
  | inr _ => (None, [])
  | inl raw =>
      if String.eqb raw "" then (None, [])
      else
        match unmarshalExpiresAt raw with
        | Some expiresAt =>
            if 0 <? expiresAt then
              if expiresAt <=? now then (Some (ErrExpired expiresAt), [])
              else (None, [])
            else validateJWT raw now
        | None => validateJWT raw now
        end
  end.

End Host.

(** *** The identity document [.claude.json] *)

Inductive IdentityError : Type :=
| ErrReadSource      (* "reading source .claude.json: ..." *)
| ErrParseSource     (* "parsing source .claude.json: ..." *)
| ErrNoOAuthAccount  (* "source .claude.json has no oauthAccount" *)
| ErrReadTarget      (* "reading target .claude.json: ..." *)
| ErrParseTarget     (* "parsing target .claude.json: ..." *)
| ErrMarshalTarget   (* "marshaling target .claude.json: ..." *)
| ErrWriteTarget.    (* "writing target .claude.json: ...", or the error of
                        os.WriteFile in RestoreOAuthAccount *)

(** The files the two functions touch: the contents of the files that
    exist, the files that cannot be read, the files that cannot be opened
    for writing, and the files on which a write fails part-way, each with
    the number of bytes that get written before it does. *)
Record Disk : Type := mkDisk {
  files : gmap string string;
  unreadable : gset string;
  unwritable : gset string;
  torn : gmap string nat
}.

(** [os.Stat] followed by [os.IsNotExist] *)
Definition notExist (d : Disk) (path : string) : bool :=
  match files d !! path with
  | Some _ => false
  | None => true
  end.

(** [os.ReadFile]; [None] is its error. *)
Definition ReadFile (d : Disk) (path : string) : option string :=
  if decide (path ∈ unreadable d) then None else files d !! path.

(** [os.WriteFile]: the disk afterwards, and whether it returned an error.
    The file is opened for writing and truncated, the data are written and
    the file is closed; there is no temporary file.  When the open fails
    nothing has changed; when the write fails the file is left with the
    bytes written so far. *)
Definition WriteFile (d : Disk) (path data : string) : Disk * bool :=
  if decide (path ∈ unwritable d) then (d, true)
  else
    match torn d !! path with
    | Some written =>
        (mkDisk (<[path := String.substring 0 written data]> (files d))
           (unreadable d) (unwritable d) (torn d), true)
    | None =>
        (mkDisk (<[path := data]> (files d)) (unreadable d) (unwritable d) (torn d),
         false)
    end.

(** What a call leaves behind: the disk, the raw value returned (a
    [json.RawMessage], [None] when nil) and the error; or a panic. *)
Inductive identityOutcome : Type :=
| Finished (d : Disk) (value : option string) (err : option IdentityError)
| Crashed.

Section Identity.
Variable UserHomeDir : option string.
(** [filepath.Join] *)
Variable Join : string -> string -> string.
(** [json.Unmarshal] into a [map[string]json.RawMessage]: [None] is its
    error, [Some None] the nil map that the document [null] leaves, and
    otherwise the raw text of every field. *)
Variable unmarshalDoc : string -> option (option (gmap string string)).
(** [json.MarshalIndent] of such a map; [None] is its error. *)
Variable marshalDoc : gmap string string -> option string.

Definition oauthAccount : string := "oauthAccount".

Definition identityPath (configDir : string) : string :=
  Join (expandTilde UserHomeDir configDir) ".claude.json".

(** [SwapOAuthAccount] *)
Definition SwapOAuthAccount (targetConfigDir sourceConfigDir : string) (d : Disk)
  : identityOutcome :=
  let targetPath := identityPath targetConfigDir in
  let sourcePath := identityPath sourceConfigDir in
  if notExist d targetPath then Finished d None None
  else if notExist d sourcePath then Finished d None None
  else
    match ReadFile d sourcePath with
    | None => Finished d None (Some ErrReadSource)
    | Some sourceData =>
        match unmarshalDoc sourceData with
        | None => Finished d None (Some ErrParseSource)
        | Some sourceDoc =>
            match default ∅ sourceDoc !! oauthAccount with
            | None => Finished d None (Some ErrNoOAuthAccount)
            | Some sourceOAuth =>
                match ReadFile d targetPath with
                | None => Finished d None (Some ErrReadTarget)
                | Some targetData =>
                    match unmarshalDoc targetData with
                    | None => Finished d None (Some ErrParseTarget)
                    | Some None => Crashed
                    | Some (Some targetDoc) =>
                        let backup := targetDoc !! oauthAccount in
                        let targetDoc := <[oauthAccount := sourceOAuth]> targetDoc in
                        match marshalDoc targetDoc with
                        | None => Finished d None (Some ErrMarshalTarget)
                        | Some out =>
                            match WriteFile d targetPath out with
                            | (d', true) => Finished d' None (Some ErrWriteTarget)
                            | (d', false) => Finished d' backup None
                            end
                        end
                    end
                end
            end
        end
    end.

(** [RestoreOAuthAccount]; it returns an error only. *)
Definition RestoreOAuthAccount (targetConfigDir : string) (backup : option string)
    (d : Disk) : identityOutcome :=
  match backup with
  | None => Finished d None None
  | Some value =>
      let targetPath := identityPath targetConfigDir in
      match ReadFile d targetPath with
      | None => Finished d None (Some ErrReadTarget)
      | Some data =>
          match unmarshalDoc data with
          | None => Finished d None (Some ErrParseTarget)
          | Some None => Crashed
          | Some (Some doc) =>
              match marshalDoc (<[oauthAccount := value]> doc) with
              | None => Finished d None (Some ErrMarshalTarget)
              | Some out =>
                  match WriteFile d targetPath out with
                  | (d', true) => Finished d' None (Some ErrWriteTarget)
                  | (d', false) => Finished d' None None
                  end
              end
          end
      end
  end.

End Identity.

End Keychain.

(** ** Auxiliary definitions for the statements and their instances *)
Module Support.
Import GoStrings Config Quota Keychain.

(** The default profile path, [home + "/.claude"]. *)
Definition defaultPath (home : string) : string :=
  home ++ "/" ++ defaultClaudeConfigDir.

(** The digest bytes that make the suffix of a path's service name. *)
Definition suffixBytes (home : string) (Sum256 : string -> string)
    (path : string) : string :=
  slice (Sum256 (expandTilde (Some home) path)) 0 4.

(** The value of a lower-case hexadecimal digit. *)
Definition unhexDigit (c : ascii) : Z :=
  if code c <? 58 then code c - 48 else code c - 87.

(** A family of pairwise distinct absolute paths. *)
Fixpoint padding (n : nat) : string :=
  match n with
  | O => EmptyString
  | S n => String "a" (padding n)
  end.

Definition pathNumber (n : nat) : string := String "/" (padding n).

(** A numbering of the byte strings; those of at most four bytes get the
    numbers below 257^4. *)
Fixpoint enc (s : string) : Z :=
  match s with
  | EmptyString => 0
  | String c rest => 1 + code c + 257 * enc rest
  end.

(** A state file holding one tracked account, and a decoder that knows
    this file, a file without accounts, and nothing else. *)
Definition sampleAccounts : gmap string AccountQuotaState :=
  {[ "work" := mkAccount QuotaStatusAvailable "" "" "2025-01-01T00:00:00Z" ]}.

Definition sampleDecoder (data : string) : option QuotaState :=
  if String.eqb data "work" then Some (mkState 1 (Some sampleAccounts))
  else if String.eqb data "bare" then Some (mkState 1 None)
  else None.

(** A stand-in for the digest: the text reversed.  It is injective, so two
    paths that share a service name under it do so by tilde expansion or by
    the cut to four bytes. *)
Definition sampleDigest (s : string) : string := GoStrings.rev s.

Definition sampleHome : string := "/Users/u".

(** Two profiles and a keychain holding a secret for each; the target's
    secret ends in a space. *)
Definition targetDir : string := "~/.claude-work".
Definition sourceDir : string := "~/.claude-home".

Definition sampleKeychain : SecureStore :=
  mkStore
    (<[KeychainServiceName (Some sampleHome) sampleDigest targetDir := "sk-old "]>
       (<[KeychainServiceName (Some sampleHome) sampleDigest sourceDir := "sk-new"]> ∅))
    ∅.

(** The same keychain with a target secret free of white space. *)
Definition tidyKeychain : SecureStore :=
  mkStore
    (<[KeychainServiceName (Some sampleHome) sampleDigest targetDir := "sk-old"]>
       (<[KeychainServiceName (Some sampleHome) sampleDigest sourceDir := "sk-new"]> ∅))
    ∅.

Definition quote : string := String (byte 34) EmptyString.

(** JSON credentials: [{"expires_at":-1}] and [{"expires_at":2000000000}],
    and a decoder that knows these two texts. *)
Definition staleCredential : string :=
  "{" ++ quote ++ "expires_at" ++ quote ++ ":-1}".
Definition freshCredential : string :=
  "{" ++ quote ++ "expires_at" ++ quote ++ ":2000000000}".

Definition sampleExpiresAt (raw : string) : option Z :=
  if String.eqb raw staleCredential then Some (-1)
  else if String.eqb raw freshCredential then Some 2000000000
  else None.

(** A three-segment token whose middle segment stands for the payload
    [{"exp":2000000000}], with the decoders that know it. *)
Definition sampleToken : string := "header.payload.signature".

Definition sampleBase64 (segment : string) : option string :=
  if String.eqb segment "payload"
  then Some ("{" ++ quote ++ "exp" ++ quote ++ ":2000000000}")
  else None.

Definition sampleExp (payload : string) : option Z :=
  if String.eqb payload ("{" ++ quote ++ "exp" ++ quote ++ ":2000000000}")
  then Some 2000000000
  else None.

(** A remote service that accepts every bearer at the authentication
    layer and rejects the empty request body. *)
Definition sampleApi (bearer : string) : option Z := Some 400.

(** What the swap leaves of [tidyKeychain], and the backup it returns. *)
Definition swappedKeychain : SecureStore :=
  mkStore
    (<[KeychainServiceName (Some sampleHome) sampleDigest targetDir := "sk-new"]>
       (items tidyKeychain))
    ∅.

Definition sampleBackup : KeychainCredential :=
  mkCredential (KeychainServiceName (Some sampleHome) sampleDigest targetDir) "sk-old".

Definition keychainWith (secret : string) : SecureStore :=
  mkStore
    (<[KeychainServiceName (Some sampleHome) sampleDigest targetDir := secret]> ∅) ∅.

(** *** The rotation policy *)

(** [a] was last used no later than [b], in the byte order Go compares
    strings by. *)
Definition usedBefore (accounts : gmap string AccountQuotaState) (a b : string)
  : Prop :=
  String.le (LastUsed (index accounts a)) (LastUsed (index accounts b)).

(** The handles [AvailableAccounts] keeps. *)
Definition isAvailable (accounts : gmap string AccountQuotaState)
    (handle : string) : bool :=
  String.eqb (Status (index accounts handle)) QuotaStatusAvailable
  || String.eqb (Status (index accounts handle)) "".

(** The instant [t] is strictly before the instant [u]. *)
Definition strictlyBefore (t u : GoTime.Time) : bool :=
  (GoTime.unixSec t <? GoTime.unixSec u)
  || ((GoTime.unixSec t =? GoTime.unixSec u) && (GoTime.nsec t <? GoTime.nsec u)).

(** The accounts the sweep is to clear: limited, with a reset time that is
    not empty, that the grammar parses, and whose instant is strictly
    before [now]. *)
Definition expired (LoadLocation : string -> option GoTime.Location)
    (now : GoTime.Time) (a : AccountQuotaState) : bool :=
  String.eqb (Status a) QuotaStatusLimited
  && negb (String.eqb (ResetsAt a) "")
  && match ParseResetTime LoadLocation (ResetsAt a) now with
     | Ok resetTime => strictlyBefore resetTime now
     | Err _ => false
     end.

(** An account after the sweep. *)
Definition swept (LoadLocation : string -> option GoTime.Location)
    (now : GoTime.Time) (a : AccountQuotaState) : AccountQuotaState :=
  if expired LoadLocation now a
  then mkAccount QuotaStatusAvailable "" "" (LastUsed a)
  else a.

(** How many of the handles in [order] are expired in [accounts]. *)
Definition expiredAmong (LoadLocation : string -> option GoTime.Location)
    (now : GoTime.Time) (accounts : gmap string AccountQuotaState)
    (order : list string) : Z :=
  Z.of_nat (length (List.filter
                      (fun h => match accounts !! h with
                                | Some a => expired LoadLocation now a
                                | None => false
                                end) order)).

(** *** The reset-time grammar *)

(** The shapes of the three capture groups. *)
Definition isHourGroup (m : string) : bool :=
  match m with
  | String d1 EmptyString => isDigit d1
  | String d1 (String d2 EmptyString) => isDigit d1 && isDigit d2
  | _ => false
  end.

Definition isMinuteGroup (m : string) : bool :=
  match m with
  | EmptyString => true
  | String d1 (String d2 EmptyString) => isDigit d1 && isDigit d2
  | _ => false
  end.

Definition isMeridiem (m : string) : bool :=
  String.eqb (ToLower m) "am" || String.eqb (ToLower m) "pm".

(** The number a string of decimal digits denotes. *)
Fixpoint decimalFrom (acc : Z) (s : string) : Z :=
  match s with
  | EmptyString => acc
  | String c rest => decimalFrom (acc * 10 + (code c - 48)) rest
  end.

Definition decimal (s : string) : Z := decimalFrom 0 s.

(** All the texts of each shape. *)
Definition digitChars : list ascii :=
  ["0"; "1"; "2"; "3"; "4"; "5"; "6"; "7"; "8"; "9"]%char.

Definition twoDigits : list string :=
  flat_map (fun d1 => map (fun d2 => String d1 (String d2 EmptyString)) digitChars)
    digitChars.

Definition hourGroups : list string :=
  (map (fun d => String d EmptyString) digitChars ++ twoDigits)%list.

Definition minuteGroups : list string := EmptyString :: twoDigits.

Definition meridiems : list string :=
  ["am"; "aM"; "Am"; "AM"; "pm"; "pM"; "Pm"; "PM"].

(** The minute part of a reset time as written: nothing, or a colon and
    the two digits. *)
Definition minuteText (mm : string) : string :=
  if String.eqb mm "" then "" else ":" ++ mm.

(** The time a matching text is resolved to: [time.Date] on the date of the
    reference in the resolution zone, with the hour of the day and the
    minute that the groups denote. *)
Definition resolved (LoadLocation : string -> option GoTime.Location)
    (resetsAt : string) (reference : GoTime.Time) (m1 m2 m3 : string)
  : GoTime.Time :=
  let loc := (splitZone LoadLocation resetsAt reference).1 in
  let refInLoc := GoTime.In reference loc in
  GoTime.Date (GoTime.Year refInLoc) (GoTime.Month refInLoc) (GoTime.Day refInLoc)
    (hourOfDay (decimal m1) (ToLower m3)) (decimal m2) 0 0 loc.

(** A reset time written without a zone. *)
Definition plainText (h mm mer : string) : string := h ++ minuteText mm ++ mer.

(** The text survives the trimming, names no zone, and is matched as a
    whole with the groups it was put together from. *)
Definition parsesPlainly (h mm mer : string) : bool :=
  let text := plainText h mm mer in
  String.eqb (TrimSpace text) text
  && (Index text "(" =? -1)
  && bool_decide (FindStringSubmatch text = [text; h; mm; mer]).

(** The wall-clock second count that [ParseResetTime] hands to
    [time.Date]: midnight of the reference's date in the zone [l], and the
    hour of the day and the minute on top of it. *)
Definition wanted (l : GoTime.Location) (reference : GoTime.Time) (hod mm : Z) : Z :=
  GoTime.dayNumber (GoTime.In reference l) * 86400 + hod * 3600 + mm * 60.

(** The offset [time.Date] settles on for the wall-clock count [w]: the
    offset in force at [w] read as UTC or, when that offset is not zero and
    [w] less this offset falls outside the period it is in force for, the
    offset in force at that instant. *)
Definition settledOffset (l : GoTime.Location) (w : Z) : Z :=
  let '(offset, start, stop) := GoTime.lookup l w in
  if offset =? 0 then 0
  else
    let utc := w - offset in
    if (utc <? start) || (stop <=? utc) then GoTime.offsetAt l utc else offset.

(** The drift of the wall-clock count [w] in [l]: by how much the offset in
    force at the instant [time.Date] returns exceeds the offset it settled
    on.  It is zero when the wall-clock time exists in the zone as
    [time.Date] resolves it. *)
Definition drift (l : GoTime.Location) (w : Z) : Z :=
  GoTime.offsetAt l (w - settledOffset l w) - settledOffset l w.

(** The zone of Los Angeles around 2026: standard time, with the
    transitions of March and November 2025 and of March 2026. *)
Definition losAngeles : GoTime.Location :=
  GoTime.mkLocation "America/Los_Angeles" (-28800)
    [(1741514400, -25200); (1762074000, -28800); (1772964000, -25200)].

(** The zone of Sao Paulo around the start of summer time at midnight of
    2017-10-15 (03:00 UTC) and its end on 2018-02-18. *)
Definition saoPaulo : GoTime.Location :=
  GoTime.mkLocation "America/Sao_Paulo" (-10800)
    [(1508036400, -7200); (1518919200, -10800)].

(** The zone of Apia around the end of 2011, when Samoa moved across the
    date line and left out 2011-12-30: from ten hours behind UTC to
    fourteen hours ahead, at 2011-12-30 10:00 UTC. *)
Definition apia : GoTime.Location :=
  GoTime.mkLocation "Pacific/Apia" (-36000) [(1325239200, 50400)].

Definition sampleZones (name : string) : option GoTime.Location :=
  if String.eqb name "America/Los_Angeles" then Some losAngeles
  else if String.eqb name "America/Sao_Paulo" then Some saoPaulo
  else if String.eqb name "Pacific/Apia" then Some apia
  else if String.eqb name "UTC" then Some GoTime.UTC
  else None.

(** 2017-10-15 10:00 in Sao Paulo, and 2011-12-29 12:00 in Apia. *)
Definition saoPauloMorning : GoTime.Time := GoTime.mkTime 1508068800 0 saoPaulo.
Definition apiaNoon : GoTime.Time := GoTime.mkTime 1325196000 0 apia.

(** 2026-02-18 15:00 in Los Angeles. *)
Definition sampleNow : GoTime.Time := GoTime.mkTime 1771455600 0 losAngeles.

(** 2026-03-08 12:00 in Los Angeles, ten hours after the clocks went
    forward there. *)
Definition springNoon : GoTime.Time := GoTime.mkTime 1772996400 0 losAngeles.

(** 2026-03-07 12:00 in Los Angeles, the day before. *)
Definition springEve : GoTime.Time := GoTime.mkTime 1772913600 0 losAngeles.

(** The accounts of the sweep test of the repository, and the order in which
    the keys of this map are listed. *)
Definition sweepAccounts : gmap string AccountQuotaState :=
  <["expired" := mkAccount QuotaStatusLimited "" "11am (America/Los_Angeles)"
                   "2026-02-18T10:00:00Z"]>
    (<["still_limited" := mkAccount QuotaStatusLimited "" "7pm (America/Los_Angeles)"
                            "2026-02-18T10:00:00Z"]>
       (<["available" := mkAccount QuotaStatusAvailable "" "" ""]> ∅)).

Definition sweepOrder : list string := ["still_limited"; "expired"; "available"].

(** The accounts of the availability test of the repository. *)
Definition poolAccounts : gmap string AccountQuotaState :=
  <["a" := mkAccount QuotaStatusAvailable "" "" "2025-01-01T03:00:00Z"]>
    (<["b" := mkAccount QuotaStatusLimited "" "" ""]>
       (<["c" := mkAccount QuotaStatusAvailable "" "" "2025-01-01T01:00:00Z"]>
          (<["d" := mkAccount "" "" "" "2025-01-01T02:00:00Z"]> ∅))).

(** *** Fixtures of state_test.go *)

(** 2026-02-18 10:00 in Los Angeles, the reference of the parsing test. *)
Definition testReference : GoTime.Time := GoTime.mkTime 1771437600 0 losAngeles.

(** The hour and minute in Los Angeles of a parse result, as the parsing
    test reads them. *)
Definition hourMinuteInLA (r : result GoTime.Time) : option (Z * Z) :=
  match r with
  | Ok t => Some (GoTime.Hour (GoTime.In t losAngeles),
                  GoTime.Minute (GoTime.In t losAngeles))
  | Err _ => None
  end.

(** The accounts of the sorting test. *)
Definition sortAccounts : gmap string AccountQuotaState :=
  <["a" := mkAccount "" "" "" "2025-01-01T03:00:00Z"]>
    (<["b" := mkAccount "" "" "" ""]>
       (<["c" := mkAccount "" "" "" "2025-01-01T01:00:00Z"]> ∅)).

End Support.

(** ** Auxiliary definitions for the further properties *)
Module MoreSupport.
Import GoStrings Config Quota Keychain Support.

(** The state with one entry assigned. *)
Definition withAccount (state : QuotaState) (handle : string)
    (a : AccountQuotaState) : QuotaState :=
  mkState (Version state) (Some (<[handle := a]> (accountsOf state))).

(** The entries [MarkLimited] and [MarkAvailable] assign. *)
Definition limitedEntry (state : QuotaState) (handle resetsAt now : string)
  : AccountQuotaState :=
  mkAccount QuotaStatusLimited now resetsAt (LastUsed (index (accountsOf state) handle)).

Definition availableEntry (state : QuotaState) (handle : string)
  : AccountQuotaState :=
  mkAccount QuotaStatusAvailable "" "" (LastUsed (index (accountsOf state) handle)).

(** The file system once a state has been written. *)
Definition written (jsonMarshal : QuotaState -> string) (fs : FileSystem)
    (state : QuotaState) : FileSystem :=
  mkFS (Contents (jsonMarshal state)) (lockable fs) (writable fs).

(** The entry of a freshly tracked account. *)
Definition freshAccount : AccountQuotaState := mkAccount QuotaStatusAvailable "" "" "".

(** *** White space at the ends of a string *)

(** The two-byte and three-byte encodings of the white-space runes beyond
    ASCII, as [trimLeft] tests them. *)
Definition space2 (c d : ascii) : bool :=
  (code c =? 194) && ((code d =? 133) || (code d =? 160)).

Definition space3 (c d e : ascii) : bool :=
  ((code c =? 225) && (code d =? 154) && (code e =? 128))
  || ((code c =? 226) && (code d =? 128)
      && (((128 <=? code e) && (code e <=? 138))
          || (code e =? 168) || (code e =? 169)
          || (code e =? 175)))
  || ((code c =? 226) && (code d =? 129) && (code e =? 159))
  || ((code c =? 227) && (code d =? 128) && (code e =? 128)).

(** The string begins with a white-space rune. *)
Definition headSpace (s : string) : bool :=
  match s with
  | String c rest =>
      asciiSpace c
      || match rest with
         | String d rest1 =>
             space2 c d
             || match rest1 with
                | String e _ => space3 c d e
                | EmptyString => false
                end
         | EmptyString => false
         end
  | EmptyString => false
  end.

(** The reversed string ends with a white-space rune. *)
Definition headSpaceRev (s : string) : bool :=
  match s with
  | String c rest =>
      asciiSpace c
      || match rest with
         | String d rest1 =>
             space2 d c
             || match rest1 with
                | String e _ => space3 e d c
                | EmptyString => false
                end
         | EmptyString => false
         end
  | EmptyString => false
  end.

(** A lower-case hexadecimal digit. *)
Definition isLowerHex (c : ascii) : bool :=
  ((48 <=? code c) && (code c <=? 57)) || ((97 <=? code c) && (code c <=? 102)).

(** The handles [LimitedAccounts] keeps. *)
Definition isLimited (accounts : gmap string AccountQuotaState)
    (handle : string) : bool :=
  String.eqb (Status (index accounts handle)) QuotaStatusLimited.

(** The handle was last used at [t]. *)
Definition usedAt (accounts : gmap string AccountQuotaState) (t : string)
    (handle : string) : bool :=
  String.eqb (LastUsed (index accounts handle)) t.

(** The handle is tracked and the sweep at [now] is to clear it. *)
Definition expiredHandle (LoadLocation : string -> option GoTime.Location)
    (now : GoTime.Time) (accounts : gmap string AccountQuotaState)
    (handle : string) : bool :=
  match accounts !! handle with
  | Some a => expired LoadLocation now a
  | None => false
  end.

(** No two tracked accounts that [AvailableAccounts] keeps were last used
    at the same time. *)
Definition tieFree (accounts : gmap string AccountQuotaState) : bool :=
  forallb
    (fun p : string * AccountQuotaState =>
       forallb
         (fun q : string * AccountQuotaState =>
            negb (isAvailable accounts p.1 && isAvailable accounts q.1
                  && String.eqb (LastUsed p.2) (LastUsed q.2))
            || String.eqb p.1 q.1)
         (map_to_list accounts))
    (map_to_list accounts).

(** The pool with an account in cooldown, and the order in which the keys
    of this map are listed. *)
Definition mixedAccounts : gmap string AccountQuotaState :=
  <["e" := mkAccount QuotaStatusCooldown "" "" ""]> poolAccounts.

Definition mixedOrder : list string := ["c"; "e"; "a"; "b"; "d"].

(** *** A codec for the instances

    [encoding/json] stays a parameter of the store.  The instances run the
    store with a codec that knows a few states by name. *)
#[export] Instance account_eq_dec : EqDecision AccountQuotaState.
Proof. solve_decision. Defined.

#[export] Instance state_eq_dec : EqDecision QuotaState.
Proof. solve_decision. Defined.

Definition poolState : QuotaState := mkState 1 (Some poolAccounts).

Definition markedAt : string := "2026-02-18T18:00:00Z".

Definition knownStates : list (string * QuotaState) :=
  [("pool", poolState);
   ("a-limited", withAccount poolState "a" (limitedEntry poolState "a" "7pm" markedAt));
   ("b-available", withAccount poolState "b" (availableEntry poolState "b"))].

Definition tableUnmarshal (data : string) : option QuotaState :=
  snd <$> List.find (fun p => String.eqb (fst p) data) knownStates.

Definition tableMarshal (state : QuotaState) : string :=
  default "" (fst <$> List.find (fun p => bool_decide (snd p = state)) knownStates).

(** A store holding the pool, with the lock free and the file writable. *)
Definition poolFiles : FileSystem := mkFS (Contents "pool") true true.

(** The registered accounts of the tracking instance, in the order the
    range lists them. *)
Definition registered : list string := ["e"; "a"; "f"; "e"].

(** *** The identity documents of the instances *)

Definition sampleJoin (dir name : string) : string := dir ++ "/" ++ name.

Definition workDoc : gmap string string :=
  <["oauthAccount" := "{work}"]> (<["theme" := "dark"]> ∅).

Definition homeDoc : gmap string string :=
  <["oauthAccount" := "{home}"]> (<["theme" := "light"]> ∅).

Definition bareDoc : gmap string string := <["editor" := "vim"]> ∅.

Definition knownDocs : list (string * option (gmap string string)) :=
  [("work", Some workDoc); ("home", Some homeDoc); ("bare", Some bareDoc);
   ("work-as-home", Some (<["oauthAccount" := "{home}"]> workDoc));
   ("bare-as-home", Some (<["oauthAccount" := "{home}"]> bareDoc));
   ("null", None)].

Definition tableUnmarshalDoc (data : string)
  : option (option (gmap string string)) :=
  snd <$> List.find (fun p => String.eqb (fst p) data) knownDocs.

Definition tableMarshalDoc (doc : gmap string string) : option string :=
  fst <$> List.find (fun p => bool_decide (snd p = Some doc)) knownDocs.

(** A remote service that rejects one token at the authentication layer,
    and a token with a control byte (the bell) in it. *)
Definition strictApi (bearer : string) : option Z :=
  if String.eqb bearer "sk-bad" then Some 401 else Some 400.

Definition bellToken : string := "sk" ++ String (byte 7) "x".

Definition targetIdentity : string := "/Users/u/.claude-work/.claude.json".
Definition sourceIdentity : string := "/Users/u/.claude-home/.claude.json".

Definition diskWith (target : string) : Disk :=
  mkDisk (<[targetIdentity := target]> (<[sourceIdentity := "home"]> ∅)) ∅ ∅ ∅.

(** The same disk with the target's document [work], on which a write
    fails after seven bytes. *)
Definition tornDisk : Disk :=
  mkDisk (files (diskWith "work")) ∅ ∅ (<[targetIdentity := 7%nat]> ∅).

End MoreSupport.

(** * Properties *)

(** ** The repository's tests, run on the embedding *)
Module RepositoryTests.
Import GoStrings Config Quota Support.

(** TestParseResetTime_SimpleAMPM *)
Example parse_table :
  map (fun input => hourMinuteInLA (ParseResetTime sampleZones input testReference))
    ["7pm (America/Los_Angeles)"; "11am (America/Los_Angeles)";
     "2pm (America/Los_Angeles)"; "12pm (America/Los_Angeles)";
     "12am (America/Los_Angeles)"; "3:30pm (America/Los_Angeles)";
     "7:00pm (America/Los_Angeles)"]
  = [Some (19, 0); Some (11, 0); Some (14, 0); Some (12, 0); Some (0, 0);
     Some (15, 30); Some (19, 0)].
Proof. vm_compute. reflexivity. Qed.

(** TestParseResetTime_NoTimezone and TestParseResetTime_InvalidInput *)
Example parse_plain_and_garbage :
  hourMinuteInLA (ParseResetTime sampleZones "7pm" testReference) = Some (19, 0)
  /\ ParseResetTime sampleZones "garbage" testReference
     = Err (ErrCannotParse "garbage").
Proof. split; vm_compute; reflexivity. Qed.

(** TestAvailableAccounts, for three of the orders the range may take. *)
Example available_pool :
  AvailableAccounts ["a"; "b"; "c"; "d"] poolAccounts = ["c"; "d"; "a"]
  /\ AvailableAccounts ["d"; "c"; "b"; "a"] poolAccounts = ["c"; "d"; "a"]
  /\ AvailableAccounts ["b"; "a"; "d"; "c"] poolAccounts = ["c"; "d"; "a"].
Proof. repeat split; vm_compute; reflexivity. Qed.

(** TestSortByLastUsed_EmptyStrings *)
Example sort_empty_first :
  sortByLastUsed ["a"; "b"; "c"] sortAccounts = ["b"; "c"; "a"].
Proof. vm_compute. reflexivity. Qed.

(** TestLimitedAccounts, on the accounts of the availability test *)
Example limited_pool : LimitedAccounts ["a"; "b"; "c"; "d"] poolAccounts = ["b"].
Proof. vm_compute. reflexivity. Qed.

(** TestClearExpired_ClearsPassedResetTime *)
Example sweep_at_three_pm :
  (clearExpiredAt sampleZones sweepOrder sweepAccounts sampleNow).2 = 1
  /\ Status (index (clearExpiredAt sampleZones sweepOrder sweepAccounts sampleNow).1
                "expired") = QuotaStatusAvailable
  /\ LastUsed (index (clearExpiredAt sampleZones sweepOrder sweepAccounts sampleNow).1
                  "expired") = "2026-02-18T10:00:00Z"
  /\ Status (index (clearExpiredAt sampleZones sweepOrder sweepAccounts sampleNow).1
                "still_limited") = QuotaStatusLimited
  /\ Status (index (clearExpiredAt sampleZones sweepOrder sweepAccounts sampleNow).1
                "available") = QuotaStatusAvailable.
Proof. repeat split; vm_compute; reflexivity. Qed.

(** TestClearExpired_NoResetsAt *)
Example sweep_without_reset_time :
  clearExpiredAt sampleZones ["no_reset"]
    {[ "no_reset" := mkAccount QuotaStatusLimited "" "" "" ]} sampleNow
  = ({[ "no_reset" := mkAccount QuotaStatusLimited "" "" "" ]}, 0).
Proof. vm_compute. reflexivity. Qed.

(** TestLoadEmpty and TestLoadCorruptFile *)
Example load_empty_and_corrupt :
  Load 1 sampleDecoder (mkFS NotExist true true) = Ok (mkState 1 (Some ∅))
  /\ Load 1 sampleDecoder (mkFS (Contents "{invalid") true true) = Err ErrParsing.
Proof. split; reflexivity. Qed.

End RepositoryTests.

(** ** Bytes and strings *)
Module StringFacts.
Import GoStrings.

Lemma substring_all s : String.substring 0 (String.length s) s = s.
Proof. induction s as [|c s IH]; [done|]. cbn. by rewrite IH. Qed.

Lemma substring_length_le n m s : (String.length (substring n m s) <= m)%nat.
Proof.
  revert n m. induction s as [|c s IH]; intros [|n] [|m]; cbn; try lia.
  - specialize (IH 0%nat m). lia.
  - apply (IH n 0%nat).
  - apply (IH n (S m)).
Qed.

Lemma append_cancel_l (s a b : string) : s ++ a = s ++ b -> a = b.
Proof. induction s as [|c s IH]; cbn; [done|]. intros [= H]. by apply IH. Qed.

Lemma code_range c : 0 <= code c < 256.
Proof. unfold code. pose proof (N_ascii_bounded c). lia. Qed.

Lemma code_inj c d : code c = code d -> c = d.
Proof.
  unfold code. intros H. apply N2Z.inj in H.
  rewrite <- (ascii_N_embedding c), <- (ascii_N_embedding d). by rewrite H.
Qed.

End StringFacts.

(** ** The calendar and [time.Date] *)
Module TimeFacts.
Import GoTime.

(** The year of the era and the shifted month that [civilFromDays] finds
    are in range. *)
Lemma civil_parts z :
  let z' := z + 719468 in
  let era := z' / 146097 in
  let doe := z' - era * 146097 in
  let yoe := (doe - doe / 1460 + doe / 36524 - doe / 146096) / 365 in
  let doy := doe - (365 * yoe + yoe / 4 - yoe / 100) in
  let mp := (5 * doy + 2) / 153 in
  0 <= yoe <= 399 /\ 0 <= mp <= 11.
Proof.
  cbv zeta.
  set (z' := z + 719468). set (era := z' / 146097).
  set (doe := z' - era * 146097).
  assert (Hdoe : 0 <= doe <= 146096).
  { subst doe era. pose proof (Z.mod_pos_bound z' 146097 ltac:(lia)).
    rewrite Z.mod_eq in H by lia. lia. }
  clearbody doe. clear era z' z.
  set (yoe := (doe - doe / 1460 + doe / 36524 - doe / 146096) / 365).
  assert (Hyoe : 0 <= yoe <= 399).
  { subst yoe. split.
    - apply Z.div_pos; [|lia]. Z.div_mod_to_equations. lia.
    - apply Z.lt_succ_r, Z.div_lt_upper_bound; [lia|]. Z.div_mod_to_equations. lia. }
  split; [done|].
  assert (Hdoy : 0 <= doe - (365 * yoe + yoe / 4 - yoe / 100) <= 365).
  { subst yoe. Z.div_mod_to_equations. lia. }
  split.
  - apply Z.div_pos; lia.
  - apply Z.lt_succ_r, Z.div_lt_upper_bound; lia.
Qed.

(** The day number of the civil date of a day number is that number, and
    the month is a month. *)
Lemma civil_roundtrip z :
  daysFromCivil (fst (fst (civilFromDays z))) (snd (fst (civilFromDays z)))
    (snd (civilFromDays z)) = z
  /\ 1 <= snd (fst (civilFromDays z)) <= 12.
Proof.
  pose proof (civil_parts z) as Hparts. cbv zeta in Hparts.
  unfold civilFromDays. cbv zeta. cbn [fst snd].
  set (z' := z + 719468) in *. set (era := z' / 146097) in *.
  set (doe := z' - era * 146097) in *.
  set (yoe := (doe - doe / 1460 + doe / 36524 - doe / 146096) / 365) in *.
  set (doy := doe - (365 * yoe + yoe / 4 - yoe / 100)) in *.
  set (mp := (5 * doy + 2) / 153) in *.
  destruct Hparts as [Hyoe Hmp].
  unfold daysFromCivil. cbv zeta.
  destruct (Z.ltb_spec mp 10) as [Hlt|Hge].
  - replace (mp + 3 <=? 2) with false by lia.
    replace (2 <? mp + 3) with true by lia.
    replace (mp + 3 - 3) with mp by lia.
    replace ((yoe + era * 400) / 400) with era
      by (apply Z.div_unique with yoe; lia).
    replace (yoe + era * 400 - era * 400) with yoe by lia.
    split; [|lia]. subst doy doe z'. lia.
  - replace (mp - 9 <=? 2) with true by lia.
    replace (2 <? mp - 9) with false by lia.
    replace (mp - 9 + 9) with mp by lia.
    replace (yoe + era * 400 + 1 - 1) with (yoe + era * 400) by lia.
    replace ((yoe + era * 400) / 400) with era
      by (apply Z.div_unique with yoe; lia).
    replace (yoe + era * 400 - era * 400) with yoe by lia.
    split; [|lia]. subst doy doe z'. lia.
Qed.

Lemma daysFromCivil_day y m d k : daysFromCivil y m (d + k) = daysFromCivil y m d + k.
Proof. unfold daysFromCivil. cbv zeta. lia. Qed.

(** The instant [time.Date] returns for a day number, an hour and a minute
    that are not negative: the wall-clock count less the offset settled
    on. *)
Lemma Date_settled z hour min l :
  0 <= hour -> 0 <= min ->
  let y := fst (fst (civilFromDays z)) in
  let m := snd (fst (civilFromDays z)) in
  let d := snd (civilFromDays z) in
  let wall := z * 86400 + hour * 3600 + min * 60 in
  Date y m d hour min 0 0 l = mkTime (wall - Support.settledOffset l wall) 0 l.
Proof.
  intros Hh Hm y m d wall.
  destruct (civil_roundtrip z) as [Hround Hmonth]. fold y m d in Hround, Hmonth.
  unfold Date, norm, Support.settledOffset.
  replace ((m - 1) / 12) with 0 by (symmetry; apply Z.div_small; lia).
  replace ((m - 1) mod 12) with (m - 1) by (symmetry; apply Z.mod_small; lia).
  replace (y + 0) with y by lia. replace (m - 1 + 1) with m by lia.
  change (0 / 1000000000) with 0. change (0 mod 1000000000) with 0.
  replace (0 + 0) with 0 by lia.
  change (0 / 60) with 0. change (0 mod 60) with 0.
  replace (min + 0) with min by lia.
  rewrite daysFromCivil_day, Hround.
  replace ((z + (hour + min / 60) / 24) * 86400 + (hour + min / 60) mod 24 * 3600
           + min mod 60 * 60 + 0) with wall
    by (subst wall; Z.div_mod_to_equations; lia).
  destruct (lookup l wall) as [[offset start] stop].
  destruct (Z.eqb_spec offset 0) as [->|Hne]; [by rewrite Z.sub_0_r|].
  by destruct (_ || _).
Qed.

(** A zone without offset changes has no drift. *)
Lemma drift_fixed_zone l w : zoneTrans l = [] -> Support.drift l w = 0.
Proof.
  intros Hfixed.
  assert (Hoff : forall t, offsetAt l t = zoneInitial l)
    by (intros t; unfold offsetAt, lookup; by rewrite Hfixed).
  unfold Support.drift, Support.settledOffset, lookup. rewrite Hfixed.
  cbn [lookupFrom]. rewrite !Hoff.
  destruct (Z.eqb_spec (zoneInitial l) 0) as [->|Hne]; [done|].
  destruct (_ || _); lia.
Qed.

End TimeFacts.

(** ** The quota state store *)
Module StoreFacts.
Import GoStrings Config Quota Support.

Section Store.
Variable CurrentQuotaVersion : Z.
Variable jsonUnmarshal : string -> option QuotaState.
Variable jsonMarshal : QuotaState -> string.
Variable LoadLocation : string -> option GoTime.Location.

Abbreviation Load := (Load CurrentQuotaVersion jsonUnmarshal).
Abbreviation MarkLimited := (MarkLimited CurrentQuotaVersion jsonUnmarshal jsonMarshal).
Abbreviation MarkAvailable := (MarkAvailable CurrentQuotaVersion jsonUnmarshal jsonMarshal).
Abbreviation clearExpiredAt := (clearExpiredAt LoadLocation).
Abbreviation clearExpiredStep := (clearExpiredStep LoadLocation).

(** A state handed back by [Load] carries a map. *)
Lemma Load_Ok_accounts fs st :
  Load fs = Ok st -> exists accounts, Accounts st = Some accounts.
Proof.
  unfold Quota.Load.
  destruct (stateFile fs) as [| |data]; try discriminate.
  - intros [= <-]. eauto.
  - destruct (jsonUnmarshal data) as [state|]; try discriminate.
    destruct (Accounts state) as [accounts|] eqn:Hacc; intros [= <-]; eauto.
Qed.

(** Reading the key just assigned yields the value assigned. *)
Lemma index_insert_eq (accounts : gmap string AccountQuotaState) handle v :
  index (<[handle := v]> accounts) handle = v.
Proof. unfold index. by rewrite lookup_insert_eq. Qed.

Lemma index_insert_ne (accounts : gmap string AccountQuotaState) handle other v :
  handle <> other ->
  index (<[handle := v]> accounts) other = index accounts other.
Proof. intros Hne. unfold index. by rewrite lookup_insert_ne. Qed.

Lemma index_lookup (accounts : gmap string AccountQuotaState) handle a :
  accounts !! handle = Some a -> index accounts handle = a.
Proof. intros H. unfold index. by rewrite H. Qed.

(** One step of the sweep changes no account's [LastUsed]. *)
Lemma clearExpiredStep_LastUsed now st handle other :
  LastUsed (index (fst (clearExpiredStep now st handle)) other)
  = LastUsed (index (fst st) other).
Proof.
  destruct st as [accounts cleared]. unfold Quota.clearExpiredStep.
  destruct (accounts !! handle) as [acctState|] eqn:Hl; [|done].
  destruct (negb _); [done|].
  destruct (String.eqb (ResetsAt acctState) ""); [done|].
  destruct (ParseResetTime _ _ _) as [resetTime|]; [|done].
  destruct (GoTime.After now resetTime); [|done].
  cbn [fst]. destruct (decide (handle = other)) as [->|Hne].
  - rewrite index_insert_eq. by rewrite (index_lookup _ _ _ Hl).
  - by rewrite index_insert_ne.
Qed.

Lemma fold_clearExpired_LastUsed now order st other :
  LastUsed (index (fst (fold_left (clearExpiredStep now) order st)) other)
  = LastUsed (index (fst st) other).
Proof.
  revert st. induction order as [|handle order IH]; intros st; [done|].
  cbn [fold_left]. rewrite IH. apply clearExpiredStep_LastUsed.
Qed.

(** C6. [Load] on a missing state file returns a state at the current
    schema version whose accounts map is present and empty, and no
    error; on contents that do not parse it returns the parse error and
    no state at all; and whenever it returns a state, that state's
    accounts map is present, also when the file left it out. *)
Theorem Load_missing_corrupt_present :
  (forall l w,
      Load (mkFS NotExist l w) = Ok (mkState CurrentQuotaVersion (Some ∅)))
  /\ (forall data l w,
         jsonUnmarshal data = None ->
         Load (mkFS (Contents data) l w) = Err ErrParsing
         /\ forall st, Load (mkFS (Contents data) l w) <> Ok st)
  /\ (forall fs st,
         Load fs = Ok st -> exists accounts, Accounts st = Some accounts)
  /\ (forall data l w version,
         jsonUnmarshal data = Some (mkState version None) ->
         Load (mkFS (Contents data) l w) = Ok (mkState version (Some ∅))).
Proof.
  split; [done|]. split; [|split].
  - intros data l w H. unfold Quota.Load; cbn. rewrite H. by split.
  - apply Load_Ok_accounts.
  - intros data l w version H. unfold Quota.Load; cbn. by rewrite H.
Qed.

(** C1. Every status transition of the subsystem keeps the account's
    [LastUsed].  [MarkLimited] and [MarkAvailable] either fail, leaving the
    files as they were, or write a state in which the handle's [LastUsed]
    is what it was in the state loaded (empty for a handle not tracked
    before); and the sweep of [clearExpiredAt] leaves every account's
    [LastUsed] as it was. *)
Theorem lastUsed_survives_transitions :
  (forall handle resetsAt now fs,
      (exists err, MarkLimited handle resetsAt now fs = Returned fs (Some err))
      \/ (exists st st',
             Load fs = Ok st
             /\ MarkLimited handle resetsAt now fs
                = Returned (mkFS (Contents (jsonMarshal st')) (lockable fs)
                              (writable fs)) None
             /\ LastUsed (index (accountsOf st') handle)
                = LastUsed (index (accountsOf st) handle)))
  /\ (forall handle fs,
         (exists err, MarkAvailable handle fs = Returned fs (Some err))
         \/ (exists st st',
                Load fs = Ok st
                /\ MarkAvailable handle fs
                   = Returned (mkFS (Contents (jsonMarshal st')) (lockable fs)
                                 (writable fs)) None
                /\ LastUsed (index (accountsOf st') handle)
                   = LastUsed (index (accountsOf st) handle)))
  /\ (forall order accounts now handle,
         LastUsed (index (fst (clearExpiredAt order accounts now)) handle)
         = LastUsed (index accounts handle)).
Proof.
  split; [|split].
  - intros handle resetsAt now fs.
    unfold Quota.MarkLimited, lock, assign, EnsureDirAndWriteJSON.
    destruct (lockable fs); [|left; eauto].
    destruct (Load fs) as [st|err] eqn:HL; [|left; eauto].
    destruct (Load_Ok_accounts _ _ HL) as [accounts Hacc]. rewrite Hacc.
    destruct (writable fs); [|left; eauto].
    right. eexists st, _. split; [done|]. split; [reflexivity|].
    unfold accountsOf. cbn. rewrite Hacc. cbn. by rewrite index_insert_eq.
  - intros handle fs.
    unfold Quota.MarkAvailable, lock, assign, EnsureDirAndWriteJSON.
    destruct (lockable fs); [|left; eauto].
    destruct (Load fs) as [st|err] eqn:HL; [|left; eauto].
    destruct (Load_Ok_accounts _ _ HL) as [accounts Hacc]. rewrite Hacc.
    destruct (writable fs); [|left; eauto].
    right. eexists st, _. split; [done|]. split; [reflexivity|].
    unfold accountsOf. cbn. rewrite Hacc. cbn. by rewrite index_insert_eq.
  - intros order accounts now handle. unfold Quota.clearExpiredAt.
    by rewrite fold_clearExpired_LastUsed.
Qed.

End Store.

Lemma Load_missing_corrupt_present_witness :
  (Load 1 sampleDecoder (mkFS (Contents "{invalid") true true) = Err ErrParsing
   /\ forall st, Load 1 sampleDecoder (mkFS (Contents "{invalid") true true) <> Ok st)
  /\ (exists accounts, Accounts (mkState 1 (Some sampleAccounts)) = Some accounts)
  /\ Load 1 sampleDecoder (mkFS (Contents "bare") true true) = Ok (mkState 1 (Some ∅)).
Proof.
  destruct (Load_missing_corrupt_present 1 sampleDecoder) as (_ & Hbad & Hok & Hnil).
  split; [|split].
  - apply Hbad. reflexivity.
  - apply (Hok (mkFS (Contents "work") true true)). reflexivity.
  - apply Hnil. reflexivity.
Defined.

Lemma lastUsed_survives_transitions_witness :
  exists st',
    MarkLimited 1 sampleDecoder (fun _ => "work") "work" "7pm" "2025-01-02T00:00:00Z"
      (mkFS (Contents "work") true true)
    = Returned (mkFS (Contents "work") true true) None
    /\ LastUsed (index (accountsOf st') "work") = "2025-01-01T00:00:00Z".
Proof.
  destruct (lastUsed_survives_transitions 1 sampleDecoder (fun _ => "work")
              (fun _ => None)) as (Hlim & _ & _).
  destruct (Hlim "work" "7pm" "2025-01-02T00:00:00Z" (mkFS (Contents "work") true true))
    as [[err Hfail] | (st & st' & Hload & Hdone & Hsame)].
  - vm_compute in Hfail. discriminate Hfail.
  - exists st'. split; [exact Hdone|].
    rewrite Hsame. vm_compute in Hload. injection Hload as <-.
    vm_compute. reflexivity.
Defined.

End StoreFacts.

(** ** The credential rotator and the token validator *)
Module KeychainFacts.
Import GoStrings Keychain Support StringFacts.

Lemma unhex_hex n : 0 <= n < 16 -> unhexDigit (hexDigit n) = n.
Proof.
  intros Hn.
  assert (Hall : forallb (fun k => unhexDigit (hexDigit (Z.of_nat k)) =? Z.of_nat k)
                   (seq 0 16) = true) by (vm_compute; reflexivity).
  rewrite forallb_forall in Hall. specialize (Hall (Z.to_nat n)).
  rewrite Z2Nat.id in Hall by lia. apply Z.eqb_eq, Hall, in_seq. lia.
Qed.

(** The hexadecimal rendering loses nothing. *)
Lemma hex_inj a b : hex a = hex b -> a = b.
Proof.
  revert b. induction a as [|c a IH]; intros [|d b]; try done.
  cbn. intros [= Hhi Hlo Hrest].
  apply (f_equal unhexDigit) in Hhi, Hlo.
  pose proof (code_range c). pose proof (code_range d).
  rewrite !unhex_hex in Hhi, Hlo by (try apply Z.mod_pos_bound; try split;
    try apply Z.div_pos; try apply Z.div_lt_upper_bound; lia).
  f_equal; [|by apply IH].
  apply code_inj. rewrite (Z.div_mod (code c) 16), (Z.div_mod (code d) 16) by lia.
  by rewrite Hhi, Hlo.
Qed.

Lemma padding_inj m n : padding m = padding n -> m = n.
Proof.
  revert n. induction m as [|m IH]; intros [|n]; cbn; try done.
  intros [= H]. f_equal. by apply IH.
Qed.

Lemma enc_nonneg s : 0 <= enc s.
Proof. induction s as [|c s IH]; cbn; [lia|]. pose proof (code_range c). lia. Qed.

Lemma enc_inj a b : enc a = enc b -> a = b.
Proof.
  revert b. induction a as [|c a IH]; intros [|d b]; cbn; intros H.
  - done.
  - pose proof (code_range d). pose proof (enc_nonneg b). lia.
  - pose proof (code_range c). pose proof (enc_nonneg a). lia.
  - pose proof (code_range c). pose proof (code_range d).
    assert (enc a = enc b) as He by lia.
    f_equal; [apply code_inj; lia | by apply IH].
Qed.

Lemma enc_bound s : (String.length s <= 4)%nat -> enc s < 257 ^ 4.
Proof.
  destruct s as [|c1 [|c2 [|c3 [|c4 [|c5 s]]]]]; cbn; intros Hlen; try lia;
    pose proof (code_range c1); try pose proof (code_range c2);
    try pose proof (code_range c3); try pose proof (code_range c4); lia.
Qed.

Lemma expandTilde_tilde home rest :
  expandTilde (Some home) ("~/" ++ rest) = home ++ "/" ++ rest.
Proof.
  change ("~/" ++ rest) with (String "~" (String "/" rest)).
  change ("/" ++ rest) with (String "/" rest).
  unfold expandTilde, HasPrefix, sliceFrom.
  assert (Hpre : String.prefix "~/" (String "~" (String "/" rest)) = true)
    by (by destruct rest).
  rewrite Hpre.
  change (Z.to_nat 1) with 1%nat.
  change (String.length (String "~" (String "/" rest)) - 1)%nat
    with (String.length (String "/" rest) - 0)%nat.
  rewrite Nat.sub_0_r.
  change (substring 1 (String.length (String "/" rest)) (String "~" (String "/" rest)))
    with (substring 0 (String.length (String "/" rest)) (String "/" rest)).
  by rewrite substring_all.
Qed.

(** *** Service names *)
Section Address.
Variable home : string.
Variable Sum256 : string -> string.

Abbreviation KeychainServiceName := (Keychain.KeychainServiceName (Some home) Sum256).
Abbreviation expandTilde := (Keychain.expandTilde (Some home)).
Abbreviation defaultPath := (Support.defaultPath home).
Abbreviation suffixBytes := (Support.suffixBytes home Sum256).

Lemma default_address path :
  expandTilde path = defaultPath -> KeychainServiceName path = keychainServiceBase.
Proof.
  intros H. unfold Keychain.KeychainServiceName. rewrite H.
  unfold Support.defaultPath. by rewrite String.eqb_refl.
Qed.

Lemma hashed_address path :
  expandTilde path <> defaultPath ->
  KeychainServiceName path = keychainServiceBase ++ "-" ++ hex (suffixBytes path).
Proof.
  intros H. unfold Keychain.KeychainServiceName.
  apply String.eqb_neq in H. unfold Support.defaultPath in H. by rewrite H.
Qed.

Lemma hashed_address_eq p q :
  expandTilde p <> defaultPath -> expandTilde q <> defaultPath ->
  KeychainServiceName p = KeychainServiceName q <-> suffixBytes p = suffixBytes q.
Proof.
  intros Hp Hq. rewrite (hashed_address p Hp), (hashed_address q Hq). split.
  - intros H. apply append_cancel_l in H. apply (append_cancel_l "-") in H.
    by apply hex_inj.
  - by intros ->.
Qed.

(** C8, as amended. With the home directory known, the service name is a
    function of the tilde-expanded path: the default profile path, written
    [~/.claude] or expanded, yields the bare legacy name; every other path
    yields the base name, a dash and the hexadecimal form of the first four
    bytes of the digest of the expanded path, which is never the legacy name;
    paths with equal expansions yield equal names; and two non-default
    paths yield distinct names exactly when those four bytes of their
    digests differ. *)
Theorem service_address :
  KeychainServiceName ("~/" ++ defaultClaudeConfigDir) = keychainServiceBase
  /\ (forall path,
         expandTilde path = defaultPath ->
         KeychainServiceName path = keychainServiceBase)
  /\ (forall path,
         expandTilde path <> defaultPath ->
         KeychainServiceName path
         = keychainServiceBase ++ "-" ++ hex (slice (Sum256 (expandTilde path)) 0 4)
         /\ KeychainServiceName path <> keychainServiceBase)
  /\ (forall p q, expandTilde p = expandTilde q ->
                  KeychainServiceName p = KeychainServiceName q)
  /\ (forall p q,
         expandTilde p <> defaultPath -> expandTilde q <> defaultPath ->
         (KeychainServiceName p <> KeychainServiceName q
          <-> slice (Sum256 (expandTilde p)) 0 4 <> slice (Sum256 (expandTilde q)) 0 4)).
Proof.
  split; [|split; [|split; [|split]]].
  - apply default_address. apply expandTilde_tilde.
  - apply default_address.
  - intros path H. split; [by apply hashed_address|].
    rewrite (hashed_address path H). intros Heq.
    by apply (append_cancel_l keychainServiceBase _ "") in Heq.
  - intros p q H. unfold Keychain.KeychainServiceName. by rewrite H.
  - intros p q Hp Hq. by rewrite (hashed_address_eq p q Hp Hq).
Qed.

(** Whatever the digest function, two distinct absolute paths, neither the
    default one, share a service name: there are more paths than four-byte
    suffixes. *)
Lemma truncated_digest_collision :
  exists p q,
    p <> q /\ expandTilde p = p /\ expandTilde q = q
    /\ p <> defaultPath /\ q <> defaultPath
    /\ KeychainServiceName p = KeychainServiceName q.
Proof.
  assert (exists holes : nat, Z.of_nat holes = 257 ^ 4) as [holes Hholes]
    by (exists (Z.to_nat (257 ^ 4)); lia).
  pose (f := fun i : nat =>
               if decide (pathNumber i = defaultPath) then holes
               else Z.to_nat (enc (suffixBytes (pathNumber i)))).
  destruct (nat_pigeonhole f (S (S holes)) (S holes)) as (i & j & Hij & Hf).
  - lia.
  - intros k _. unfold f. destruct (decide _); [lia|].
    pose proof (enc_bound (suffixBytes (pathNumber k))
                  (substring_length_le _ _ _)).
    pose proof (enc_nonneg (suffixBytes (pathNumber k))). lia.
  - assert (Hne : pathNumber i <> pathNumber j).
    { intros [= H]. apply padding_inj in H. lia. }
    unfold f in Hf.
    pose proof (enc_bound (suffixBytes (pathNumber i)) (substring_length_le _ _ _)).
    pose proof (enc_bound (suffixBytes (pathNumber j)) (substring_length_le _ _ _)).
    pose proof (enc_nonneg (suffixBytes (pathNumber i))).
    pose proof (enc_nonneg (suffixBytes (pathNumber j))).
    destruct (decide (pathNumber i = defaultPath)) as [Hi|Hi];
      destruct (decide (pathNumber j = defaultPath)) as [Hj|Hj]; try lia.
    + congruence.
    + exists (pathNumber i), (pathNumber j).
      repeat split; try done.
      apply hashed_address_eq; try done.
      apply enc_inj. lia.
Qed.

End Address.

Section Host.
Variable UserHomeDir : option string.
Variable Sum256 : string -> string.

Abbreviation KeychainServiceName := (Keychain.KeychainServiceName UserHomeDir Sum256).
Abbreviation SwapKeychainCredential := (Keychain.SwapKeychainCredential UserHomeDir Sum256).

(** What a successful swap has read and written. *)
Lemma swap_success target source ks ks1 backup :
  SwapKeychainCredential target source ks = (ks1, inl backup) ->
  exists secret sourceSecret,
    items ks !! KeychainServiceName target = Some secret
    /\ items ks !! KeychainServiceName source = Some sourceSecret
    /\ (KeychainServiceName target ∉ refused ks)
    /\ backup = mkCredential (KeychainServiceName target) (TrimSpace (secret ++ newline))
    /\ ks1 = mkStore (<[KeychainServiceName target := TrimSpace (sourceSecret ++ newline)]>
                        (items ks)) (refused ks).
Proof.
  unfold Keychain.SwapKeychainCredential, ReadKeychainToken, WriteKeychainToken,
    securityFind, securityAdd.
  destruct (items ks !! KeychainServiceName target) as [secret|]; [|discriminate].
  destruct (items ks !! KeychainServiceName source) as [sourceSecret|]; [|discriminate].
  destruct (decide (KeychainServiceName target ∈ refused ks)) as [|Hok]; [discriminate|].
  intros [= <- <-]. exists secret, sourceSecret. repeat split; done.
Qed.

(** C7, as amended. After a successful swap, restoring the returned backup
    succeeds and leaves the store as it was before the swap except that the
    target's entry holds the target's pre-swap secret as [ReadKeychainToken]
    returned it, that is, with the white space at its ends trimmed; for a
    secret without white space at its ends the store is exactly the pre-swap
    store.  Restoring a nil backup changes nothing and returns no error. *)
Theorem swap_then_restore target source ks ks1 backup :
  SwapKeychainCredential target source ks = (ks1, inl backup) ->
  (exists secret,
      items ks !! KeychainServiceName target = Some secret
      /\ Token backup = TrimSpace (secret ++ newline)
      /\ RestoreKeychainToken (Some backup) ks1
         = (mkStore (<[KeychainServiceName target := TrimSpace (secret ++ newline)]>
                       (items ks)) (refused ks), None)
      /\ (TrimSpace (secret ++ newline) = secret ->
          RestoreKeychainToken (Some backup) ks1 = (ks, None)))
  /\ forall ks0, RestoreKeychainToken None ks0 = (ks0, None).
Proof.
  intros Hswap. split; [|done].
  destruct (swap_success _ _ _ _ _ Hswap) as (secret & src & Ht & _ & Hok & -> & ->).
  exists secret. split; [done|]. split; [done|].
  assert (Hrestore :
    RestoreKeychainToken
      (Some (mkCredential (KeychainServiceName target) (TrimSpace (secret ++ newline))))
      (mkStore (<[KeychainServiceName target := TrimSpace (src ++ newline)]> (items ks))
         (refused ks))
    = (mkStore (<[KeychainServiceName target := TrimSpace (secret ++ newline)]> (items ks))
         (refused ks), None)).
  { unfold RestoreKeychainToken, WriteKeychainToken, securityAdd. cbn.
    destruct (decide _) as [|_]; [done|]. by rewrite insert_insert_eq. }
  split; [exact Hrestore|].
  intros Hexact. rewrite Hrestore, Hexact, (insert_id _ _ _ Ht). by destruct ks.
Qed.

Variable unmarshalExpiresAt : string -> option Z.
Variable base64Decode : string -> option string.
Variable unmarshalExp : string -> option Z.
Variable apiStatus : string -> option Z.

Abbreviation ValidateKeychainToken :=
  (Keychain.ValidateKeychainToken UserHomeDir Sum256 unmarshalExpiresAt
     base64Decode unmarshalExp apiStatus).

(** C9, as amended. For a stored secret that carries a positive expiry,
    either as the [expires_at] field of a JSON credential or, when the secret
    is no such credential, as the [exp] claim in the middle segment of a
    three-segment token, [ValidateKeychainToken] sends no request; it
    returns no error when the expiry is after [now] and the expiry error
    when the expiry is at or before [now]. *)
Theorem local_expiry_decides configDir now ks raw expiry :
  ReadKeychainToken ks (KeychainServiceName configDir) = inl raw ->
  raw <> "" ->
  0 < expiry ->
  (unmarshalExpiresAt raw = Some expiry
   \/ ((unmarshalExpiresAt raw = None
        \/ exists e0, unmarshalExpiresAt raw = Some e0 /\ e0 <= 0)
       /\ exists header payloadText signature payload,
           Split raw "." = [header; payloadText; signature]
           /\ base64Decode payloadText = Some payload
           /\ unmarshalExp payload = Some expiry)) ->
  (now < expiry /\ ValidateKeychainToken configDir now ks = (None, []))
  \/ (expiry <= now
      /\ (ValidateKeychainToken configDir now ks = (Some (ErrExpired expiry), [])
          \/ ValidateKeychainToken configDir now ks
             = (Some (ErrJWTExpired expiry), []))).
Proof.
  intros Hread Hne Hpos Hcarries.
  unfold Keychain.ValidateKeychainToken. rewrite Hread.
  apply String.eqb_neq in Hne. rewrite Hne.
  assert (Hp : (0 <? expiry) = true) by lia.
  assert (Hjwt :
    unmarshalExpiresAt raw <> Some expiry ->
    validateJWT base64Decode unmarshalExp apiStatus raw now
    = if expiry <=? now then (Some (ErrJWTExpired expiry), []) else (None, [])).
  { intros Hnot. destruct Hcarries as [Hjson | [_ Hc]]; [done|].
    destruct Hc as (hd & pt & sg & payload & Hsplit & Hdec & Hexp).
    unfold validateJWT. rewrite Hsplit. cbn. by rewrite Hdec, Hexp, Hp. }
  destruct Hcarries as [Hjson | [Hnot _]].
  - rewrite Hjson, Hp. destruct (Z.leb_spec expiry now); [right | left]; auto.
  - destruct Hnot as [Hnone | (e0 & He0 & Hle)].
    + rewrite Hnone, Hjwt by congruence.
      destruct (Z.leb_spec expiry now); [right | left]; auto.
    + rewrite He0. replace (0 <? e0) with false by lia.
      rewrite Hjwt by (rewrite He0; intros [= ->]; lia).
      destruct (Z.leb_spec expiry now); [right | left]; auto.
Qed.

End Host.

Abbreviation sampleName := (Keychain.KeychainServiceName (Some sampleHome) sampleDigest).

Lemma service_address_witness :
  sampleName "/Users/u/.claude" = keychainServiceBase
  /\ (sampleName targetDir = "Claude Code-credentials-6b726f77"
      /\ sampleName targetDir <> keychainServiceBase)
  /\ sampleName "~/work" = sampleName "/Users/u/work"
  /\ sampleName targetDir <> sampleName sourceDir.
Proof.
  destruct (service_address sampleHome sampleDigest) as (_ & Hdef & Hhash & Hsame & Hdiff).
  split; [|split; [|split]].
  - apply Hdef. reflexivity.
  - apply (Hhash targetDir). vm_compute. discriminate.
  - apply Hsame. reflexivity.
  - apply Hdiff; vm_compute; discriminate.
Defined.

(** The claim of C8 fails: [~/work] and [/Users/u/work] are distinct
    non-default paths with one service name, whatever the digest; and for
    every home directory and digest function two distinct absolute
    non-default paths share a service name. *)
Lemma distinct_paths_share_address :
  ("~/work" <> "/Users/u/work"
   /\ sampleName "~/work" <> keychainServiceBase
   /\ sampleName "/Users/u/work" <> keychainServiceBase
   /\ sampleName "~/work" = sampleName "/Users/u/work")
  /\ (forall home Sum256,
         exists p q,
           p <> q
           /\ Keychain.expandTilde (Some home) p = p
           /\ Keychain.expandTilde (Some home) q = q
           /\ p <> defaultPath home /\ q <> defaultPath home
           /\ Keychain.KeychainServiceName (Some home) Sum256 p
              = Keychain.KeychainServiceName (Some home) Sum256 q).
Proof.
  split.
  - repeat split; vm_compute; discriminate || reflexivity.
  - apply truncated_digest_collision.
Qed.

Lemma swap_then_restore_witness :
  RestoreKeychainToken (Some sampleBackup) swappedKeychain = (tidyKeychain, None)
  /\ RestoreKeychainToken None tidyKeychain = (tidyKeychain, None).
Proof.
  assert (Hswap :
    Keychain.SwapKeychainCredential (Some sampleHome) sampleDigest targetDir sourceDir
      tidyKeychain = (swappedKeychain, inl sampleBackup))
    by (vm_compute; reflexivity).
  destruct (swap_then_restore (Some sampleHome) sampleDigest targetDir sourceDir
              tidyKeychain swappedKeychain sampleBackup Hswap)
    as [(secret & Hsecret & _ & _ & Hexact) Hnil].
  split; [|apply Hnil].
  apply Hexact. vm_compute in Hsecret. injection Hsecret as <-.
  vm_compute. reflexivity.
Defined.

(** The claim of C7 fails: the target's secret ends in a space; after the
    swap and the restore of the returned backup the target's entry holds the
    secret without that space. *)
Lemma restore_writes_trimmed_secret :
  exists ks1 backup ks2,
    Keychain.SwapKeychainCredential (Some sampleHome) sampleDigest targetDir sourceDir
      sampleKeychain = (ks1, inl backup)
    /\ RestoreKeychainToken (Some backup) ks1 = (ks2, None)
    /\ items sampleKeychain !! sampleName targetDir = Some "sk-old "
    /\ items ks2 !! sampleName targetDir = Some "sk-old".
Proof.
  exists (mkStore (<[sampleName targetDir := "sk-new"]> (items sampleKeychain)) ∅),
         sampleBackup,
         (mkStore (<[sampleName targetDir := "sk-old"]> (items sampleKeychain)) ∅).
  repeat split; vm_compute; reflexivity.
Qed.

Abbreviation sampleValidate :=
  (Keychain.ValidateKeychainToken (Some sampleHome) sampleDigest sampleExpiresAt
     sampleBase64 sampleExp sampleApi).

Lemma local_expiry_decides_witness :
  sampleValidate targetDir 1700000000 (keychainWith freshCredential) = (None, [])
  /\ sampleValidate targetDir 2100000000 (keychainWith sampleToken)
     = (Some (ErrJWTExpired 2000000000), []).
Proof.
  split.
  - destruct (local_expiry_decides (Some sampleHome) sampleDigest sampleExpiresAt
                sampleBase64 sampleExp sampleApi targetDir 1700000000
                (keychainWith freshCredential) freshCredential 2000000000)
      as [[_ Hvalid] | [Hle _]].
    + vm_compute. reflexivity.
    + vm_compute. discriminate.
    + lia.
    + left. vm_compute. reflexivity.
    + exact Hvalid.
    + lia.
  - destruct (local_expiry_decides (Some sampleHome) sampleDigest sampleExpiresAt
                sampleBase64 sampleExp sampleApi targetDir 2100000000
                (keychainWith sampleToken) sampleToken 2000000000)
      as [[Hlt _] | [_ [Hjson | Hjwt]]].
    + vm_compute. reflexivity.
    + vm_compute. discriminate.
    + lia.
    + right. split; [left; vm_compute; reflexivity|].
      exists "header", "payload", "signature",
        ("{" ++ quote ++ "exp" ++ quote ++ ":2000000000}").
      repeat split; vm_compute; reflexivity.
    + lia.
    + vm_compute in Hjson. discriminate Hjson.
    + exact Hjwt.
Defined.

(** The claim of C9 fails: the stored credential carries the expiry -1, in
    the past of [now]; the validator does not report it expired but sends a
    request to the remote service and returns no error. *)
Lemma negative_expiry_not_expired :
  sampleExpiresAt staleCredential = Some (-1)
  /\ -1 < 1700000000
  /\ sampleValidate targetDir 1700000000 (keychainWith staleCredential)
     = (None, [Post staleCredential]).
Proof. repeat split; vm_compute; reflexivity. Qed.

End KeychainFacts.

(** ** The rotation policy *)
Module PolicyFacts.
Import GoStrings Config Quota Support.
Local Open Scope list_scope.

(** *** Insertion sort *)
Section Sorting.
Variable accounts : gmap string AccountQuotaState.
Abbreviation R := (usedBefore accounts).

Lemma ltb_true_le a b : String.ltb a b = true -> String.le a b.
Proof.
  unfold String.ltb, String.le, String.leb.
  destruct (String.compare a b); done.
Qed.

Lemma ltb_false_le a b : String.ltb a b = false -> String.le b a.
Proof.
  unfold String.ltb, String.le, String.leb. rewrite (String.compare_antisym a b).
  destruct (String.compare b a); cbn; done.
Qed.

#[local] Instance usedBefore_trans : Transitive R.
Proof. intros a b c. unfold usedBefore. apply transitivity. Qed.

(** The inner loop started with the hole just after the sorted prefix
    [pre]: the key lands after the last handle not used later than it, and
    the handles behind move up by one. *)
Lemma insertKey_spec key (pre : list string) x suf :
  exists lo hi,
    pre = lo ++ hi
    /\ insertKey accounts key (length pre) (pre ++ x :: suf) = lo ++ key :: hi ++ suf
    /\ Forall (R key) hi
    /\ (forall y, last lo = Some y -> R y key).
Proof.
  revert x suf. induction pre as [|y pre IH] using rev_ind; intros x suf.
  - exists [], []. split; [done|]. split; [done|]. split; [constructor|].
    intros y [=].
  - rewrite length_app, Nat.add_comm. cbn [length Nat.add insertKey].
    rewrite <- app_assoc. cbn [app].
    rewrite (list_lookup_middle pre (x :: suf) y (length pre) eq_refl).
    destruct (String.ltb _ _) eqn:Hlt.
    + replace (<[S (length pre) := y]> (pre ++ y :: x :: suf))
        with (pre ++ y :: y :: suf).
      2:{ rewrite insert_app_r_alt by lia.
          replace (S (length pre) - length pre)%nat with 1%nat by lia. done. }
      destruct (IH y (y :: suf)) as (lo & hi & -> & Hins & Hhi & Hlo).
      exists lo, (hi ++ [y]). repeat split.
      * by rewrite app_assoc.
      * rewrite Hins. by rewrite <- app_assoc.
      * apply Forall_app. split; [done|]. constructor; [|done].
        by apply ltb_true_le.
      * done.
    + exists (pre ++ [y]), []. repeat split.
      * by rewrite app_nil_r.
      * rewrite insert_app_r_alt by lia.
        replace (S (length pre) - length pre)%nat with 1%nat by lia.
        by rewrite <- app_assoc.
      * constructor.
      * intros z. rewrite last_snoc. intros [= <-]. by apply ltb_false_le.
Qed.

(** The outer loop keeps the prefix sorted and the slice a permutation. *)
Lemma sortFrom_spec rest : forall pre,
  StronglySorted R pre ->
  sortFrom accounts (length rest) (length pre) (pre ++ rest) ≡ₚ pre ++ rest
  /\ StronglySorted R (sortFrom accounts (length rest) (length pre) (pre ++ rest)).
Proof.
  induction rest as [|key rest IH]; intros pre Hpre.
  - cbn. by rewrite app_nil_r.
  - cbn [length sortFrom].
    rewrite (list_lookup_middle pre rest key (length pre) eq_refl).
    destruct (insertKey_spec key pre key rest) as (lo & hi & Hsplit & -> & Hhi & Hlo).
    assert (Hlen : S (length pre) = length (lo ++ key :: hi)).
    { rewrite Hsplit, !length_app. cbn. lia. }
    rewrite Hlen.
    replace (lo ++ key :: hi ++ rest) with ((lo ++ key :: hi) ++ rest)
      by (by rewrite <- app_assoc).
    destruct (IH (lo ++ key :: hi)) as [Hperm Hsorted].
    + subst pre. apply StronglySorted_app in Hpre as (Hcross & Hslo & Hshi).
      apply StronglySorted_app_2; [|done|].
      * intros a b Ha Hb. apply elem_of_cons in Hb as [-> | Hb]; [|by apply Hcross].
        destruct (last lo) as [z|] eqn:Hz.
        -- apply last_Some in Hz as [l' ->].
           specialize (Hlo z eq_refl).
           apply elem_of_app in Ha as [Ha | Ha%list_elem_of_singleton].
           ++ transitivity z; [|done].
              apply (StronglySorted_app_1_elem_of _ _ _ _ _ Hslo Ha). by left.
           ++ by subst.
        -- apply last_None in Hz. subst. by apply not_elem_of_nil in Ha.
      * apply StronglySorted_cons. by split.
    + split; [|done]. rewrite Hperm, Hsplit, <- !app_assoc. cbn.
      by rewrite Permutation_middle.
Qed.

Lemma sortByLastUsed_spec handles :
  sortByLastUsed handles accounts ≡ₚ handles
  /\ StronglySorted R (sortByLastUsed handles accounts).
Proof.
  unfold sortByLastUsed. destruct handles as [|h rest].
  - split; [done | constructor].
  - replace (length (h :: rest) - 1)%nat with (length rest) by (cbn; lia).
    apply (sortFrom_spec rest [h]). repeat constructor.
Qed.

(** The loop of [AvailableAccounts] keeps the handles that pass the test,
    in the order of the range. *)
Lemma fold_available order : forall acc : list string,
  fold_left
    (fun (available : list string) handle =>
       let acctState := index accounts handle in
       if String.eqb (Status acctState) QuotaStatusAvailable
          || String.eqb (Status acctState) ""
       then available ++ [handle]
       else available)
    order acc
  = acc ++ List.filter (isAvailable accounts) order.
Proof.
  induction order as [|h order IH]; intros acc; cbn [fold_left List.filter].
  - by rewrite app_nil_r.
  - rewrite IH. unfold isAvailable at 2. cbv zeta.
    destruct (_ || _); [by rewrite <- app_assoc | done].
Qed.

Lemma StronglySorted_lookup (l : list string) i j a b :
  StronglySorted R l -> (i < j)%nat -> l !! i = Some a -> l !! j = Some b -> R a b.
Proof.
  intros Hs. revert i j. induction Hs as [|x l Hs IH Hall]; intros i j Hij Ha Hb.
  - done.
  - destruct j as [|j]; [lia|]. destruct i as [|i].
    + cbn in Ha, Hb. injection Ha as <-.
      rewrite Forall_forall in Hall. apply Hall. by eapply list_elem_of_lookup_2.
    + cbn in Ha, Hb. apply (IH i j); [lia|done..].
Qed.

(** C5. Whatever order the range over the map produces the keys in,
    [AvailableAccounts] returns exactly the handles whose status is
    [available] or empty, each once, sorted by [LastUsed] in ascending
    order; a handle never used (empty [LastUsed]) stands before every handle
    that has been used. *)
Theorem AvailableAccounts_sorted order :
  order ≡ₚ (map_to_list accounts).*1 ->
  (forall handle,
      handle ∈ AvailableAccounts order accounts
      <-> exists a, accounts !! handle = Some a
                    /\ (Status a = QuotaStatusAvailable \/ Status a = ""%string))
  /\ NoDup (AvailableAccounts order accounts)
  /\ StronglySorted R (AvailableAccounts order accounts)
  /\ (forall i j h k,
         AvailableAccounts order accounts !! i = Some h ->
         AvailableAccounts order accounts !! j = Some k ->
         LastUsed (index accounts h) = ""%string ->
         LastUsed (index accounts k) <> ""%string ->
         (i < j)%nat).
Proof.
  intros Horder.
  assert (Hres : AvailableAccounts order accounts
                 ≡ₚ List.filter (isAvailable accounts) order
                 /\ StronglySorted R (AvailableAccounts order accounts)).
  { unfold AvailableAccounts. rewrite fold_available. cbn [app].
    apply sortByLastUsed_spec. }
  destruct Hres as [Hperm Hsorted].
  split; [|split; [|split]].
  - intros handle. rewrite Hperm, list_elem_of_In, filter_In, <- list_elem_of_In, Horder.
    rewrite list_elem_of_fmap. unfold isAvailable, index. split.
    + intros [((h & a) & -> & Hin%elem_of_map_to_list) Hav]. cbn in *.
      rewrite Hin in Hav. cbn in Hav. exists a. split; [done|].
      apply orb_true_iff in Hav as [H%String.eqb_eq | H%String.eqb_eq]; auto.
    + intros (a & Hl & Hst). split.
      * exists (handle, a). split; [done|]. by apply elem_of_map_to_list.
      * rewrite Hl. cbn. apply orb_true_iff.
        destruct Hst as [-> | ->]; [left | right]; apply String.eqb_refl.
  - rewrite Hperm. apply NoDup_ListNoDup, List.NoDup_filter, NoDup_ListNoDup.
    rewrite Horder. apply NoDup_fst_map_to_list.
  - done.
  - intros i j h k Hi Hj Hh Hk.
    destruct (Nat.lt_trichotomy i j) as [Hlt | [-> | Hgt]]; [done| |].
    + rewrite Hi in Hj. injection Hj as ->. congruence.
    + pose proof (StronglySorted_lookup _ j i k h Hsorted Hgt Hj Hi) as Hle.
      unfold usedBefore in Hle. rewrite Hh in Hle.
      destruct (LastUsed (index accounts k)); [done|]. by cbn in Hle.
Qed.

End Sorting.

Lemma AvailableAccounts_sorted_witness :
  AvailableAccounts ["c"; "a"; "b"; "d"]%string poolAccounts = ["c"; "d"; "a"]%string
  /\ StronglySorted (usedBefore poolAccounts)
       (AvailableAccounts ["c"; "a"; "b"; "d"]%string poolAccounts)
  /\ NoDup (AvailableAccounts ["c"; "a"; "b"; "d"]%string poolAccounts).
Proof.
  destruct (AvailableAccounts_sorted poolAccounts ["c"; "a"; "b"; "d"]%string)
    as (_ & Hnodup & Hsorted & _).
  - vm_compute. reflexivity.
  - split; [vm_compute; reflexivity|]. by split.
Defined.

(** *** The sweep *)
Section Sweep.
Variable LoadLocation : string -> option GoTime.Location.
Variable now : GoTime.Time.
Abbreviation step := (clearExpiredStep LoadLocation now).
Abbreviation expired' := (expired LoadLocation now).
Abbreviation swept' := (swept LoadLocation now).
Abbreviation expiredAmong' := (expiredAmong LoadLocation now).

Lemma After_strictlyBefore t u : GoTime.After u t = strictlyBefore t u.
Proof.
  unfold GoTime.After, strictlyBefore. by rewrite (Z.eqb_sym (GoTime.unixSec u)).
Qed.

(** One iteration on a tracked handle. *)
Lemma step_tracked (accounts : gmap string AccountQuotaState) cleared handle a :
  accounts !! handle = Some a ->
  step (accounts, cleared) handle
  = if expired' a then (<[handle := swept' a]> accounts, cleared + 1)
    else (accounts, cleared).
Proof.
  intros Hl. unfold clearExpiredStep, swept, expired. rewrite Hl.
  destruct (String.eqb (Status a) QuotaStatusLimited); [|done]. cbn [negb andb].
  destruct (String.eqb (ResetsAt a) ""); [done|]. cbn [negb andb].
  destruct (ParseResetTime _ _ _) as [resetTime|]; [|done].
  rewrite After_strictlyBefore. by destruct (strictlyBefore resetTime now).
Qed.

(** The loop over handles that are pairwise distinct: each handle in the
    order is swept once, every other entry is left alone, and the counter
    grows by the number of expired handles. *)
Lemma fold_step order : forall (accounts : gmap string AccountQuotaState) cleared,
  NoDup order ->
  exists accounts',
    fold_left step order (accounts, cleared)
    = (accounts', cleared + expiredAmong' accounts order)
    /\ forall h, accounts' !! h
                 = if decide (h ∈ order) then swept' <$> accounts !! h
                   else accounts !! h.
Proof.
  induction order as [|handle order IH]; intros accounts cleared Hnd.
  - exists accounts. split; [cbn; f_equal; unfold expiredAmong; cbn; lia|].
    intros h. destruct (decide _) as [Hin|]; [by apply not_elem_of_nil in Hin|done].
  - apply NoDup_cons in Hnd as [Hnotin Hnd]. cbn [fold_left].
    assert (Hstep : exists accounts1 c1,
      step (accounts, cleared) handle = (accounts1, cleared + c1)
      /\ accounts1 !! handle = swept' <$> accounts !! handle
      /\ (forall h, h <> handle -> accounts1 !! h = accounts !! h)
      /\ c1 = match accounts !! handle with
              | Some a => if expired' a then 1 else 0
              | None => 0
              end).
    { destruct (accounts !! handle) as [a|] eqn:Hl.
      - rewrite (step_tracked _ _ _ _ Hl). unfold swept at 2.
        destruct (expired' a) eqn:He.
        + exists (<[handle := swept' a]> accounts), 1. split; [done|].
          split; [by rewrite lookup_insert_eq|]. split; [|done].
          intros h Hne. by rewrite lookup_insert_ne.
        + exists accounts, 0. split; [by rewrite Z.add_0_r|]. rewrite Hl. cbn.
          unfold swept. by rewrite He.
      - exists accounts, 0. unfold clearExpiredStep. rewrite Hl.
        split; [by rewrite Z.add_0_r|]. done. }
    destruct Hstep as (accounts1 & c1 & -> & Hsame & Hother & Hc1).
    destruct (IH accounts1 (cleared + c1) Hnd) as (accounts' & -> & Hlook).
    exists accounts'. split.
    + f_equal. unfold expiredAmong. cbn [List.filter].
      assert (Hext : List.filter
                (fun h => match accounts1 !! h with
                          | Some a => expired' a | None => false end) order
              = List.filter
                (fun h => match accounts !! h with
                          | Some a => expired' a | None => false end) order).
      { apply List.filter_ext_in. intros h Hin%list_elem_of_In.
        rewrite Hother; [done|]. by intros ->. }
      rewrite Hext. subst c1.
      destruct (accounts !! handle) as [a|]; [|lia].
      destruct (expired' a); cbn [length]; lia.
    + intros h. rewrite Hlook. destruct (decide (h = handle)) as [->|Hne].
      * rewrite decide_False by done. rewrite decide_True by (by left). done.
      * rewrite Hother by done.
        destruct (decide (h ∈ order)) as [Hin|Hnin].
        -- rewrite decide_True by (by right). done.
        -- rewrite decide_False; [done|]. by intros [?|?]%elem_of_cons.
Qed.

Lemma filter_perm {A} (f : A -> bool) (l l' : list A) :
  l ≡ₚ l' -> List.filter f l ≡ₚ List.filter f l'.
Proof.
  induction 1 as [|x l l' _ IH|x y l|l l' l'' _ IH1 _ IH2]; cbn.
  - done.
  - destruct (f x); [by constructor | done].
  - destruct (f x), (f y); try done. constructor.
  - by rewrite IH1.
Qed.

Lemma expired_keys (accounts : gmap string AccountQuotaState)
    (l : list (string * AccountQuotaState)) :
  (forall k a, (k, a) ∈ l -> accounts !! k = Some a) ->
  List.filter (fun h => match accounts !! h with
                        | Some a => expired' a | None => false end) (l.*1)
  = (List.filter (fun p => expired' p.2) l).*1.
Proof.
  induction l as [|[k a] l IH]; intros Hl; [done|].
  cbn. rewrite (Hl k a) by (by left). rewrite IH.
  - by destruct (expired' a).
  - intros k' a' Hin. apply Hl. by right.
Qed.

(** The sweep as a whole: the map with every account swept, and the number
    of expired accounts. *)
Lemma clearExpiredAt_fmap order (accounts : gmap string AccountQuotaState) :
  order ≡ₚ (map_to_list accounts).*1 ->
  clearExpiredAt LoadLocation order accounts now
  = (swept' <$> accounts,
     Z.of_nat (length (List.filter (fun p => expired' p.2) (map_to_list accounts)))).
Proof.
  intros Horder. unfold clearExpiredAt.
  assert (Hnd : NoDup order) by (rewrite Horder; apply NoDup_fst_map_to_list).
  destruct (fold_step order accounts 0 Hnd) as (accounts' & -> & Hlook).
  f_equal.
  - apply map_eq. intros h. rewrite Hlook, lookup_fmap.
    destruct (decide (h ∈ order)) as [|Hnin]; [done|].
    destruct (accounts !! h) as [a|] eqn:Hl; [|done].
    exfalso. apply Hnin. rewrite Horder. apply list_elem_of_fmap.
    exists (h, a). split; [done|]. by apply elem_of_map_to_list.
  - unfold expiredAmong. cbn. f_equal.
    rewrite (filter_perm _ _ _ Horder), expired_keys.
    + by rewrite length_fmap.
    + intros k a. apply elem_of_map_to_list.
Qed.

(** C2. Whatever order the range produces the keys in, the sweep turns into
    [available] exactly the accounts that are limited, have a reset time that
    is not empty and that the grammar parses, to an instant strictly before
    [now]; such an account keeps its [LastUsed]; every other account, and so
    every limited account whose reset time is empty or does not parse, is
    left as it was; no handle appears or disappears; the count returned is
    the number of accounts turned; and the sweep returns no error. *)
Theorem clearExpiredAt_exact order (accounts : gmap string AccountQuotaState) :
  order ≡ₚ (map_to_list accounts).*1 ->
  (forall a,
      expired' a = true
      <-> Status a = QuotaStatusLimited /\ ResetsAt a <> ""%string
          /\ exists resetTime,
               ParseResetTime LoadLocation (ResetsAt a) now = Ok resetTime
               /\ strictlyBefore resetTime now = true)
  /\ (forall handle,
         (clearExpiredAt LoadLocation order accounts now).1 !! handle
         = match accounts !! handle with
           | Some a =>
               Some (if expired' a
                     then mkAccount QuotaStatusAvailable "" "" (LastUsed a)
                     else a)
           | None => None
           end)
  /\ (clearExpiredAt LoadLocation order accounts now).2
     = Z.of_nat (length (List.filter (fun p => expired' p.2) (map_to_list accounts))).
Proof.
  intros Horder. rewrite (clearExpiredAt_fmap order accounts Horder). cbn [fst snd].
  split; [|split; [|done]].
  - intros a. unfold expired. rewrite !andb_true_iff, negb_true_iff.
    rewrite String.eqb_eq, String.eqb_neq. split.
    + intros [[Hst Hne] Hp]. split; [done|]. split; [done|].
      destruct (ParseResetTime _ _ _) as [resetTime|]; [|done]. by exists resetTime.
    + intros (Hst & Hne & resetTime & -> & Hb). done.
  - intros handle. rewrite lookup_fmap. by destruct (accounts !! handle).
Qed.

End Sweep.

Lemma clearExpiredAt_exact_witness :
  (clearExpiredAt sampleZones sweepOrder sweepAccounts sampleNow).2 = 1
  /\ (clearExpiredAt sampleZones sweepOrder sweepAccounts sampleNow).1 !! "expired"%string
     = Some (mkAccount QuotaStatusAvailable "" "" "2026-02-18T10:00:00Z")
  /\ (clearExpiredAt sampleZones sweepOrder sweepAccounts sampleNow).1
       !! "still_limited"%string
     = sweepAccounts !! "still_limited"%string.
Proof.
  destruct (clearExpiredAt_exact sampleZones sampleNow sweepOrder sweepAccounts)
    as (_ & Hlook & Hcount).
  - vm_compute. reflexivity.
  - split; [rewrite Hcount; vm_compute; reflexivity|].
    split; rewrite Hlook; vm_compute; reflexivity.
Defined.

End PolicyFacts.

(** ** The reset-time grammar *)
Module GrammarFacts.
Import GoStrings Config Quota Support StringFacts TimeFacts.
Local Open Scope list_scope.

Lemma digit_cases c : isDigit c = true -> In c digitChars.
Proof.
  destruct c as [[] [] [] [] [] [] [] []]; vm_compute; intros H;
    try discriminate H; tauto.
Qed.

Lemma twoDigits_cases d1 d2 :
  isDigit d1 = true -> isDigit d2 = true ->
  In (String d1 (String d2 EmptyString)) twoDigits.
Proof.
  intros H1%digit_cases H2%digit_cases. apply in_flat_map. exists d1. split; [done|].
  exact (in_map (fun d => String d1 (String d EmptyString)) _ _ H2).
Qed.

Lemma hourGroup_cases m : isHourGroup m = true -> In m hourGroups.
Proof.
  unfold hourGroups. destruct m as [|d1 [|d2 [|d3 m]]]; cbn [isHourGroup];
    try discriminate.
  - intros H%digit_cases. apply in_or_app. left.
    exact (in_map (fun d => String d EmptyString) _ _ H).
  - intros [H1 H2]%andb_true_iff. apply in_or_app. right. by apply twoDigits_cases.
Qed.

Lemma minuteGroup_cases m : isMinuteGroup m = true -> In m minuteGroups.
Proof.
  unfold minuteGroups. destruct m as [|d1 [|d2 [|d3 m]]]; cbn [isMinuteGroup];
    try discriminate.
  - intros _. by left.
  - intros [H1 H2]%andb_true_iff. right. by apply twoDigits_cases.
Qed.

Lemma lowerByte_a c : lowerByte c = "a"%char -> c = "a"%char \/ c = "A"%char.
Proof.
  destruct c as [[] [] [] [] [] [] [] []]; vm_compute; intros H;
    try discriminate H; tauto.
Qed.

Lemma lowerByte_p c : lowerByte c = "p"%char -> c = "p"%char \/ c = "P"%char.
Proof.
  destruct c as [[] [] [] [] [] [] [] []]; vm_compute; intros H;
    try discriminate H; tauto.
Qed.

Lemma lowerByte_m c : lowerByte c = "m"%char -> c = "m"%char \/ c = "M"%char.
Proof.
  destruct c as [[] [] [] [] [] [] [] []]; vm_compute; intros H;
    try discriminate H; tauto.
Qed.

Lemma meridiem_cases m : isMeridiem m = true -> In m meridiems.
Proof.
  unfold isMeridiem. intros H.
  assert (Hlow : ToLower m = "am"%string \/ ToLower m = "pm"%string).
  { apply orb_true_iff in H as [H|H]; apply String.eqb_eq in H; auto. }
  clear H. destruct m as [|a [|b [|c m]]]; cbn [ToLower] in Hlow.
  - destruct Hlow as [H|H]; discriminate H.
  - destruct Hlow as [H|H]; discriminate H.
  - destruct Hlow as [H|H]; simplify_eq H; intros Ha Hb.
    + apply lowerByte_a in Ha as [-> | ->]; apply lowerByte_m in Hb as [-> | ->];
        cbn; tauto.
    + apply lowerByte_p in Ha as [-> | ->]; apply lowerByte_m in Hb as [-> | ->];
        cbn; tauto.
  - destruct Hlow as [H|H]; discriminate H.
Qed.

(** *** What a match captures *)

Lemma matchMeridiem_Some s txt ap :
  matchMeridiem s = Some (txt, ap) -> isMeridiem ap = true.
Proof.
  unfold matchMeridiem. destruct s as [|a [|m rest]]; try discriminate.
  destruct (_ && _) eqn:Hc; [|discriminate]. intros [= <- <-].
  apply andb_true_iff in Hc as [[Ha Hm]%andb_true_iff _].
  apply Z.eqb_eq in Hm. apply (code_inj _ "m"%char) in Hm.
  unfold isMeridiem. cbn [ToLower]. rewrite Hm.
  apply orb_true_iff in Ha as [Ha|Ha]; apply Z.eqb_eq in Ha.
  - apply (code_inj _ "a"%char) in Ha. by rewrite Ha.
  - apply (code_inj _ "p"%char) in Ha. by rewrite Ha.
Qed.

Lemma matchSpaces_Some s : forall txt ap,
  matchSpaces s = Some (txt, ap) -> isMeridiem ap = true.
Proof.
  induction s as [|c s IH]; intros txt ap; cbn [matchSpaces].
  - apply matchMeridiem_Some.
  - destruct (isReSpace c); [|apply matchMeridiem_Some].
    destruct (matchSpaces s) as [[txt' ap']|]; cbn [orElse].
    + intros [= <- <-]. by apply (IH txt').
    + apply matchMeridiem_Some.
Qed.

Lemma matchMinute_Some s txt mm ap :
  matchMinute s = Some (txt, mm, ap) ->
  isMinuteGroup mm = true /\ isMeridiem ap = true.
Proof.
  unfold matchMinute.
  assert (Hsecond :
    match matchSpaces s with
    | Some (txt0, ap0) => Some (txt0, ""%string, ap0)
    | None => None
    end = Some (txt, mm, ap) ->
    isMinuteGroup mm = true /\ isMeridiem ap = true).
  { destruct (matchSpaces s) as [[txt0 ap0]|] eqn:Hs; [|discriminate].
    intros [= <- <- <-]. split; [done|]. by apply (matchSpaces_Some s txt0). }
  destruct s as [|c [|d1 [|d2 rest]]]; try exact Hsecond.
  destruct (_ && _) eqn:Hc; [|exact Hsecond].
  destruct (matchSpaces rest) as [[txt0 ap0]|] eqn:Hs; [|exact Hsecond].
  cbn [orElse]. intros [= <- <- <-].
  apply andb_true_iff in Hc as [[_ H1]%andb_true_iff H2].
  split; [cbn; by rewrite H1, H2|]. by apply (matchSpaces_Some rest txt0).
Qed.

(** The pattern either does not match, or yields the matched text and three
    groups: one or two digits, nothing or two digits, and [am] or [pm] in
    either case of each letter. *)
Lemma FindStringSubmatch_groups s :
  FindStringSubmatch s = []
  \/ exists m0 m1 m2 m3,
      FindStringSubmatch s = [m0; m1; m2; m3]
      /\ isHourGroup m1 = true /\ isMinuteGroup m2 = true /\ isMeridiem m3 = true.
Proof.
  unfold FindStringSubmatch.
  set (two := match s with
              | String d1 (String d2 rest) => _
              | _ => None
              end).
  set (one := match s with
              | String d1 rest => _
              | _ => None
              end).
  assert (Htwo : forall m, two = Some m ->
            exists m0 m1 m2 m3, m = [m0; m1; m2; m3]
              /\ isHourGroup m1 = true /\ isMinuteGroup m2 = true
              /\ isMeridiem m3 = true).
  { subst two. intros m. destruct s as [|d1 [|d2 rest]]; try discriminate.
    destruct (_ && _) eqn:Hc; [|discriminate].
    destruct (matchMinute rest) as [[[txt mm] ap]|] eqn:Hm; [|discriminate].
    intros [= <-]. apply matchMinute_Some in Hm as [Hmm Hap].
    eexists _, _, _, _. split; [reflexivity|]. by repeat split. }
  assert (Hone : forall m, one = Some m ->
            exists m0 m1 m2 m3, m = [m0; m1; m2; m3]
              /\ isHourGroup m1 = true /\ isMinuteGroup m2 = true
              /\ isMeridiem m3 = true).
  { subst one. intros m. destruct s as [|d1 rest]; try discriminate.
    destruct (isDigit d1) eqn:Hc; [|discriminate].
    destruct (matchMinute rest) as [[[txt mm] ap]|] eqn:Hm; [|discriminate].
    intros [= <-]. apply matchMinute_Some in Hm as [Hmm Hap].
    eexists _, _, _, _. split; [reflexivity|]. by repeat split. }
  clearbody two one. destruct two as [m|]; cbn [orElse default].
  - right. destruct (Htwo m eq_refl) as (m0 & m1 & m2 & m3 & -> & H). eauto 10.
  - destruct one as [m|]; cbn [default]; [|by left].
    right. destruct (Hone m eq_refl) as (m0 & m1 & m2 & m3 & -> & H). eauto 10.
Qed.

(** [Sscanf] cannot fail on a group the pattern has matched. *)
Lemma Sscanf_d_hourGroup m :
  isHourGroup m = true -> Sscanf_d m = Some (decimal m) /\ 0 <= decimal m <= 99.
Proof.
  intros H%hourGroup_cases.
  assert (Hall : forallb
            (fun m => match Sscanf_d m with
                      | Some v => (v =? decimal m) && (0 <=? v) && (v <=? 99)
                      | None => false
                      end) hourGroups = true) by (vm_compute; reflexivity).
  rewrite forallb_forall in Hall. specialize (Hall m H).
  destruct (Sscanf_d m) as [v|]; [|discriminate]. 
  apply andb_true_iff in Hall as [[H1 H2]%andb_true_iff H3].
  apply Z.eqb_eq in H1. subst v. split; [done|lia].
Qed.

Lemma Sscanf_d_minuteGroup m :
  isMinuteGroup m = true ->
  (m = ""%string \/ Sscanf_d m = Some (decimal m)) /\ 0 <= decimal m <= 99.
Proof.
  intros H%minuteGroup_cases.
  assert (Hall : forallb
            (fun m => (String.eqb m ""
                       || match Sscanf_d m with
                          | Some v => v =? decimal m
                          | None => false
                          end)
                      && (0 <=? decimal m) && (decimal m <=? 99))
            minuteGroups = true) by (vm_compute; reflexivity).
  rewrite forallb_forall in Hall. specialize (Hall m H).
  apply andb_true_iff in Hall as [[H1 H2]%andb_true_iff H3].
  split; [|lia]. apply orb_true_iff in H1 as [H1%String.eqb_eq | H1]; [by left|].
  right. destruct (Sscanf_d m) as [v|]; [|discriminate].
  apply Z.eqb_eq in H1. by subst v.
Qed.

(** Where a scan does fail, the variable silently keeps its initial zero;
    the lemmas above show that the pattern hands no such text to it. *)
Lemma scanInto_keeps_zero :
  Sscanf_d "" = None /\ scanInto 0 "" = 0
  /\ Sscanf_d "x7" = None /\ scanInto 0 "x7" = 0.
Proof. repeat split; reflexivity. Qed.

(** *** [ParseResetTime] *)
Section Grammar.
Variable LoadLocation : string -> option GoTime.Location.
Abbreviation ParseResetTime := (Quota.ParseResetTime LoadLocation).
Abbreviation splitZone := (Quota.splitZone LoadLocation).

Abbreviation resolved := (Support.resolved LoadLocation).

Lemma ParseResetTime_match resetsAt reference m0 m1 m2 m3 :
  FindStringSubmatch (splitZone resetsAt reference).2 = [m0; m1; m2; m3] ->
  isHourGroup m1 = true -> isMinuteGroup m2 = true ->
  ParseResetTime resetsAt reference = Ok (resolved resetsAt reference m1 m2 m3).
Proof.
  intros Hm H1 H2. unfold Quota.ParseResetTime, Support.resolved.
  destruct (splitZone resetsAt reference) as [loc text]. cbn [fst snd] in *.
  rewrite Hm. change (Z.of_nat (length [m0; m1; m2; m3]) <? 4) with false. cbv iota.
  change (default ""%string ([m0; m1; m2; m3] !! 1%nat)) with m1.
  change (default ""%string ([m0; m1; m2; m3] !! 2%nat)) with m2.
  change (default ""%string ([m0; m1; m2; m3] !! 3%nat)) with m3. cbv zeta.
  destruct (Sscanf_d_hourGroup m1 H1) as [Hs1 _].
  destruct (Sscanf_d_minuteGroup m2 H2) as [Hs2 _].
  unfold scanInto. rewrite Hs1. cbn [default].
  destruct Hs2 as [-> | Hs2]; [done|].
  rewrite Hs2. cbn [default]. destruct (String.eqb_spec m2 ""%string) as [->|_]; done.
Qed.

(** C4. [ParseResetTime] returns the parse error exactly when the pattern
    does not match what is left of the text; when the pattern matches,
    scanning the hour group and a present minute group yields the numbers
    their digits denote, so no scan fails and no number is replaced by
    zero, and the result is the time resolved from those numbers. *)
Theorem ParseResetTime_error_iff_no_match resetsAt reference :
  (FindStringSubmatch (splitZone resetsAt reference).2 = []
   /\ ParseResetTime resetsAt reference
      = Err (ErrCannotParse (splitZone resetsAt reference).2))
  \/ (exists m0 m1 m2 m3,
         FindStringSubmatch (splitZone resetsAt reference).2 = [m0; m1; m2; m3]
         /\ Sscanf_d m1 = Some (decimal m1)
         /\ (m2 = ""%string \/ Sscanf_d m2 = Some (decimal m2))
         /\ ParseResetTime resetsAt reference
            = Ok (resolved resetsAt reference m1 m2 m3)).
Proof.
  destruct (FindStringSubmatch_groups (splitZone resetsAt reference).2)
    as [Hnone | (m0 & m1 & m2 & m3 & Hm & H1 & H2 & H3)].
  - left. split; [done|]. unfold Quota.ParseResetTime.
    destruct (splitZone resetsAt reference) as [loc text]. cbn [snd] in Hnone.
    by rewrite Hnone.
  - right. exists m0, m1, m2, m3. split; [done|].
    split; [by apply Sscanf_d_hourGroup|].
    split; [by apply Sscanf_d_minuteGroup|].
    by apply (ParseResetTime_match _ _ m0).
Qed.


Lemma match_groups s m0 m1 m2 m3 :
  FindStringSubmatch s = [m0; m1; m2; m3] ->
  isHourGroup m1 = true /\ isMinuteGroup m2 = true /\ isMeridiem m3 = true.
Proof.
  intros Hm. destruct (FindStringSubmatch_groups s)
    as [Hnone | (n0 & n1 & n2 & n3 & Hn & H)]; [congruence|].
  rewrite Hm in Hn. by injection Hn as -> -> -> ->.
Qed.

Lemma meridiem_lower m3 :
  isMeridiem m3 = true -> ToLower m3 = "am"%string \/ ToLower m3 = "pm"%string.
Proof.
  unfold isMeridiem. intros H.
  apply orb_true_iff in H as [H|H]; apply String.eqb_eq in H; auto.
Qed.

Lemma hourOfDay_range h mer :
  0 <= h <= 99 -> 0 <= hourOfDay h mer <= 111.
Proof.
  intros Hh. unfold hourOfDay.
  destruct (_ && _); [lia|]. destruct (_ && _); lia.
Qed.

(** The hour of the day: 12am is hour 0, 12pm is hour 12, every other pm
    hour is twelve more than written, every other am hour is as written. *)
Lemma hourOfDay_cases :
  hourOfDay 12 "am" = 0 /\ hourOfDay 12 "pm" = 12
  /\ (forall h, h <> 12 -> hourOfDay h "pm" = h + 12)
  /\ (forall h, h <> 12 -> hourOfDay h "am" = h).
Proof.
  split; [done|]. split; [done|]. split; intros h Hh; unfold hourOfDay; cbn;
    by replace (h =? 12) with false by lia.
Qed.

(** The time a matching text is resolved to: it is presented in the
    resolution zone, its instant is the wanted wall-clock count less the
    offset [time.Date] settles on, and so its wall clock is the wanted
    count plus the drift. *)
Lemma resolved_instant resetsAt reference m1 m2 m3 :
  let l := (splitZone resetsAt reference).1 in
  let hod := hourOfDay (decimal m1) (ToLower m3) in
  let w := wanted l reference hod (decimal m2) in
  0 <= hod -> 0 <= decimal m2 ->
  GoTime.loc (resolved resetsAt reference m1 m2 m3) = l
  /\ GoTime.unixSec (resolved resetsAt reference m1 m2 m3) = w - settledOffset l w
  /\ GoTime.wallSec (resolved resetsAt reference m1 m2 m3) = w + drift l w.
Proof.
  intros l hod w Hh Hm. unfold Support.resolved. fold l hod.
  unfold GoTime.Year, GoTime.Month, GoTime.Day, GoTime.DateOf.
  rewrite (Date_settled (GoTime.dayNumber (GoTime.In reference l)) hod (decimal m2) l
             Hh Hm).
  fold (wanted l reference hod (decimal m2)). fold w.
  split; [done|]. split; [done|].
  unfold GoTime.wallSec, drift. cbn [GoTime.unixSec GoTime.loc]. lia.
Qed.

Lemma civilFromDays_inj z z' :
  GoTime.civilFromDays z = GoTime.civilFromDays z' -> z = z'.
Proof.
  intros H. destruct (civil_roundtrip z) as [<- _].
  destruct (civil_roundtrip z') as [<- _]. by rewrite H.
Qed.

(** C3, as amended. For a text the pattern matches, the hour of the day is
    0 for 12am, 12 for 12pm, twelve more than written for every other pm
    hour and as written for every other am hour.  The time returned is
    presented in the resolution zone; its wall clock there is midnight of
    the reference instant's date in that zone plus the hour of the day and
    the minute, plus the drift: the amount by which the zone's offset at
    the instant returned exceeds the offset [time.Date] settled on, which
    is zero in a zone without offset changes.  The time returned lies on
    the reference instant's date exactly when hour, minute and drift
    together stay within the day; so when the drift is zero, the hour at
    most 23 and the minute at most 59, it lies on the reference instant's
    date at that hour and minute, whether or not this is before the
    reference instant. *)
Theorem ParseResetTime_same_day resetsAt reference m0 m1 m2 m3 :
  FindStringSubmatch (splitZone resetsAt reference).2 = [m0; m1; m2; m3] ->
  let l := (splitZone resetsAt reference).1 in
  let hod := hourOfDay (decimal m1) (ToLower m3) in
  let w := wanted l reference hod (decimal m2) in
  (ToLower m3 = "am"%string \/ ToLower m3 = "pm"%string)
  /\ (hourOfDay 12 "am" = 0 /\ hourOfDay 12 "pm" = 12
      /\ (forall h, h <> 12 -> hourOfDay h "pm" = h + 12)
      /\ (forall h, h <> 12 -> hourOfDay h "am" = h))
  /\ exists t,
      ParseResetTime resetsAt reference = Ok t
      /\ GoTime.loc t = l
      /\ GoTime.unixSec t = w - settledOffset l w
      /\ GoTime.wallSec t = w + drift l w
      /\ (GoTime.zoneTrans l = [] -> drift l w = 0)
      /\ (GoTime.DateOf t = GoTime.DateOf (GoTime.In reference l)
          <-> 0 <= hod * 3600 + decimal m2 * 60 + drift l w < 86400)
      /\ (drift l w = 0 -> hod <= 23 -> decimal m2 <= 59 ->
          GoTime.DateOf t = GoTime.DateOf (GoTime.In reference l)
          /\ GoTime.Hour t = hod
          /\ GoTime.Minute t = decimal m2).
Proof.
  intros Hm l hod w.
  destruct (match_groups _ _ _ _ _ Hm) as (H1 & H2 & H3).
  split; [by apply meridiem_lower|]. split; [apply hourOfDay_cases|].
  exists (resolved resetsAt reference m1 m2 m3).
  split; [by apply (ParseResetTime_match _ _ m0)|].
  destruct (Sscanf_d_hourGroup m1 H1) as [_ Hr1].
  destruct (Sscanf_d_minuteGroup m2 H2) as [_ Hr2].
  pose proof (hourOfDay_range (decimal m1) (ToLower m3) Hr1) as Hr. fold hod in Hr.
  destruct (resolved_instant resetsAt reference m1 m2 m3) as (Hloc & Hunix & Hwall);
    [fold hod; lia | lia |].
  fold l hod w in Hloc, Hunix, Hwall.
  split; [done|]. split; [done|]. split; [done|].
  split; [apply drift_fixed_zone|].
  assert (Hdate : GoTime.DateOf (resolved resetsAt reference m1 m2 m3)
                  = GoTime.DateOf (GoTime.In reference l)
                  <-> 0 <= hod * 3600 + decimal m2 * 60 + drift l w < 86400).
  { unfold GoTime.DateOf, GoTime.dayNumber at 1. rewrite Hwall. unfold w, wanted.
    set (day := GoTime.dayNumber _). set (mi := decimal m2). set (dr := drift _ _).
    split.
    - intros Heq%civilFromDays_inj. Z.div_mod_to_equations. lia.
    - intros Hin. f_equal. Z.div_mod_to_equations. lia. }
  split; [exact Hdate|]. intros Hdrift Hhod Hmin.
  split; [apply Hdate; lia|].
  unfold GoTime.Hour, GoTime.Minute. rewrite Hwall, Hdrift. unfold w, wanted.
  set (day := GoTime.dayNumber _). set (mi := decimal m2) in *.
  split; Z.div_mod_to_equations; lia.
Qed.

(** C10, as amended. No range check is applied to the hour. (a) Every text
    made of a one- or two-digit hour, an optional minute part and a meridiem
    parses, in the reference's own zone, to the time resolved from the
    numbers written.  (b) For a matching text whose meridiem is pm and whose
    hour is above 12, the hour of the day is twelve more than written and
    above 23; the wall clock of the time returned is midnight of the
    reference instant's date in the resolution zone plus that hour and the
    minute, plus the drift; the time returned falls on a day after the
    reference instant's day in that zone exactly when hour, minute and
    drift together come to a day or more, and so whenever the drift is no
    less than minus one hour, as when it is zero. *)
Theorem ParseResetTime_no_hour_validation :
  (forall reference h mm mer,
      isHourGroup h = true -> isMinuteGroup mm = true -> isMeridiem mer = true ->
      (splitZone (plainText h mm mer) reference).1 = GoTime.LocationOf reference
      /\ ParseResetTime (plainText h mm mer) reference
         = Ok (resolved (plainText h mm mer) reference h mm mer))
  /\ (forall resetsAt reference m0 m1 m2 m3,
         FindStringSubmatch (splitZone resetsAt reference).2 = [m0; m1; m2; m3] ->
         ToLower m3 = "pm"%string ->
         12 < decimal m1 ->
         let l := (splitZone resetsAt reference).1 in
         let hod := hourOfDay (decimal m1) (ToLower m3) in
         let w := wanted l reference hod (decimal m2) in
         exists t,
           ParseResetTime resetsAt reference = Ok t
           /\ hod = decimal m1 + 12
           /\ 23 < hod
           /\ GoTime.wallSec t = w + drift l w
           /\ (GoTime.dayNumber (GoTime.In reference l) < GoTime.dayNumber t
               <-> 86400 <= hod * 3600 + decimal m2 * 60 + drift l w)
           /\ (-3600 <= drift l w ->
               GoTime.dayNumber (GoTime.In reference l) < GoTime.dayNumber t
               /\ GoTime.DateOf t <> GoTime.DateOf (GoTime.In reference l))).
Proof.
  split.
  - intros reference h mm mer Hh%hourGroup_cases Hmm%minuteGroup_cases
      Hmer%meridiem_cases.
    assert (Hall : forallb (fun h =>
                      forallb (fun mm => forallb (parsesPlainly h mm) meridiems)
                        minuteGroups) hourGroups = true)
      by (vm_compute; reflexivity).
    rewrite forallb_forall in Hall. specialize (Hall h Hh).
    rewrite forallb_forall in Hall. specialize (Hall mm Hmm).
    rewrite forallb_forall in Hall. specialize (Hall mer Hmer).
    unfold parsesPlainly in Hall.
    apply andb_true_iff in Hall as [[Htrim Hidx]%andb_true_iff Hfind].
    apply String.eqb_eq in Htrim. apply Z.eqb_eq in Hidx.
    apply bool_decide_eq_true in Hfind.
    assert (Hsplit : splitZone (plainText h mm mer) reference
                     = (GoTime.LocationOf reference, plainText h mm mer)).
    { unfold Quota.splitZone. by rewrite Htrim, Hidx. }
    split; [by rewrite Hsplit|].
    apply (ParseResetTime_match _ _ (plainText h mm mer)).
    + by rewrite Hsplit.
    + by apply (match_groups _ _ _ _ _ Hfind).
    + by apply (match_groups _ _ _ _ _ Hfind).
  - intros resetsAt reference m0 m1 m2 m3 Hm Hpm Hhour l hod w.
    destruct (match_groups _ _ _ _ _ Hm) as (H1 & H2 & H3).
    exists (resolved resetsAt reference m1 m2 m3).
    split; [by apply (ParseResetTime_match _ _ m0)|].
    destruct (Sscanf_d_hourGroup m1 H1) as [_ Hr1].
    destruct (Sscanf_d_minuteGroup m2 H2) as [_ Hr2].
    assert (Hhod : hod = decimal m1 + 12).
    { unfold hod. rewrite Hpm. apply hourOfDay_cases. lia. }
    split; [done|]. split; [lia|].
    destruct (resolved_instant resetsAt reference m1 m2 m3) as (_ & _ & Hwall);
      [fold hod; lia | lia |].
    fold l hod w in Hwall. split; [done|].
    assert (Hday : GoTime.dayNumber (GoTime.In reference l)
                   < GoTime.dayNumber (resolved resetsAt reference m1 m2 m3)
                   <-> 86400 <= hod * 3600 + decimal m2 * 60 + drift l w).
    { unfold GoTime.dayNumber at 2. rewrite Hwall. unfold w, wanted.
      set (day := GoTime.dayNumber _). set (mi := decimal m2). set (dr := drift _ _).
      split; intros H; Z.div_mod_to_equations; lia. }
    split; [exact Hday|]. intros Hdrift.
    assert (Hlater : GoTime.dayNumber (GoTime.In reference l)
                     < GoTime.dayNumber (resolved resetsAt reference m1 m2 m3))
      by (apply Hday; lia).
    split; [done|]. unfold GoTime.DateOf. intros Heq%civilFromDays_inj. lia.
Qed.

End Grammar.

Lemma ParseResetTime_same_day_witness :
  (exists t,
      Quota.ParseResetTime sampleZones "11am (America/Los_Angeles)" sampleNow = Ok t
      /\ GoTime.DateOf t = (2026, 2, 18) /\ GoTime.Hour t = 11 /\ GoTime.Minute t = 0)
  /\ (exists t,
         Quota.ParseResetTime sampleZones "7pm (America/Los_Angeles)" springNoon = Ok t
         /\ GoTime.DateOf t = (2026, 3, 8) /\ GoTime.Hour t = 19
         /\ GoTime.Minute t = 0).
Proof.
  split.
  - destruct (ParseResetTime_same_day sampleZones "11am (America/Los_Angeles)"
                sampleNow "11am" "11" "" "am")
      as (_ & _ & t & Hp & _ & _ & _ & _ & _ & Hsame); [vm_compute; reflexivity|].
    destruct Hsame as (Hd & Hh & Hm);
      [vm_compute; reflexivity | vm_compute; discriminate..|].
    exists t. split; [exact Hp|].
    split; [rewrite Hd; vm_compute; reflexivity|].
    split; [rewrite Hh | rewrite Hm]; vm_compute; reflexivity.
  - destruct (ParseResetTime_same_day sampleZones "7pm (America/Los_Angeles)"
                springNoon "7pm" "7" "" "pm")
      as (_ & _ & t & Hp & _ & _ & _ & _ & _ & Hsame); [vm_compute; reflexivity|].
    destruct Hsame as (Hd & Hh & Hm);
      [vm_compute; reflexivity | vm_compute; discriminate..|].
    exists t. split; [exact Hp|].
    split; [rewrite Hd; vm_compute; reflexivity|].
    split; [rewrite Hh | rewrite Hm]; vm_compute; reflexivity.
Defined.

(** The claim of C3 fails, in two ways.  [13pm] matches the pattern, and
    at the sample instant, 2026-02-18 15:00 in Los Angeles, it is resolved
    to 2026-02-19 01:00 there, a day after the reference instant's date.
    And [12am] at 2017-10-15 10:00 in Sao Paulo, a day that began at 01:00
    there, is resolved to 2017-10-14 23:00, a day before. *)
Lemma not_always_the_reference_date :
  (FindStringSubmatch
     (Quota.splitZone sampleZones "13pm (America/Los_Angeles)" sampleNow).2
   = ["13pm"; "13"; ""; "pm"]%string
   /\ Quota.ParseResetTime sampleZones "13pm (America/Los_Angeles)" sampleNow
      = Ok (GoTime.mkTime 1771491600 0 losAngeles)
   /\ GoTime.DateOf (GoTime.In sampleNow losAngeles) = (2026, 2, 18)
   /\ GoTime.DateOf (GoTime.mkTime 1771491600 0 losAngeles) = (2026, 2, 19))
  /\ (FindStringSubmatch
        (Quota.splitZone sampleZones "12am (America/Sao_Paulo)" saoPauloMorning).2
      = ["12am"; "12"; ""; "am"]%string
      /\ Quota.ParseResetTime sampleZones "12am (America/Sao_Paulo)" saoPauloMorning
         = Ok (GoTime.mkTime 1508032800 0 saoPaulo)
      /\ GoTime.DateOf (GoTime.In saoPauloMorning saoPaulo) = (2017, 10, 15)
      /\ GoTime.DateOf (GoTime.mkTime 1508032800 0 saoPaulo) = (2017, 10, 14)).
Proof. repeat split; vm_compute; reflexivity. Qed.

(** The claim of C10 fails where the resolution zone leaves out a day:
    [13pm] at 2011-12-29 12:00 in Apia gives the hour 25, and the time
    returned is 2011-12-29 01:00 in Apia, on the reference instant's own
    day. *)
Lemma hour_25_on_the_reference_day :
  FindStringSubmatch (Quota.splitZone sampleZones "13pm (Pacific/Apia)" apiaNoon).2
  = ["13pm"; "13"; ""; "pm"]%string
  /\ hourOfDay (decimal "13") (ToLower "pm") = 25
  /\ Quota.ParseResetTime sampleZones "13pm (Pacific/Apia)" apiaNoon
     = Ok (GoTime.mkTime 1325156400 0 apia)
  /\ GoTime.DateOf (GoTime.In apiaNoon apia) = (2011, 12, 29)
  /\ GoTime.DateOf (GoTime.mkTime 1325156400 0 apia) = (2011, 12, 29)
  /\ GoTime.Hour (GoTime.mkTime 1325156400 0 apia) = 1.
Proof. repeat split; vm_compute; reflexivity. Qed.

Lemma ParseResetTime_no_hour_validation_witness :
  Quota.ParseResetTime sampleZones "0am" sampleNow
  = Ok (Support.resolved sampleZones "0am" sampleNow "0" "" "am")
  /\ (exists t,
         Quota.ParseResetTime sampleZones "13pm (America/Los_Angeles)" sampleNow = Ok t
         /\ GoTime.dayNumber (GoTime.In sampleNow losAngeles) < GoTime.dayNumber t)
  /\ (exists t,
         Quota.ParseResetTime sampleZones "13pm (America/Los_Angeles)" springEve = Ok t
         /\ GoTime.DateOf (GoTime.In springEve losAngeles) = (2026, 3, 7)
         /\ GoTime.dayNumber (GoTime.In springEve losAngeles) < GoTime.dayNumber t).
Proof.
  destruct (ParseResetTime_no_hour_validation sampleZones) as [Hplain Hlate].
  split; [|split].
  - apply (Hplain sampleNow "0" "" "am"); reflexivity.
  - destruct (Hlate "13pm (America/Los_Angeles)" sampleNow "13pm" "13" "" "pm")
      as (t & Hp & _ & _ & _ & _ & Hday);
      [vm_compute; reflexivity | reflexivity | vm_compute; reflexivity|].
    exists t. split; [exact Hp|]. apply Hday. vm_compute. discriminate.
  - destruct (Hlate "13pm (America/Los_Angeles)" springEve "13pm" "13" "" "pm")
      as (t & Hp & _ & _ & _ & _ & Hday);
      [vm_compute; reflexivity | reflexivity | vm_compute; reflexivity|].
    exists t. split; [exact Hp|]. split; [vm_compute; reflexivity|].
    apply Hday. vm_compute. discriminate.
Defined.

End GrammarFacts.

(** ** White space trimmed at the ends of a string *)
Module TrimFacts.
Import GoStrings Keychain Support MoreSupport StringFacts.

Lemma trimLeft_eq c rest :
  trimLeft (String c rest)
  = if asciiSpace c then trimLeft rest
    else match rest with
         | String d rest1 =>
             if space2 c d then trimLeft rest1
             else match rest1 with
                  | String e rest2 =>
                      if space3 c d e then trimLeft rest2 else String c rest
                  | EmptyString => String c rest
                  end
         | EmptyString => String c rest
         end.
Proof. reflexivity. Qed.

Lemma trimLeftRev_eq c rest :
  trimLeftRev (String c rest)
  = if asciiSpace c then trimLeftRev rest
    else match rest with
         | String d rest1 =>
             if space2 d c then trimLeftRev rest1
             else match rest1 with
                  | String e rest2 =>
                      if space3 e d c then trimLeftRev rest2 else String c rest
                  | EmptyString => String c rest
                  end
         | EmptyString => String c rest
         end.
Proof. reflexivity. Qed.

(** What is left by [trimLeft] begins with no white-space rune, and is what
    follows some bytes of the string. *)
Lemma trimLeft_bounded n : forall s,
  (String.length s <= n)%nat ->
  headSpace (trimLeft s) = false /\ exists p, s = p ++ trimLeft s.
Proof.
  induction n as [n IH] using lt_wf_ind. intros s Hn.
  destruct s as [|c rest]; [split; [done | by exists ""]|].
  rewrite trimLeft_eq. cbn [String.length] in Hn.
  destruct (asciiSpace c) eqn:Hc.
  { destruct (IH (String.length rest) ltac:(lia) rest ltac:(lia)) as [Hh [p Hp]].
    split; [done|]. exists (String c p).
    change (String c rest = String c (p ++ trimLeft rest)). by rewrite <- Hp. }
  destruct rest as [|d rest1]; [split; [by cbn; rewrite Hc | by exists ""]|].
  cbn [String.length] in Hn. destruct (space2 c d) eqn:H2.
  { destruct (IH (String.length rest1) ltac:(lia) rest1 ltac:(lia)) as [Hh [p Hp]].
    split; [done|]. exists (String c (String d p)).
    change (String c (String d rest1) = String c (String d (p ++ trimLeft rest1))).
    by rewrite <- Hp. }
  destruct rest1 as [|e rest2]; [split; [by cbn; rewrite Hc, H2 | by exists ""]|].
  cbn [String.length] in Hn. destruct (space3 c d e) eqn:H3.
  { destruct (IH (String.length rest2) ltac:(lia) rest2 ltac:(lia)) as [Hh [p Hp]].
    split; [done|]. exists (String c (String d (String e p))).
    change (String c (String d (String e rest2))
            = String c (String d (String e (p ++ trimLeft rest2)))).
    by rewrite <- Hp. }
  split; [by cbn; rewrite Hc, H2, H3 | by exists ""].
Qed.

Lemma trimLeftRev_bounded n : forall s,
  (String.length s <= n)%nat ->
  headSpaceRev (trimLeftRev s) = false /\ exists p, s = p ++ trimLeftRev s.
Proof.
  induction n as [n IH] using lt_wf_ind. intros s Hn.
  destruct s as [|c rest]; [split; [done | by exists ""]|].
  rewrite trimLeftRev_eq. cbn [String.length] in Hn.
  destruct (asciiSpace c) eqn:Hc.
  { destruct (IH (String.length rest) ltac:(lia) rest ltac:(lia)) as [Hh [p Hp]].
    split; [done|]. exists (String c p).
    change (String c rest = String c (p ++ trimLeftRev rest)). by rewrite <- Hp. }
  destruct rest as [|d rest1]; [split; [by cbn; rewrite Hc | by exists ""]|].
  cbn [String.length] in Hn. destruct (space2 d c) eqn:H2.
  { destruct (IH (String.length rest1) ltac:(lia) rest1 ltac:(lia)) as [Hh [p Hp]].
    split; [done|]. exists (String c (String d p)).
    change (String c (String d rest1) = String c (String d (p ++ trimLeftRev rest1))).
    by rewrite <- Hp. }
  destruct rest1 as [|e rest2]; [split; [by cbn; rewrite Hc, H2 | by exists ""]|].
  cbn [String.length] in Hn. destruct (space3 e d c) eqn:H3.
  { destruct (IH (String.length rest2) ltac:(lia) rest2 ltac:(lia)) as [Hh [p Hp]].
    split; [done|]. exists (String c (String d (String e p))).
    change (String c (String d (String e rest2))
            = String c (String d (String e (p ++ trimLeftRev rest2)))).
    by rewrite <- Hp. }
  split; [by cbn; rewrite Hc, H2, H3 | by exists ""].
Qed.

(** A string that begins with no white-space rune is left as it is. *)
Lemma trimLeft_fixed s : headSpace s = false -> trimLeft s = s.
Proof.
  destruct s as [|c rest]; [done|]. rewrite trimLeft_eq. cbn [headSpace].
  intros [-> H]%orb_false_elim. destruct rest as [|d rest1]; [done|].
  apply orb_false_elim in H as [-> H]. destruct rest1 as [|e rest2]; [done|].
  by rewrite H.
Qed.

Lemma trimLeftRev_fixed s : headSpaceRev s = false -> trimLeftRev s = s.
Proof.
  destruct s as [|c rest]; [done|]. rewrite trimLeftRev_eq. cbn [headSpaceRev].
  intros [-> H]%orb_false_elim. destruct rest as [|d rest1]; [done|].
  apply orb_false_elim in H as [-> H]. destruct rest1 as [|e rest2]; [done|].
  by rewrite H.
Qed.

(** *** Reversal *)

Lemma append_nil_r s : s ++ "" = s.
Proof.
  induction s as [|c s IH]; [done|].
  change (String c (s ++ "") = String c s). by rewrite IH.
Qed.

Lemma append_assoc (a b c : string) : (a ++ b) ++ c = a ++ (b ++ c).
Proof.
  induction a as [|x a IH]; [done|].
  change (String x ((a ++ b) ++ c) = String x (a ++ (b ++ c))). by rewrite IH.
Qed.

Lemma revOnto_append s : forall acc, revOnto s acc = rev s ++ acc.
Proof.
  unfold rev. induction s as [|c s IH]; intros acc; [done|].
  cbn [revOnto]. rewrite IH, (IH (String c "")). by rewrite append_assoc.
Qed.

Lemma rev_cons c s : rev (String c s) = rev s ++ String c "".
Proof. unfold rev at 1. cbn [revOnto]. apply revOnto_append. Qed.

Lemma rev_append a b : rev (a ++ b) = rev b ++ rev a.
Proof.
  induction a as [|c a IH].
  - change ("" ++ b) with b. change (rev "") with "". by rewrite append_nil_r.
  - change (String c a ++ b) with (String c (a ++ b)).
    by rewrite !rev_cons, IH, append_assoc.
Qed.

Lemma rev_involutive s : rev (rev s) = s.
Proof.
  induction s as [|c s IH]; [done|]. rewrite rev_cons, rev_append, IH.
  reflexivity.
Qed.

(** *** [TrimSpace] *)

Lemma trimRight_fixed s : trimRight (trimRight s) = trimRight s.
Proof.
  unfold trimRight. rewrite rev_involutive. f_equal. apply trimLeftRev_fixed.
  by apply (trimLeftRev_bounded (String.length (rev s))).
Qed.

(** What is left by [trimRight] is a beginning of the string. *)
Lemma trimRight_prefix s : exists r, s = trimRight s ++ r.
Proof.
  destruct (trimLeftRev_bounded _ (rev s) (le_n _)) as [_ [p Hp]].
  exists (rev p). unfold trimRight. rewrite <- rev_append, <- Hp.
  by rewrite rev_involutive.
Qed.

(** A beginning of a string that begins with no white-space rune begins
    with none. *)
Lemma headSpace_prefix y r : headSpace (y ++ r) = false -> headSpace y = false.
Proof.
  destruct y as [|c [|d [|e y]]]; cbv [String.append]; cbn [headSpace]; try done.
  - intros [-> _]%orb_false_elim. done.
  - intros [-> [-> _]%orb_false_elim]%orb_false_elim. done.
Qed.

Lemma space2_newline c : space2 c (byte 10) = false.
Proof. unfold space2. by rewrite andb_false_r. Qed.

Lemma space3_newline c d : space3 c d (byte 10) = false.
Proof.
  unfold space3. change (code (byte 10)) with 10. cbn.
  by rewrite !andb_false_r.
Qed.

Lemma headSpace_newline y r :
  y <> "" -> headSpace (y ++ r) = false -> headSpace (y ++ newline) = false.
Proof.
  intros Hne. unfold newline.
  destruct y as [|c [|d [|e y]]]; [done|..]; cbv [String.append]; cbn [headSpace].
  - intros [-> _]%orb_false_elim. by rewrite space2_newline.
  - intros [-> [-> _]%orb_false_elim]%orb_false_elim. by rewrite space3_newline.
  - done.
Qed.

Lemma trimRight_newline y : trimRight (y ++ newline) = trimRight y.
Proof.
  unfold trimRight, newline. rewrite rev_append.
  change (rev (String (byte 10) "") ++ rev y) with (String (byte 10) (rev y)).
  by rewrite trimLeftRev_eq.
Qed.

(** [TrimSpace] leaves a trimmed string as it is, also when a newline has
    been put behind it. *)
Lemma TrimSpace_fixed s :
  TrimSpace (TrimSpace s) = TrimSpace s
  /\ TrimSpace (TrimSpace s ++ newline) = TrimSpace s.
Proof.
  unfold TrimSpace.
  destruct (trimLeft_bounded _ s (le_n _)) as [Hhead _].
  destruct (trimRight_prefix (trimLeft s)) as [r Hr].
  rewrite Hr in Hhead. split.
  - rewrite (trimLeft_fixed _ (headSpace_prefix _ _ Hhead)). apply trimRight_fixed.
  - destruct (String.eqb_spec (trimRight (trimLeft s)) "") as [->|Hne]; [done|].
    rewrite (trimLeft_fixed _ (headSpace_newline _ _ Hne Hhead)).
    by rewrite trimRight_newline, trimRight_fixed.
Qed.

End TrimFacts.

(** ** Further properties of the quota state store *)
Module StoreExtras.
Import GoStrings Config Quota Support MoreSupport StoreFacts.

Section Store.
Variable CurrentQuotaVersion : Z.
Variable jsonUnmarshal : string -> option QuotaState.
Variable jsonMarshal : QuotaState -> string.

Abbreviation Load := (Quota.Load CurrentQuotaVersion jsonUnmarshal).
Abbreviation Save := (Quota.Save CurrentQuotaVersion jsonMarshal).
Abbreviation SaveUnlocked := (Quota.SaveUnlocked CurrentQuotaVersion jsonMarshal).
Abbreviation MarkLimited :=
  (Quota.MarkLimited CurrentQuotaVersion jsonUnmarshal jsonMarshal).
Abbreviation MarkAvailable :=
  (Quota.MarkAvailable CurrentQuotaVersion jsonUnmarshal jsonMarshal).
Abbreviation written := (MoreSupport.written jsonMarshal).

(** Loading what has been written, when the decoder reads the text back. *)
Lemma Load_written fs state :
  jsonUnmarshal (jsonMarshal state) = Some state ->
  Load (written fs state)
  = Ok (mkState (Version state) (Some (accountsOf state))).
Proof.
  intros Hrt. unfold Quota.Load, MoreSupport.written. cbn. rewrite Hrt.
  unfold accountsOf. destruct state as [v [accounts|]]; reflexivity.
Qed.

Lemma withAccount_accounts state handle a :
  accountsOf (withAccount state handle a) = <[handle := a]> (accountsOf state).
Proof. reflexivity. Qed.

Lemma MarkLimited_success handle resetsAt now fs st :
  Load fs = Ok st -> lockable fs = true -> writable fs = true ->
  MarkLimited handle resetsAt now fs
  = Returned (written fs (withAccount st handle (limitedEntry st handle resetsAt now)))
      None.
Proof.
  intros HL Hlock Hw.
  destruct (Load_Ok_accounts _ _ _ _ HL) as [accounts Hacc].
  unfold Quota.MarkLimited, lock, assign, EnsureDirAndWriteJSON.
  rewrite Hlock, HL, Hacc, Hw.
  unfold MoreSupport.written, withAccount, limitedEntry, accountsOf.
  by rewrite Hacc, Hlock, Hw.
Qed.

Lemma MarkAvailable_success handle fs st :
  Load fs = Ok st -> lockable fs = true -> writable fs = true ->
  MarkAvailable handle fs
  = Returned (written fs (withAccount st handle (availableEntry st handle))) None.
Proof.
  intros HL Hlock Hw.
  destruct (Load_Ok_accounts _ _ _ _ HL) as [accounts Hacc].
  unfold Quota.MarkAvailable, lock, assign, EnsureDirAndWriteJSON.
  rewrite Hlock, HL, Hacc, Hw.
  unfold MoreSupport.written, withAccount, availableEntry, accountsOf.
  by rewrite Hacc, Hlock, Hw.
Qed.

Lemma withAccount_roundtrip_Load fs state handle a :
  jsonUnmarshal (jsonMarshal (withAccount state handle a))
  = Some (withAccount state handle a) ->
  Load (written fs (withAccount state handle a)) = Ok (withAccount state handle a).
Proof. intros Hrt. by rewrite (Load_written _ _ Hrt). Qed.

Lemma withAccount_twice state handle a b :
  withAccount (withAccount state handle a) handle b = withAccount state handle b.
Proof.
  unfold withAccount, accountsOf. cbn [Version Accounts default from_option id].
  by rewrite insert_insert_eq.
Qed.

Lemma withAccount_commute state h1 h2 a b :
  h1 <> h2 ->
  withAccount (withAccount state h1 a) h2 b = withAccount (withAccount state h2 b) h1 a.
Proof.
  intros Hne. unfold withAccount, accountsOf. cbn [Version Accounts default from_option id].
  by rewrite insert_insert_ne.
Qed.

Lemma availableEntry_same state handle a :
  availableEntry (withAccount state handle a) handle
  = mkAccount QuotaStatusAvailable "" "" (LastUsed a).
Proof. unfold availableEntry. by rewrite withAccount_accounts, index_insert_eq. Qed.

Lemma availableEntry_other state handle other a :
  handle <> other ->
  availableEntry (withAccount state handle a) other = availableEntry state other.
Proof.
  intros Hne. unfold availableEntry. by rewrite withAccount_accounts, index_insert_ne.
Qed.

Lemma limitedEntry_other state handle other a resetsAt now :
  handle <> other ->
  limitedEntry (withAccount state handle a) other resetsAt now
  = limitedEntry state other resetsAt now.
Proof.
  intros Hne. unfold limitedEntry. by rewrite withAccount_accounts, index_insert_ne.
Qed.

Lemma written_written fs s1 s2 : written (written fs s1) s2 = written fs s2.
Proof. reflexivity. Qed.

(** X1. A state saved is the state loaded: when [Save] can take the lock
    and write, and the decoder reads back the text written, it returns no
    error, leaves the caller's state stamped with the current version, and
    a following [Load] returns the saved accounts at the current version (an
    empty map for a nil one). *)
Theorem Save_then_Load state fs :
  lockable fs = true -> writable fs = true ->
  jsonUnmarshal (jsonMarshal (mkState CurrentQuotaVersion (Accounts state)))
  = Some (mkState CurrentQuotaVersion (Accounts state)) ->
  exists fs',
    Save state fs = (mkState CurrentQuotaVersion (Accounts state), fs', None)
    /\ Load fs' = Ok (mkState CurrentQuotaVersion (Some (accountsOf state))).
Proof.
  intros Hlock Hw Hrt. unfold Quota.Save, lock, EnsureDirAndWriteJSON.
  rewrite Hlock, Hw. eexists. split; [reflexivity|].
  apply (Load_written fs _ Hrt).
Qed.

(** X2. The locking discipline.  [Save] is [SaveUnlocked] run under
    [WithLock].  When the lock cannot be taken, [Save], [MarkLimited],
    [MarkAvailable] and [WithLock] return the lock error and leave the
    files as they were, [Save] without stamping the caller's state and
    [WithLock] without running the callback; [SaveUnlocked] writes all the
    same. *)
Theorem lock_failure_blocks_all_but_SaveUnlocked state fs :
  Save state fs = WithLock SaveUnlocked state fs
  /\ (lockable fs = false ->
      Save state fs = (state, fs, Some ErrLock)
      /\ (forall handle resetsAt now,
             MarkLimited handle resetsAt now fs = Returned fs (Some ErrLock))
      /\ (forall handle, MarkAvailable handle fs = Returned fs (Some ErrLock))
      /\ (forall (S : Type) fn (captured : S),
             WithLock fn captured fs = (captured, fs, Some ErrLock))
      /\ (writable fs = true ->
          SaveUnlocked state fs
          = (mkState CurrentQuotaVersion (Accounts state),
             written fs (mkState CurrentQuotaVersion (Accounts state)), None))).
Proof.
  split; [unfold Quota.Save, WithLock, lock; by destruct (lockable fs)|].
  intros Hlock.
  unfold Quota.Save, Quota.MarkLimited, Quota.MarkAvailable, WithLock,
    Quota.SaveUnlocked, lock, EnsureDirAndWriteJSON, MoreSupport.written.
  rewrite Hlock. repeat split. by intros ->.
Qed.

(** X3. What [MarkLimited] changes.  After a [MarkLimited] that goes
    through, and with a decoder that reads back the text written, [Load]
    returns a state in which the handle is limited since [now] with the
    reset time given and its former [LastUsed], every other handle is as
    it was, and the version is the version loaded before (the call does not
    stamp the current one). *)
Theorem MarkLimited_then_Load handle resetsAt now fs st :
  Load fs = Ok st -> lockable fs = true -> writable fs = true ->
  jsonUnmarshal (jsonMarshal (withAccount st handle (limitedEntry st handle resetsAt now)))
  = Some (withAccount st handle (limitedEntry st handle resetsAt now)) ->
  exists fs' st',
    MarkLimited handle resetsAt now fs = Returned fs' None
    /\ Load fs' = Ok st'
    /\ index (accountsOf st') handle
       = mkAccount QuotaStatusLimited now resetsAt
           (LastUsed (index (accountsOf st) handle))
    /\ (forall other, other <> handle ->
          accountsOf st' !! other = accountsOf st !! other)
    /\ Version st' = Version st.
Proof.
  intros HL Hlock Hw Hrt. eexists _, _.
  split; [by apply MarkLimited_success|].
  split; [by apply withAccount_roundtrip_Load|].
  rewrite withAccount_accounts. split; [by rewrite index_insert_eq|].
  split; [|done]. intros other Hne. by rewrite lookup_insert_ne.
Qed.

Lemma Load_Ok_withAccount fs st handle :
  Load fs = Ok st -> accountsOf st !! handle = Some (index (accountsOf st) handle) ->
  withAccount st handle (index (accountsOf st) handle) = st.
Proof.
  intros HL Hl. destruct (Load_Ok_accounts _ _ _ _ HL) as [accounts Hacc].
  unfold withAccount. rewrite (insert_id _ _ _ Hl).
  unfold accountsOf. rewrite Hacc. destruct st as [v a]. cbn in *. by subst.
Qed.

(** X4. [MarkLimited] followed by [MarkAvailable] of the same handle leaves
    the handle available with its limit fields cleared and its [LastUsed]
    as before the two calls; an account that was available without limit
    fields is back to what it was, and the file holds the very state loaded
    before the two calls. *)
Theorem MarkLimited_then_MarkAvailable handle resetsAt now fs st :
  Load fs = Ok st -> lockable fs = true -> writable fs = true ->
  jsonUnmarshal (jsonMarshal (withAccount st handle (limitedEntry st handle resetsAt now)))
  = Some (withAccount st handle (limitedEntry st handle resetsAt now)) ->
  exists fs1,
    MarkLimited handle resetsAt now fs = Returned fs1 None
    /\ MarkAvailable handle fs1
       = Returned (written fs (withAccount st handle (availableEntry st handle))) None
    /\ (accountsOf st !! handle = Some (availableEntry st handle) ->
        MarkAvailable handle fs1 = Returned (written fs st) None).
Proof.
  intros HL Hlock Hw Hrt. eexists. split; [by apply MarkLimited_success|].
  assert (Hsecond :
    MarkAvailable handle
      (written fs (withAccount st handle (limitedEntry st handle resetsAt now)))
    = Returned (written fs (withAccount st handle (availableEntry st handle))) None).
  { rewrite (MarkAvailable_success handle _ _ (withAccount_roundtrip_Load fs _ _ _ Hrt))
      by done.
    by rewrite written_written, withAccount_twice, availableEntry_same. }
  split; [exact Hsecond|]. intros Hav. rewrite Hsecond. do 2 f_equal.
  assert (Hidx : index (accountsOf st) handle = availableEntry st handle)
    by (unfold index at 1; by rewrite Hav).
  rewrite <- Hidx. apply (Load_Ok_withAccount fs); [done|]. by rewrite Hidx.
Qed.

(** X5. Marking one handle limited and another available gives the same
    file in either order. *)
Theorem marks_of_distinct_handles_commute h1 h2 resetsAt now fs st :
  h1 <> h2 ->
  Load fs = Ok st -> lockable fs = true -> writable fs = true ->
  jsonUnmarshal (jsonMarshal (withAccount st h1 (limitedEntry st h1 resetsAt now)))
  = Some (withAccount st h1 (limitedEntry st h1 resetsAt now)) ->
  jsonUnmarshal (jsonMarshal (withAccount st h2 (availableEntry st h2)))
  = Some (withAccount st h2 (availableEntry st h2)) ->
  exists fs1 fs2 final,
    MarkLimited h1 resetsAt now fs = Returned fs1 None
    /\ MarkAvailable h2 fs = Returned fs2 None
    /\ MarkAvailable h2 fs1 = Returned final None
    /\ MarkLimited h1 resetsAt now fs2 = Returned final None.
Proof.
  intros Hne HL Hlock Hw Hrt1 Hrt2. eexists _, _, _.
  split; [by apply MarkLimited_success|].
  split; [by apply MarkAvailable_success|].
  rewrite (MarkAvailable_success h2 _ _ (withAccount_roundtrip_Load fs _ _ _ Hrt1))
    by done.
  rewrite (MarkLimited_success h1 resetsAt now _ _
             (withAccount_roundtrip_Load fs _ _ _ Hrt2)) by done.
  split; [reflexivity|].
  rewrite !written_written, availableEntry_other, limitedEntry_other by done.
  by rewrite withAccount_commute by done.
Qed.

(** X6. [MarkAvailable] twice is [MarkAvailable] once: the second call
    rewrites the file with the same state. *)
Theorem MarkAvailable_twice handle fs st :
  Load fs = Ok st -> lockable fs = true -> writable fs = true ->
  jsonUnmarshal (jsonMarshal (withAccount st handle (availableEntry st handle)))
  = Some (withAccount st handle (availableEntry st handle)) ->
  exists fs1,
    MarkAvailable handle fs = Returned fs1 None
    /\ MarkAvailable handle fs1 = Returned fs1 None.
Proof.
  intros HL Hlock Hw Hrt. eexists. split; [by apply MarkAvailable_success|].
  rewrite (MarkAvailable_success handle _ _ (withAccount_roundtrip_Load fs _ _ _ Hrt))
    by done.
  by rewrite written_written, withAccount_twice, availableEntry_same.
Qed.

End Store.

Lemma Save_then_Load_witness :
  exists fs',
    Quota.Save 1 tableMarshal (mkState 0 (Some poolAccounts)) poolFiles
    = (poolState, fs', None)
    /\ Quota.Load 1 tableUnmarshal fs' = Ok poolState.
Proof.
  apply (Save_then_Load 1 tableUnmarshal tableMarshal
           (mkState 0 (Some poolAccounts)) poolFiles); vm_compute; reflexivity.
Defined.

Lemma lock_failure_blocks_all_but_SaveUnlocked_witness :
  Quota.MarkAvailable 1 tableUnmarshal tableMarshal "a" (mkFS (Contents "pool") false true)
  = Returned (mkFS (Contents "pool") false true) (Some ErrLock)
  /\ Quota.SaveUnlocked 1 tableMarshal
       (withAccount poolState "b" (availableEntry poolState "b"))
       (mkFS (Contents "pool") false true)
     = (withAccount poolState "b" (availableEntry poolState "b"),
        mkFS (Contents "b-available") false true, None).
Proof.
  destruct (lock_failure_blocks_all_but_SaveUnlocked 1 tableUnmarshal tableMarshal
              (withAccount poolState "b" (availableEntry poolState "b"))
              (mkFS (Contents "pool") false true))
    as [_ Hlocked].
  destruct (Hlocked eq_refl) as (_ & _ & Havailable & _ & Hunlocked).
  split; [apply Havailable|]. rewrite Hunlocked by reflexivity.
  vm_compute. reflexivity.
Defined.

Lemma MarkLimited_then_Load_witness :
  exists fs' st',
    Quota.MarkLimited 1 tableUnmarshal tableMarshal "a" "7pm" markedAt poolFiles
    = Returned fs' None
    /\ Quota.Load 1 tableUnmarshal fs' = Ok st'
    /\ index (accountsOf st') "a"
       = mkAccount QuotaStatusLimited markedAt "7pm" "2025-01-01T03:00:00Z"
    /\ accountsOf st' !! "c" = poolAccounts !! "c".
Proof.
  destruct (MarkLimited_then_Load 1 tableUnmarshal tableMarshal "a" "7pm" markedAt
              poolFiles poolState)
    as (fs' & st' & Hmark & Hload & Hentry & Hframe & _);
    [vm_compute; reflexivity..|].
  exists fs', st'. repeat split; [done|done|exact Hentry|].
  apply Hframe. discriminate.
Defined.

Lemma MarkLimited_then_MarkAvailable_witness :
  exists fs1,
    Quota.MarkLimited 1 tableUnmarshal tableMarshal "a" "7pm" markedAt poolFiles
    = Returned fs1 None
    /\ Quota.MarkAvailable 1 tableUnmarshal tableMarshal "a" fs1
       = Returned poolFiles None.
Proof.
  destruct (MarkLimited_then_MarkAvailable 1 tableUnmarshal tableMarshal "a" "7pm"
              markedAt poolFiles poolState)
    as (fs1 & Hmark & _ & Hback); [vm_compute; reflexivity..|].
  exists fs1. split; [done|]. rewrite Hback; vm_compute; reflexivity.
Defined.

Lemma marks_of_distinct_handles_commute_witness :
  exists fs1 fs2 final,
    Quota.MarkLimited 1 tableUnmarshal tableMarshal "a" "7pm" markedAt poolFiles
    = Returned fs1 None
    /\ Quota.MarkAvailable 1 tableUnmarshal tableMarshal "b" poolFiles
       = Returned fs2 None
    /\ Quota.MarkAvailable 1 tableUnmarshal tableMarshal "b" fs1 = Returned final None
    /\ Quota.MarkLimited 1 tableUnmarshal tableMarshal "a" "7pm" markedAt fs2
       = Returned final None.
Proof.
  apply (marks_of_distinct_handles_commute 1 tableUnmarshal tableMarshal "a" "b"
           "7pm" markedAt poolFiles poolState);
    [discriminate | vm_compute; reflexivity..].
Defined.

Lemma MarkAvailable_twice_witness :
  exists fs1,
    Quota.MarkAvailable 1 tableUnmarshal tableMarshal "b" poolFiles = Returned fs1 None
    /\ Quota.MarkAvailable 1 tableUnmarshal tableMarshal "b" fs1 = Returned fs1 None.
Proof.
  apply (MarkAvailable_twice 1 tableUnmarshal tableMarshal "b" poolFiles poolState);
    vm_compute; reflexivity.
Defined.

(** *** [EnsureAccountsTracked] *)

Lemma lookup_tracked (accounts : gmap string AccountQuotaState)
    (handles : gset string) k :
  (accounts ∪ gset_to_gmap freshAccount handles) !! k
  = match accounts !! k with
    | Some a => Some a
    | None => if bool_decide (k ∈ handles) then Some freshAccount else None
    end.
Proof.
  rewrite lookup_union. destruct (accounts !! k) as [a|].
  - by rewrite union_Some_l.
  - rewrite (left_id_L None (∪)). case_bool_decide as Hin.
    + by apply lookup_gset_to_gmap_Some.
    + apply lookup_gset_to_gmap_None. done.
Qed.

Lemma ensure_fold order : forall (accounts : gmap string AccountQuotaState) v,
  fold_left ensureTracked order (Some (mkState v (Some accounts)))
  = Some (mkState v
            (Some (accounts ∪ gset_to_gmap freshAccount (list_to_set order)))).
Proof.
  induction order as [|h order IH]; intros accounts v; cbn [fold_left].
  - cbn. by rewrite gset_to_gmap_empty, (right_id_L ∅ (∪)).
  - unfold ensureTracked at 2, accountsOf, assign.
    cbn [Accounts Version default from_option id].
    destruct (accounts !! h) as [a|] eqn:Hl; rewrite IH; do 3 f_equal;
      apply map_eq; intros k; rewrite !lookup_tracked, list_to_set_cons.
    + destruct (decide (k = h)) as [->|Hne]; [by rewrite Hl|].
      destruct (accounts !! k); [done|].
      apply (f_equal (fun b : bool => if b then Some freshAccount else None)).
      apply bool_decide_ext. rewrite elem_of_union, elem_of_singleton. tauto.
    + destruct (decide (k = h)) as [->|Hne].
      * rewrite lookup_insert_eq, Hl. rewrite bool_decide_eq_true_2; [done|].
        apply elem_of_union_l. by apply elem_of_singleton.
      * rewrite lookup_insert_ne by done. destruct (accounts !! k); [done|].
        apply (f_equal (fun b : bool => if b then Some freshAccount else None)).
        apply bool_decide_ext. rewrite elem_of_union, elem_of_singleton. tauto.
Qed.

Lemma ensure_fold_None order : fold_left ensureTracked order None = None.
Proof. by induction order. Qed.

(** X7. [EnsureAccountsTracked], whatever order the range lists the
    registered handles in: the accounts afterwards are the accounts before
    with a fresh available entry (no limit fields, never used) for every
    registered handle that was missing; no entry that was there is changed
    and the version is kept; running it again changes nothing.  On a state
    whose map is nil it panics as soon as there is a registered handle. *)
Theorem EnsureAccountsTracked_adds_missing order v
    (accounts : gmap string AccountQuotaState) :
  EnsureAccountsTracked order (mkState v (Some accounts))
  = Some (mkState v
            (Some (accounts ∪ gset_to_gmap freshAccount (list_to_set order))))
  /\ (forall st', EnsureAccountsTracked order (mkState v (Some accounts)) = Some st' ->
        (forall h a, accounts !! h = Some a -> accountsOf st' !! h = Some a)
        /\ (forall h, accounts !! h = None ->
              accountsOf st' !! h = if bool_decide (h ∈ order) then Some freshAccount
                                    else None)
        /\ EnsureAccountsTracked order st' = Some st')
  /\ EnsureAccountsTracked order (mkState v None)
     = match order with
       | [] => Some (mkState v None)
       | _ :: _ => None
       end.
Proof.
  unfold EnsureAccountsTracked. split; [apply ensure_fold|]. split.
  - rewrite ensure_fold. intros st' [= <-]. unfold accountsOf.
    cbn [Accounts default from_option id].
    split; [|split].
    + intros h a Hl. by rewrite lookup_tracked, Hl.
    + intros h Hl. rewrite lookup_tracked, Hl.
      apply (f_equal (fun b : bool => if b then Some freshAccount else None)).
      apply bool_decide_ext. apply elem_of_list_to_set.
    + rewrite ensure_fold. do 3 f_equal. apply map_eq. intros k.
      rewrite !lookup_tracked. destruct (accounts !! k); [done|]. by case_bool_decide.
  - destruct order as [|h order]; [done|]. cbn [fold_left]. apply ensure_fold_None.
Qed.

Lemma EnsureAccountsTracked_adds_missing_witness :
  exists st',
    EnsureAccountsTracked registered poolState = Some st'
    /\ accountsOf st' !! "a" = poolAccounts !! "a"
    /\ accountsOf st' !! "e" = Some freshAccount
    /\ accountsOf st' !! "g" = None
    /\ EnsureAccountsTracked registered st' = Some st'.
Proof.
  destruct (EnsureAccountsTracked_adds_missing registered 1 poolAccounts)
    as (Hrun & Hafter & _).
  eexists. split; [exact Hrun|].
  destruct (Hafter _ Hrun) as (Hkept & Hfresh & Hagain).
  split; [by apply Hkept|]. split; [by rewrite Hfresh|].
  split; [by rewrite Hfresh|]. exact Hagain.
Defined.

End StoreExtras.

(** ** Further properties of the rotation policy *)
Module PolicyExtras.
Import GoStrings Config Quota Support MoreSupport StoreFacts PolicyFacts.
Local Open Scope list_scope.

Section Lists.
Variable accounts : gmap string AccountQuotaState.
Abbreviation R := (usedBefore accounts).

(** The loop of [LimitedAccounts] keeps the handles that pass the test, in
    the order of the range. *)
Lemma fold_limited order : forall acc : list string,
  fold_left
    (fun (limited : list string) handle =>
       if String.eqb (Status (index accounts handle)) QuotaStatusLimited
       then limited ++ [handle]
       else limited)
    order acc
  = acc ++ List.filter (isLimited accounts) order.
Proof.
  induction order as [|h order IH]; intros acc; cbn [fold_left List.filter].
  - by rewrite app_nil_r.
  - rewrite IH. unfold isLimited at 2.
    destruct (String.eqb _ _); [by rewrite <- app_assoc | done].
Qed.

Lemma LimitedAccounts_filter order :
  LimitedAccounts order accounts = List.filter (isLimited accounts) order.
Proof. unfold LimitedAccounts. by rewrite fold_limited. Qed.

Lemma AvailableAccounts_perm order :
  AvailableAccounts order accounts ≡ₚ List.filter (isAvailable accounts) order.
Proof.
  unfold AvailableAccounts. rewrite fold_available. cbn [app].
  apply sortByLastUsed_spec.
Qed.

Lemma available_not_limited h :
  isAvailable accounts h = true -> isLimited accounts h = false.
Proof.
  unfold isAvailable, isLimited. intros [H|H]%orb_true_iff;
    apply String.eqb_eq in H; by rewrite H.
Qed.

Lemma length_filter_disjoint {A} (f g : A -> bool) (l : list A) :
  (forall x, f x = true -> g x = false) ->
  (length (List.filter f l) + length (List.filter g l) <= length l)%nat.
Proof.
  intros Hfg. induction l as [|x l IH]; cbn; [lia|].
  destruct (f x) eqn:Hf; [rewrite (Hfg x Hf)|destruct (g x)]; cbn; lia.
Qed.

Lemma elem_of_keys order h :
  order ≡ₚ (map_to_list accounts).*1 -> h ∈ order <-> is_Some (accounts !! h).
Proof.
  intros ->. rewrite list_elem_of_fmap. split.
  - intros ((k & a) & -> & Hin%elem_of_map_to_list). by exists a.
  - intros [a Hl]. exists (h, a). split; [done|]. by apply elem_of_map_to_list.
Qed.

(** X8. [LimitedAccounts], and how it divides the accounts with
    [AvailableAccounts].  Whatever order the range lists the keys in,
    [LimitedAccounts] returns exactly the handles whose status is
    [limited], each once, in the order of the range (it does not sort); no
    handle is in both lists; a handle whose status is neither [available],
    empty nor [limited] (a [cooldown], say) is in neither; so the two lists
    together are never longer than the map. *)
Theorem lists_divide_the_accounts order :
  order ≡ₚ (map_to_list accounts).*1 ->
  LimitedAccounts order accounts = List.filter (isLimited accounts) order
  /\ (forall handle,
         handle ∈ LimitedAccounts order accounts
         <-> exists a, accounts !! handle = Some a /\ Status a = QuotaStatusLimited)
  /\ NoDup (LimitedAccounts order accounts)
  /\ (forall handle,
         handle ∈ LimitedAccounts order accounts ->
         handle ∉ AvailableAccounts order accounts)
  /\ (forall handle a,
         accounts !! handle = Some a ->
         Status a <> QuotaStatusAvailable -> Status a <> ""%string ->
         Status a <> QuotaStatusLimited ->
         (handle ∉ LimitedAccounts order accounts)
         /\ (handle ∉ AvailableAccounts order accounts))
  /\ (length (LimitedAccounts order accounts)
      + length (AvailableAccounts order accounts) <= size accounts)%nat.
Proof.
  intros Horder.
  assert (Hlim : forall h, h ∈ LimitedAccounts order accounts
                           <-> h ∈ order /\ isLimited accounts h = true).
  { intros h. rewrite LimitedAccounts_filter, list_elem_of_In, filter_In.
    by rewrite list_elem_of_In. }
  assert (Hav : forall h, h ∈ AvailableAccounts order accounts
                          <-> h ∈ order /\ isAvailable accounts h = true).
  { intros h. rewrite AvailableAccounts_perm, list_elem_of_In, filter_In.
    by rewrite list_elem_of_In. }
  split; [apply LimitedAccounts_filter|]. split; [|split; [|split; [|split]]].
  - intros h. rewrite Hlim, (elem_of_keys order h Horder). unfold isLimited, index.
    split.
    + intros [[a Hl] Hst]. rewrite Hl in Hst. exists a. split; [done|].
      by apply String.eqb_eq.
    + intros (a & Hl & Hst). rewrite Hl. split; [by exists a|]. cbn.
      by apply String.eqb_eq.
  - rewrite LimitedAccounts_filter. apply NoDup_ListNoDup, List.NoDup_filter, NoDup_ListNoDup.
    rewrite Horder. apply NoDup_fst_map_to_list.
  - intros h [_ Hl]%Hlim [_ Ha]%Hav. apply available_not_limited in Ha. congruence.
  - intros h a Hl H1 H2 H3. split.
    + intros [_ Hh]%Hlim. unfold isLimited, index in Hh. rewrite Hl in Hh.
      by apply String.eqb_eq in Hh.
    + intros [_ Hh]%Hav. unfold isAvailable, index in Hh. rewrite Hl in Hh.
      apply orb_true_iff in Hh as [Hh|Hh]; by apply String.eqb_eq in Hh.
  - rewrite LimitedAccounts_filter, (Permutation_length (AvailableAccounts_perm order)).
    replace (size accounts) with (length order).
    + rewrite Nat.add_comm. apply length_filter_disjoint, available_not_limited.
    + by rewrite Horder, length_fmap, length_map_to_list.
Qed.

(** *** The sort is stable *)

Abbreviation later key h :=
  (String.ltb (LastUsed (index accounts key)) (LastUsed (index accounts h)) = true).

(** The inner loop moves the key past the handles used strictly later than
    it, and past no other. *)
Lemma insertKey_strict key (pre : list string) x suf :
  exists lo hi,
    pre = lo ++ hi
    /\ insertKey accounts key (length pre) (pre ++ x :: suf) = lo ++ key :: hi ++ suf
    /\ Forall (fun h => later key h) hi
    /\ (forall y, last lo = Some y ->
          String.ltb (LastUsed (index accounts key)) (LastUsed (index accounts y))
          = false).
Proof.
  revert x suf. induction pre as [|y pre IH] using rev_ind; intros x suf.
  - exists [], []. split; [done|]. split; [done|]. split; [constructor|].
    intros y [=].
  - rewrite length_app, Nat.add_comm. cbn [length Nat.add insertKey].
    rewrite <- app_assoc. cbn [app].
    rewrite (list_lookup_middle pre (x :: suf) y (length pre) eq_refl).
    destruct (String.ltb _ _) eqn:Hlt.
    + replace (<[S (length pre) := y]> (pre ++ y :: x :: suf))
        with (pre ++ y :: y :: suf).
      2:{ rewrite insert_app_r_alt by lia.
          replace (S (length pre) - length pre)%nat with 1%nat by lia. done. }
      destruct (IH y (y :: suf)) as (lo & hi & -> & Hins & Hhi & Hlo).
      exists lo, (hi ++ [y]). repeat split.
      * by rewrite app_assoc.
      * rewrite Hins. by rewrite <- app_assoc.
      * apply Forall_app. split; [done|]. by constructor.
      * done.
    + exists (pre ++ [y]), []. repeat split.
      * by rewrite app_nil_r.
      * rewrite insert_app_r_alt by lia.
        replace (S (length pre) - length pre)%nat with 1%nat by lia.
        by rewrite <- app_assoc.
      * constructor.
      * intros z. rewrite last_snoc. by intros [= <-].
Qed.

Lemma ltb_irrefl a : String.ltb a a = false.
Proof.
  unfold String.ltb. pose proof (String.compare_antisym a a) as H.
  by destruct (String.compare a a).
Qed.

Lemma filter_later_nil key t hi :
  usedAt accounts t key = true -> Forall (fun h => later key h) hi ->
  List.filter (usedAt accounts t) hi = [].
Proof.
  unfold usedAt. intros Hk%String.eqb_eq Hhi.
  induction Hhi as [|h hi Hh _ IH]; [done|]. cbn. rewrite IH.
  destruct (String.eqb_spec (LastUsed (index accounts h)) t) as [Heq|]; [|done].
  rewrite Hk, Heq, ltb_irrefl in Hh. discriminate.
Qed.

Lemma sortFrom_stable t rest : forall pre,
  List.filter (usedAt accounts t)
    (sortFrom accounts (length rest) (length pre) (pre ++ rest))
  = List.filter (usedAt accounts t) (pre ++ rest).
Proof.
  induction rest as [|key rest IH]; intros pre.
  - done.
  - cbn [length sortFrom].
    rewrite (list_lookup_middle pre rest key (length pre) eq_refl).
    destruct (insertKey_strict key pre key rest) as (lo & hi & Hsplit & -> & Hhi & _).
    assert (Hlen : S (length pre) = length (lo ++ key :: hi)).
    { rewrite Hsplit, !length_app. cbn. lia. }
    rewrite Hlen.
    replace (lo ++ key :: hi ++ rest) with ((lo ++ key :: hi) ++ rest)
      by (by rewrite <- app_assoc).
    rewrite IH, Hsplit. rewrite !List.filter_app. cbn [List.filter].
    destruct (usedAt accounts t key) eqn:Hk; [|done].
    rewrite (filter_later_nil key t hi Hk Hhi). by rewrite app_nil_r, <- app_assoc.
Qed.

(** A key that belongs after the handle before the hole stays. *)
Lemma insertKey_stays key (pre : list string) suf :
  (forall y, last pre = Some y -> R y key) ->
  insertKey accounts key (length pre) (pre ++ key :: suf) = pre ++ key :: suf.
Proof.
  intros Hlast. destruct pre as [|y pre _] using rev_ind; [done|].
  rewrite length_app, Nat.add_comm. cbn [length Nat.add insertKey].
  rewrite <- app_assoc. cbn [app].
  rewrite (list_lookup_middle pre (key :: suf) y (length pre) eq_refl).
  specialize (Hlast y). rewrite last_snoc in Hlast. specialize (Hlast eq_refl).
  unfold usedBefore, String.le, String.leb in Hlast.
  unfold String.ltb. rewrite (String.compare_antisym (LastUsed (index accounts key))).
  destruct (String.compare (LastUsed (index accounts y)) _); cbn in *; try done;
    rewrite insert_app_r_alt by lia;
    replace (S (length pre) - length pre)%nat with 1%nat by lia; done.
Qed.

Lemma sortFrom_sorted rest : forall pre,
  StronglySorted R (pre ++ rest) ->
  sortFrom accounts (length rest) (length pre) (pre ++ rest) = pre ++ rest.
Proof.
  induction rest as [|key rest IH]; intros pre Hs; [done|].
  cbn [length sortFrom].
  rewrite (list_lookup_middle pre rest key (length pre) eq_refl).
  rewrite insertKey_stays.
  - replace (S (length pre)) with (length (pre ++ [key]))
      by (rewrite length_app; cbn; lia).
    replace (pre ++ key :: rest) with ((pre ++ [key]) ++ rest)
      by (by rewrite <- app_assoc).
    apply IH. by rewrite <- app_assoc.
  - intros y Hy. apply last_Some in Hy as [l' ->].
    rewrite <- app_assoc in Hs. apply StronglySorted_app in Hs as (_ & _ & Hs).
    cbn in Hs. apply StronglySorted_inv in Hs as [_ Hall].
    by apply Forall_inv in Hall.
Qed.

(** X9. The insertion sort is stable: the handles last used at the same
    time come out in the order they went in.  So [AvailableAccounts] lists
    the available handles with equal [LastUsed], those never used among
    them, in the order the range over the map produced them. *)
Theorem sortByLastUsed_stable t :
  (forall handles,
      List.filter (usedAt accounts t) (sortByLastUsed handles accounts)
      = List.filter (usedAt accounts t) handles)
  /\ (forall order,
         List.filter (usedAt accounts t) (AvailableAccounts order accounts)
         = List.filter (usedAt accounts t)
             (List.filter (isAvailable accounts) order)).
Proof.
  assert (Hsort : forall handles,
      List.filter (usedAt accounts t) (sortByLastUsed handles accounts)
      = List.filter (usedAt accounts t) handles).
  { intros handles. unfold sortByLastUsed. destruct handles as [|h rest]; [done|].
    replace (length (h :: rest) - 1)%nat with (length rest) by (cbn; lia).
    apply (sortFrom_stable t rest [h]). }
  split; [done|]. intros order. unfold AvailableAccounts.
  rewrite fold_available. cbn [app]. apply Hsort.
Qed.

(** X10. A slice that is in order already is returned as it is; so sorting
    twice is sorting once. *)
Theorem sortByLastUsed_fixes_sorted handles :
  (StronglySorted R handles -> sortByLastUsed handles accounts = handles)
  /\ sortByLastUsed (sortByLastUsed handles accounts) accounts
     = sortByLastUsed handles accounts.
Proof.
  assert (Hfix : forall l, StronglySorted R l -> sortByLastUsed l accounts = l).
  { intros l Hs. unfold sortByLastUsed. destruct l as [|h rest]; [done|].
    replace (length (h :: rest) - 1)%nat with (length rest) by (cbn; lia).
    by apply (sortFrom_sorted rest [h]). }
  split; [apply Hfix|]. apply Hfix, sortByLastUsed_spec.
Qed.

(** Two sorted lists with the same handles are the same list, when no two
    of the handles were last used at the same time. *)
Lemma sorted_perm_eq (l1 : list string) : forall l2,
  StronglySorted R l1 -> StronglySorted R l2 -> l1 ≡ₚ l2 ->
  (forall a b, a ∈ l1 -> b ∈ l1 -> R a b -> R b a -> a = b) ->
  l1 = l2.
Proof.
  induction l1 as [|x l1 IH]; intros l2 Hs1 Hs2 Hperm Hanti.
  - by apply Permutation_nil in Hperm.
  - destruct l2 as [|y l2]; [by apply Permutation_sym, Permutation_nil in Hperm|].
    apply StronglySorted_inv in Hs1 as [Hs1 Hx].
    apply StronglySorted_inv in Hs2 as [Hs2 Hy].
    rewrite Forall_forall in Hx, Hy.
    assert (Hyin : y ∈ x :: l1) by (rewrite Hperm; by left).
    assert (Hxin : x ∈ y :: l2) by (rewrite <- Hperm; by left).
    assert (x = y) as <-.
    { apply elem_of_cons in Hyin as Hy1. apply elem_of_cons in Hxin as Hx1.
      destruct Hy1 as [->|Hy1]; [done|]. destruct Hx1 as [->|Hx1]; [done|].
      apply Hanti; [by left | done | by apply Hx | by apply Hy]. }
    f_equal. apply IH; [done | done | by apply Permutation_cons_inv in Hperm|].
    intros a b Ha Hb. apply Hanti; by right.
Qed.

(** What [tieFree] checks. *)
Lemma tieFree_spec a b x y :
  tieFree accounts = true ->
  accounts !! a = Some x -> accounts !! b = Some y ->
  isAvailable accounts a = true -> isAvailable accounts b = true ->
  LastUsed x = LastUsed y -> a = b.
Proof.
  unfold tieFree. rewrite forallb_forall. intros Hall Ha Hb Hia Hib Heq.
  apply elem_of_map_to_list, list_elem_of_In in Ha, Hb.
  specialize (Hall _ Ha). rewrite forallb_forall in Hall. specialize (Hall _ Hb).
  cbn [fst snd] in Hall. rewrite Hia, Hib, Heq, String.eqb_refl in Hall.
  cbn [andb negb orb] in Hall. by apply String.eqb_eq.
Qed.

(** X11. When no two available accounts were last used at the same time,
    [AvailableAccounts] returns the same list whatever order the range
    lists the keys in. *)
Theorem AvailableAccounts_order_free order1 order2 :
  order1 ≡ₚ (map_to_list accounts).*1 ->
  order2 ≡ₚ (map_to_list accounts).*1 ->
  tieFree accounts = true ->
  AvailableAccounts order1 accounts = AvailableAccounts order2 accounts.
Proof.
  intros H1 H2 Hfree.
  assert (Hres : forall order,
            AvailableAccounts order accounts ≡ₚ List.filter (isAvailable accounts) order
            /\ StronglySorted R (AvailableAccounts order accounts)).
  { intros order. unfold AvailableAccounts. rewrite fold_available. cbn [app].
    apply sortByLastUsed_spec. }
  destruct (Hres order1) as [Hp1 Hs1]. destruct (Hres order2) as [Hp2 Hs2].
  apply sorted_perm_eq; [done | done | |].
  - rewrite Hp1, Hp2. apply filter_perm. by rewrite H1, H2.
  - intros a b Ha Hb Hab Hba. rewrite Hp1 in Ha, Hb.
    apply list_elem_of_In, filter_In in Ha as [Ha Hia].
    apply list_elem_of_In, filter_In in Hb as [Hb Hib].
    apply list_elem_of_In, (elem_of_keys order1 _ H1) in Ha as [x Hx].
    apply list_elem_of_In, (elem_of_keys order1 _ H1) in Hb as [y Hy].
    apply (tieFree_spec a b x y); [done..|].
    unfold usedBefore, index in Hab, Hba. rewrite Hx, Hy in Hab, Hba. cbn in Hab, Hba.
    by apply (anti_symm String.le).
Qed.

End Lists.

Lemma lists_divide_the_accounts_witness :
  LimitedAccounts mixedOrder mixedAccounts = ["b"]%string
  /\ ("e"%string ∉ LimitedAccounts mixedOrder mixedAccounts)
  /\ ("e"%string ∉ AvailableAccounts mixedOrder mixedAccounts)
  /\ (length (LimitedAccounts mixedOrder mixedAccounts)
      + length (AvailableAccounts mixedOrder mixedAccounts) <= 5)%nat.
Proof.
  destruct (lists_divide_the_accounts mixedAccounts mixedOrder)
    as (Hfilter & _ & _ & _ & Hneither & Hlen).
  - vm_compute. reflexivity.
  - split; [rewrite Hfilter; vm_compute; reflexivity|].
    destruct (Hneither "e"%string (mkAccount QuotaStatusCooldown "" "" ""))
      as [Hl Ha]; [vm_compute; reflexivity | discriminate..|].
    split; [done|]. split; [done|]. exact Hlen.
Defined.

Lemma sortByLastUsed_fixes_sorted_witness :
  sortByLastUsed ["c"; "d"; "a"]%string poolAccounts = ["c"; "d"; "a"]%string.
Proof.
  apply (sortByLastUsed_fixes_sorted poolAccounts).
  repeat constructor; vm_compute; done.
Defined.

Lemma AvailableAccounts_order_free_witness :
  AvailableAccounts ["c"; "a"; "b"; "d"]%string poolAccounts
  = AvailableAccounts ["a"; "c"; "b"; "d"]%string poolAccounts.
Proof.
  apply AvailableAccounts_order_free.
  - vm_compute. reflexivity.
  - vm_compute. apply perm_swap.
  - vm_compute. reflexivity.
Defined.

(** *** The sweep, once more and on the lists *)
Section Sweep.
Variable LoadLocation : string -> option GoTime.Location.
Variable now : GoTime.Time.
Abbreviation expired' := (expired LoadLocation now).
Abbreviation swept' := (swept LoadLocation now).
Abbreviation sweep order accounts := (clearExpiredAt LoadLocation order accounts now).

Lemma expired_swept a : expired' (swept' a) = false.
Proof.
  unfold swept. destruct (expired' a) eqn:He; [|done]. reflexivity.
Qed.

Lemma swept_swept a : swept' (swept' a) = swept' a.
Proof. unfold swept at 1. by rewrite expired_swept. Qed.

Lemma keys_fmap {A B} (f : A -> B) (m : gmap string A) :
  (map_to_list (f <$> m)).*1 ≡ₚ (map_to_list m).*1.
Proof.
  rewrite map_to_list_fmap, <- list_fmap_compose.
  by rewrite (list_fmap_ext (fst ∘ prod_map id f) fst (map_to_list m))
    by (by intros i [k a] _).
Qed.

Lemma filter_none {A} (f : A -> bool) (l : list A) :
  (forall x, In x l -> f x = false) -> List.filter f l = [].
Proof.
  induction l as [|x l IH]; intros Hf; [done|]. cbn.
  rewrite (Hf x) by (by left). apply IH. intros y Hy. apply Hf. by right.
Qed.

(** X12. Sweeping twice at the same instant is sweeping once: the second
    sweep, whatever order its range takes, changes nothing and counts
    zero. *)
Theorem clearExpiredAt_twice order order'
    (accounts : gmap string AccountQuotaState) :
  order ≡ₚ (map_to_list accounts).*1 ->
  order' ≡ₚ (map_to_list accounts).*1 ->
  sweep order' (sweep order accounts).1 = ((sweep order accounts).1, 0).
Proof.
  intros Horder Horder'.
  rewrite (clearExpiredAt_fmap LoadLocation now order accounts Horder). cbn [fst].
  rewrite (clearExpiredAt_fmap LoadLocation now order' (swept' <$> accounts))
    by (by rewrite keys_fmap).
  f_equal.
  - rewrite <- map_fmap_compose. apply map_fmap_ext. intros k a _. apply swept_swept.
  - replace (List.filter (fun p => expired' p.2) (map_to_list (swept' <$> accounts)))
      with (@nil (string * AccountQuotaState)); [done|].
    symmetry. apply filter_none. intros [k a] Hin%list_elem_of_In.
    apply elem_of_map_to_list, lookup_fmap_Some in Hin as (b & <- & _).
    apply expired_swept.
Qed.

Lemma length_filter_split {A} (f g e : A -> bool) (l : list A) :
  (forall x, In x l -> f x = g x || e x) ->
  (forall x, In x l -> g x && e x = false) ->
  length (List.filter f l)
  = (length (List.filter g l) + length (List.filter e l))%nat.
Proof.
  induction l as [|x l IH]; intros Hf Hd; [done|]. cbn.
  rewrite (Hf x) by (by left). pose proof (Hd x (or_introl eq_refl)) as Hx.
  assert (IH' : length (List.filter f l)
                = (length (List.filter g l) + length (List.filter e l))%nat).
  { apply IH; intros y Hy; [apply Hf | apply Hd]; by right. }
  destruct (g x), (e x); cbn in *; try done; lia.
Qed.

(** X13. The two lists after a sweep.  A handle is limited afterwards
    exactly when it was limited and not expired; it is available afterwards
    exactly when it was available or was limited and expired; the count
    the sweep returns is the number of handles that left the limited list;
    and an account's [LastUsed], by which the available handles are
    ordered, is what it was. *)
Theorem lists_after_the_sweep order (accounts : gmap string AccountQuotaState) :
  order ≡ₚ (map_to_list accounts).*1 ->
  let after := (sweep order accounts).1 in
  (forall order' handle,
      order' ≡ₚ (map_to_list after).*1 ->
      (handle ∈ LimitedAccounts order' after
       <-> handle ∈ LimitedAccounts order accounts
           /\ expiredHandle LoadLocation now accounts handle = false)
      /\ (handle ∈ AvailableAccounts order' after
          <-> handle ∈ AvailableAccounts order accounts
              \/ (handle ∈ LimitedAccounts order accounts
                  /\ expiredHandle LoadLocation now accounts handle = true)))
  /\ (forall order',
         order' ≡ₚ (map_to_list after).*1 ->
         (sweep order accounts).2
         = Z.of_nat (length (LimitedAccounts order accounts))
           - Z.of_nat (length (LimitedAccounts order' after)))
  /\ (forall a b, usedBefore after a b <-> usedBefore accounts a b).
Proof.
  intros Horder after.
  assert (Hafter : after = swept' <$> accounts).
  { subst after. by rewrite (clearExpiredAt_fmap LoadLocation now order accounts Horder). }
  assert (Hcount : (sweep order accounts).2
                   = Z.of_nat (length (List.filter
                                         (expiredHandle LoadLocation now accounts) order))).
  { unfold clearExpiredAt.
    assert (Hnd : NoDup order) by (rewrite Horder; apply NoDup_fst_map_to_list).
    destruct (fold_step LoadLocation now order accounts 0 Hnd) as (accounts' & -> & _).
    reflexivity. }
  assert (Hidx : forall h, index after h
                           = match accounts !! h with
                             | Some a => swept' a
                             | None => zeroAccount
                             end).
  { intros h. unfold index. rewrite Hafter, lookup_fmap. by destruct (accounts !! h). }
  assert (Hlim : forall h, isLimited after h
                           = isLimited accounts h
                             && negb (expiredHandle LoadLocation now accounts h)).
  { intros h. unfold isLimited, expiredHandle. rewrite Hidx. unfold index.
    destruct (accounts !! h) as [a|]; [|done]. cbn [default from_option id].
    unfold swept. destruct (expired' a) eqn:He; [|by rewrite andb_true_r].
    rewrite andb_false_r. reflexivity. }
  assert (Hav : forall h, isAvailable after h
                          = isAvailable accounts h
                            || (isLimited accounts h
                                && expiredHandle LoadLocation now accounts h)).
  { intros h. unfold isAvailable, isLimited, expiredHandle. rewrite Hidx. unfold index.
    destruct (accounts !! h) as [a|]; [|done]. cbn [default from_option id].
    unfold swept. destruct (expired' a) eqn:He; [|by rewrite andb_false_r, orb_false_r].
    cbn [Status]. unfold expired in He.
    apply andb_true_iff in He as [[He _]%andb_true_iff _]. rewrite He.
    by rewrite orb_true_r. }
  assert (Hkeys : forall order', order' ≡ₚ (map_to_list after).*1 -> order' ≡ₚ order).
  { intros order' ->. by rewrite Hafter, keys_fmap, Horder. }
  assert (Hmem : forall (f : string -> bool) l h,
            h ∈ List.filter f l <-> h ∈ l /\ f h = true).
  { intros f l h. rewrite list_elem_of_In, filter_In. by rewrite list_elem_of_In. }
  split; [|split].
  - intros order' h Horder'. specialize (Hkeys order' Horder').
    rewrite !LimitedAccounts_filter, !AvailableAccounts_perm, !Hmem, Hkeys, Hlim, Hav.
    rewrite andb_true_iff, orb_true_iff, andb_true_iff, negb_true_iff. tauto.
  - intros order' Horder'. specialize (Hkeys order' Horder').
    rewrite Hcount, !LimitedAccounts_filter.
    rewrite (Permutation_length (filter_perm (isLimited after) _ _ Hkeys)).
    rewrite (length_filter_split (isLimited accounts) (isLimited after)
               (expiredHandle LoadLocation now accounts) order); [lia| |].
    + intros h _. rewrite Hlim. unfold isLimited, expiredHandle, index.
      destruct (accounts !! h) as [a|]; [|done]. cbn [default from_option id].
      unfold expired. destruct (String.eqb (Status a) QuotaStatusLimited); [|done].
      cbn [andb]. by destruct (_ && _).
    + intros h _. rewrite Hlim. by destruct (isLimited accounts h), (expiredHandle _ _ _ h).
  - intros a b. unfold usedBefore. rewrite !Hidx. unfold index.
    assert (Hlu : forall h, LastUsed match accounts !! h with
                                     | Some a => swept' a
                                     | None => zeroAccount
                                     end
                            = LastUsed (default zeroAccount (accounts !! h))).
    { intros h. destruct (accounts !! h) as [x|]; [|done]. cbn. unfold swept.
      by destruct (expired' x). }
    by rewrite !Hlu.
Qed.

End Sweep.

Lemma clearExpiredAt_twice_witness :
  clearExpiredAt sampleZones ["available"; "expired"; "still_limited"]%string
    (clearExpiredAt sampleZones sweepOrder sweepAccounts sampleNow).1 sampleNow
  = ((clearExpiredAt sampleZones sweepOrder sweepAccounts sampleNow).1, 0).
Proof.
  apply clearExpiredAt_twice.
  - vm_compute. reflexivity.
  - vm_compute. apply Permutation_rev.
Defined.

Lemma lists_after_the_sweep_witness :
  (clearExpiredAt sampleZones sweepOrder sweepAccounts sampleNow).2
  = Z.of_nat (length (LimitedAccounts sweepOrder sweepAccounts))
    - Z.of_nat (length (LimitedAccounts sweepOrder
                          (clearExpiredAt sampleZones sweepOrder sweepAccounts
                             sampleNow).1))
  /\ "expired"%string
       ∈ AvailableAccounts sweepOrder
           (clearExpiredAt sampleZones sweepOrder sweepAccounts sampleNow).1.
Proof.
  destruct (lists_after_the_sweep sampleZones sampleNow sweepOrder sweepAccounts)
    as (Hlists & Hcount & _).
  - vm_compute. reflexivity.
  - split; [apply Hcount; vm_compute; reflexivity|].
    apply (Hlists sweepOrder "expired"%string); [vm_compute; reflexivity|].
    right. split; [|vm_compute; reflexivity].
    rewrite (LimitedAccounts_filter sweepAccounts sweepOrder). vm_compute.
    apply list_elem_of_In. cbn. tauto.
Defined.

End PolicyExtras.

(** ** Further properties of the credential store and the validator *)
Module KeychainExtras.
Import GoStrings Keychain Support MoreSupport StringFacts TrimFacts KeychainFacts.

Section Host.
Variable UserHomeDir : option string.
Variable Sum256 : string -> string.

Abbreviation KeychainServiceName := (Keychain.KeychainServiceName UserHomeDir Sum256).
Abbreviation SwapKeychainCredential := (Keychain.SwapKeychainCredential UserHomeDir Sum256).

(** A token as [ReadKeychainToken] returns it reads back as it is once
    written. *)
Lemma read_after_write (ks : SecureStore) svc label secret :
  svc ∉ refused ks ->
  exists ks',
    WriteKeychainToken ks svc label (TrimSpace secret) = (ks', None)
    /\ ReadKeychainToken ks' svc = inl (TrimSpace secret).
Proof.
  intros Hok. unfold WriteKeychainToken, ReadKeychainToken, securityAdd, securityFind.
  rewrite decide_False by done. eexists. split; [done|]. cbn [items].
  rewrite lookup_insert_eq. f_equal. apply TrimSpace_fixed.
Qed.

(** After a swap the target reads what the source reads. *)
Lemma swap_reads_source target source ks ks1 backup :
  SwapKeychainCredential target source ks = (ks1, inl backup) ->
  ReadKeychainToken ks1 (KeychainServiceName target)
  = ReadKeychainToken ks (KeychainServiceName source).
Proof.
  intros Hswap.
  destruct (swap_success _ _ _ _ _ _ _ Hswap) as (secret & src & Ht & Hs & Hok & -> & ->).
  unfold ReadKeychainToken, securityFind. cbn [items].
  rewrite lookup_insert_eq, Hs. f_equal. apply TrimSpace_fixed.
Qed.

(** X14. A swap is all or nothing.  It fails, leaving the keychain as it
    was, when the target has no entry (the backup error), else when the
    source has none (the source error), else when the keychain refuses the
    write (the target error).  Otherwise it succeeds: it touches the
    target's entry only, the target then reads exactly the token the source
    reads, and the backup holds what the target read before. *)
Theorem swap_all_or_nothing target source ks :
  (forall ks1 err,
      SwapKeychainCredential target source ks = (ks1, inr err) ->
      ks1 = ks
      /\ (err = ErrBackup (ErrReadToken (KeychainServiceName target))
          /\ items ks !! KeychainServiceName target = None
          \/ err = ErrSource (ErrReadToken (KeychainServiceName source))
             /\ is_Some (items ks !! KeychainServiceName target)
             /\ items ks !! KeychainServiceName source = None
          \/ err = ErrTarget (ErrWriteToken (KeychainServiceName target))
             /\ is_Some (items ks !! KeychainServiceName target)
             /\ is_Some (items ks !! KeychainServiceName source)
             /\ KeychainServiceName target ∈ refused ks))
  /\ (forall ks1 backup,
         SwapKeychainCredential target source ks = (ks1, inl backup) ->
         refused ks1 = refused ks
         /\ (forall svc, svc <> KeychainServiceName target ->
               items ks1 !! svc = items ks !! svc)
         /\ ReadKeychainToken ks1 (KeychainServiceName target)
            = ReadKeychainToken ks (KeychainServiceName source)
         /\ ServiceName backup = KeychainServiceName target
         /\ ReadKeychainToken ks (KeychainServiceName target) = inl (Token backup))
  /\ (is_Some (items ks !! KeychainServiceName target) ->
      is_Some (items ks !! KeychainServiceName source) ->
      KeychainServiceName target ∉ refused ks ->
      exists ks1 backup,
        SwapKeychainCredential target source ks = (ks1, inl backup)).
Proof.
  split; [|split].
  - intros ks1 err.
    unfold Keychain.SwapKeychainCredential, ReadKeychainToken, WriteKeychainToken,
      securityFind, securityAdd.
    destruct (items ks !! KeychainServiceName target) as [secret|] eqn:Ht.
    2:{ intros [= <- <-]. split; [done|]. by left. }
    destruct (items ks !! KeychainServiceName source) as [src|] eqn:Hs.
    2:{ intros [= <- <-]. split; [done|]. right. left. by eauto. }
    destruct (decide (KeychainServiceName target ∈ refused ks)) as [Hin|Hok];
      [|discriminate].
    intros [= <- <-]. split; [done|]. right. right. by eauto.
  - intros ks1 backup Hswap.
    destruct (swap_success _ _ _ _ _ _ _ Hswap) as (secret & src & Ht & Hs & Hok & -> & ->).
    cbn [refused items ServiceName Token]. split; [done|].
    split; [intros svc Hne; by rewrite lookup_insert_ne|].
    unfold ReadKeychainToken, securityFind. cbn [items].
    rewrite lookup_insert_eq, Ht, Hs. split; [|done]. f_equal. apply TrimSpace_fixed.
  - intros [secret Ht] [src Hs] Hok.
    unfold Keychain.SwapKeychainCredential, ReadKeychainToken, WriteKeychainToken,
      securityFind, securityAdd.
    rewrite Ht, Hs, decide_False by done. by eauto.
Qed.

Lemma hexDigit_lower n : 0 <= n < 16 -> isLowerHex (hexDigit n) = true.
Proof.
  intros Hn.
  assert (Hall : forallb (fun k => isLowerHex (hexDigit (Z.of_nat k))) (seq 0 16) = true)
    by (vm_compute; reflexivity).
  rewrite forallb_forall in Hall. specialize (Hall (Z.to_nat n)).
  rewrite Z2Nat.id in Hall by lia. apply Hall, in_seq. lia.
Qed.

Lemma hex_shape bytes :
  String.length (hex bytes) = (2 * String.length bytes)%nat
  /\ forallb isLowerHex (list_ascii_of_string (hex bytes)) = true.
Proof.
  induction bytes as [|c bytes [IHlen IHall]]; [done|].
  cbn [hex String.length list_ascii_of_string forallb]. rewrite IHlen, IHall.
  pose proof (code_range c).
  rewrite !hexDigit_lower by (Z.div_mod_to_equations; lia). split; [lia|done].
Qed.

Lemma substring_length n s :
  (n <= String.length s)%nat -> String.length (substring 0 n s) = n.
Proof.
  revert n. induction s as [|c s IH]; intros [|n] Hn; cbn in *; try lia.
  rewrite IH; lia.
Qed.

(** X15. The shape of a service name.  With a digest of at least four
    bytes, as SHA-256 gives, a service name is the base name, or the base
    name, a dash and eight lower-case hexadecimal digits. *)
Theorem service_name_shape path :
  (4 <= String.length (Sum256 (expandTilde UserHomeDir path)))%nat ->
  KeychainServiceName path = keychainServiceBase
  \/ exists suffix,
       KeychainServiceName path = keychainServiceBase ++ "-" ++ suffix
       /\ String.length suffix = 8%nat
       /\ forallb isLowerHex (list_ascii_of_string suffix) = true.
Proof.
  intros Hlen.
  assert (Hhashed : exists suffix,
            keychainServiceBase ++ "-"
              ++ hex (slice (Sum256 (expandTilde UserHomeDir path)) 0 4)
            = keychainServiceBase ++ "-" ++ suffix
            /\ String.length suffix = 8%nat
            /\ forallb isLowerHex (list_ascii_of_string suffix) = true).
  { eexists. split; [reflexivity|].
    destruct (hex_shape (slice (Sum256 (expandTilde UserHomeDir path)) 0 4))
      as [Hl Hall].
    split; [|done]. rewrite Hl. unfold slice.
    change (Z.to_nat 0) with 0%nat. change (Z.to_nat (4 - 0)) with 4%nat.
    by rewrite substring_length. }
  unfold Keychain.KeychainServiceName. destruct UserHomeDir as [home|]; [|by right].
  destruct (String.eqb _ _); [by left | by right].
Qed.

Variable unmarshalExpiresAt : string -> option Z.
Variable base64Decode : string -> option string.
Variable unmarshalExp : string -> option Z.
Variable apiStatus : string -> option Z.

Abbreviation ValidateKeychainToken :=
  (Keychain.ValidateKeychainToken UserHomeDir Sum256 unmarshalExpiresAt
     base64Decode unmarshalExp apiStatus).
Abbreviation validateTokenHTTP := (Keychain.validateTokenHTTP apiStatus).
Abbreviation validateJWT := (Keychain.validateJWT base64Decode unmarshalExp apiStatus).

Lemma validateTokenHTTP_cases raw :
  ValidHeaderFieldValue ("Bearer " ++ raw) = false
  /\ validateTokenHTTP raw = (None, [])
  \/ ValidHeaderFieldValue ("Bearer " ++ raw) = true
     /\ (apiStatus raw = Some 401
         /\ validateTokenHTTP raw = (Some ErrRejected, [Post raw])
         \/ apiStatus raw <> Some 401
            /\ validateTokenHTTP raw = (None, [Post raw])).
Proof.
  unfold Keychain.validateTokenHTTP.
  destruct (ValidHeaderFieldValue _); [right; split; [done|] | by left].
  destruct (apiStatus raw) as [status|]; [|by right].
  destruct (Z.eqb_spec status 401) as [->|Hne]; [by left|].
  right. split; [|done]. by intros [= ->].
Qed.

Lemma validateJWT_cases raw now :
  validateJWT raw now = (None, [])
  \/ (exists e header payloadText signature payload,
         Split raw "." = [header; payloadText; signature]
         /\ base64Decode payloadText = Some payload
         /\ unmarshalExp payload = Some e
         /\ 0 < e <= now
         /\ validateJWT raw now = (Some (ErrJWTExpired e), []))
  \/ validateJWT raw now = validateTokenHTTP raw.
Proof.
  unfold Keychain.validateJWT.
  destruct (Split raw ".") as [|header [|payloadText [|signature [|extra parts]]]];
    cbn [length Nat.eqb]; try by auto.
  cbn [lookup list_lookup default from_option id].
  change (default "" ([header; payloadText; signature] !! 1%nat)) with payloadText.
  destruct (base64Decode payloadText) as [payload|] eqn:Hdec; [|by auto].
  destruct (unmarshalExp payload) as [exp|] eqn:Hexp; [|by auto].
  destruct (Z.ltb_spec 0 exp); [|by auto].
  destruct (Z.leb_spec exp now); [|by auto].
  right. left. exists exp, header, payloadText, signature, payload.
  repeat split; try done; lia.
Qed.

(** The outcomes of the validator for a stored token that is not empty. *)
Lemma validation_outcomes configDir now ks raw :
  ReadKeychainToken ks (KeychainServiceName configDir) = inl raw -> raw <> "" ->
  ValidateKeychainToken configDir now ks = (None, [])
  \/ (exists e,
         unmarshalExpiresAt raw = Some e /\ 0 < e <= now
         /\ ValidateKeychainToken configDir now ks = (Some (ErrExpired e), []))
  \/ (exists e header payloadText signature payload,
         Split raw "." = [header; payloadText; signature]
         /\ base64Decode payloadText = Some payload
         /\ unmarshalExp payload = Some e
         /\ 0 < e <= now
         /\ ValidateKeychainToken configDir now ks = (Some (ErrJWTExpired e), []))
  \/ (ValidHeaderFieldValue ("Bearer " ++ raw) = true
      /\ apiStatus raw = Some 401
      /\ ValidateKeychainToken configDir now ks = (Some ErrRejected, [Post raw]))
  \/ (ValidHeaderFieldValue ("Bearer " ++ raw) = true
      /\ apiStatus raw <> Some 401
      /\ ValidateKeychainToken configDir now ks = (None, [Post raw])).
Proof.
  intros Hread Hne. unfold Keychain.ValidateKeychainToken. rewrite Hread.
  apply String.eqb_neq in Hne. rewrite Hne.
  assert (Hjwt :
    validateJWT raw now = (None, [])
    \/ (exists e,
           unmarshalExpiresAt raw = Some e /\ 0 < e <= now
           /\ validateJWT raw now = (Some (ErrExpired e), []))
    \/ (exists e header payloadText signature payload,
           Split raw "." = [header; payloadText; signature]
           /\ base64Decode payloadText = Some payload
           /\ unmarshalExp payload = Some e
           /\ 0 < e <= now
           /\ validateJWT raw now = (Some (ErrJWTExpired e), []))
    \/ (ValidHeaderFieldValue ("Bearer " ++ raw) = true
        /\ apiStatus raw = Some 401
        /\ validateJWT raw now = (Some ErrRejected, [Post raw]))
    \/ (ValidHeaderFieldValue ("Bearer " ++ raw) = true
        /\ apiStatus raw <> Some 401
        /\ validateJWT raw now = (None, [Post raw]))).
  { destruct (validateJWT_cases raw now) as [H | [H | H]]; [by left | by auto |].
    rewrite H.
    destruct (validateTokenHTTP_cases raw) as [[_ Hv] | [Hvalid [[Hs Hv] | [Hs Hv]]]];
      rewrite Hv.
    - by left.
    - right. right. right. left. done.
    - right. right. right. right. done. }
  destruct (unmarshalExpiresAt raw) as [expiresAt|]; [|exact Hjwt].
  destruct (Z.ltb_spec 0 expiresAt); [|exact Hjwt].
  destruct (Z.leb_spec expiresAt now); [|by left].
  right. left. exists expiresAt. split; [done|]. split; [lia|done].
Qed.

(** X16. The validator fails open.  A keychain entry that cannot be read
    or is empty gives no error and no request.  Every error returned has
    its cause in the stored token: the expiry error carries the positive
    [expires_at] of the stored credential, at or before [now]; the token
    expiry error carries the positive [exp] claim of the middle segment of
    the stored three-segment token, at or before [now]; each comes without a
    request; and the rejection comes with the status 401 answered to the
    one request sent.  A request, when one is sent, is the only one and
    carries the stored token, which is then a valid header value; it ends
    in an error exactly when the status is 401, so a network error, a
    timeout and every other status give no error. *)
Theorem validation_fails_open configDir now ks :
  (forall err,
      ReadKeychainToken ks (KeychainServiceName configDir) = inr err ->
      ValidateKeychainToken configDir now ks = (None, []))
  /\ (ReadKeychainToken ks (KeychainServiceName configDir) = inl "" ->
      ValidateKeychainToken configDir now ks = (None, []))
  /\ (forall err calls,
         ValidateKeychainToken configDir now ks = (Some err, calls) ->
         exists raw,
           ReadKeychainToken ks (KeychainServiceName configDir) = inl raw
           /\ raw <> ""
           /\ ((exists e,
                   err = ErrExpired e /\ calls = []
                   /\ unmarshalExpiresAt raw = Some e /\ 0 < e <= now)
               \/ (exists e header payloadText signature payload,
                      err = ErrJWTExpired e /\ calls = []
                      /\ Split raw "." = [header; payloadText; signature]
                      /\ base64Decode payloadText = Some payload
                      /\ unmarshalExp payload = Some e /\ 0 < e <= now)
               \/ (err = ErrRejected /\ calls = [Post raw]
                   /\ apiStatus raw = Some 401)))
  /\ (forall err calls,
         ValidateKeychainToken configDir now ks = (err, calls) -> calls <> [] ->
         exists raw,
           ReadKeychainToken ks (KeychainServiceName configDir) = inl raw
           /\ calls = [Post raw]
           /\ ValidHeaderFieldValue ("Bearer " ++ raw) = true
           /\ (apiStatus raw = Some 401 -> err = Some ErrRejected)
           /\ (apiStatus raw <> Some 401 -> err = None)).
Proof.
  assert (Hnone : forall err,
            ReadKeychainToken ks (KeychainServiceName configDir) = inr err ->
            ValidateKeychainToken configDir now ks = (None, [])).
  { intros err Hread. unfold Keychain.ValidateKeychainToken. by rewrite Hread. }
  assert (Hempty : ReadKeychainToken ks (KeychainServiceName configDir) = inl "" ->
                   ValidateKeychainToken configDir now ks = (None, [])).
  { intros Hread. unfold Keychain.ValidateKeychainToken. by rewrite Hread. }
  split; [exact Hnone|]. split; [exact Hempty|].
  destruct (ReadKeychainToken ks (KeychainServiceName configDir)) as [raw|rerr]
    eqn:Hread.
  2:{ rewrite (Hnone rerr eq_refl). split; [discriminate|].
      by intros err calls [= <- <-]. }
  destruct (String.eqb_spec raw "") as [->|Hne].
  { rewrite (Hempty eq_refl). split; [discriminate|]. by intros err calls [= <- <-]. }
  destruct (validation_outcomes configDir now ks raw Hread Hne)
    as [Hv | [(e & He & Hle & Hv) | [(e & hd & pt & sg & payload & Hs & Hd & Hx & Hle & Hv)
       | [(Hvalid & Hst & Hv) | (Hvalid & Hst & Hv)]]]]; rewrite Hv.
  - split; [discriminate|]. by intros err calls [= <- <-].
  - split; [|by intros err calls [= <- <-]].
    intros err calls [= <- <-]. exists raw. split; [done|]. split; [done|].
    left. by exists e.
  - split; [|by intros err calls [= <- <-]].
    intros err calls [= <- <-]. exists raw. split; [done|]. split; [done|].
    right. left. exists e, hd, pt, sg, payload. done.
  - split.
    + intros err calls [= <- <-]. exists raw. split; [done|]. split; [done|].
      right. right. done.
    + intros err calls [= <- <-] _. exists raw. by repeat split.
  - split; [discriminate|].
    intros err calls [= <- <-] _. exists raw. by repeat split.
Qed.

(** X17. A swap hands the source's standing over to the target: after a
    successful swap, validating the target's credential gives what
    validating the source's gave before the swap, error for error and
    request for request. *)
Theorem swapped_target_validates_as_source target source ks ks1 backup now :
  SwapKeychainCredential target source ks = (ks1, inl backup) ->
  ValidateKeychainToken target now ks1 = ValidateKeychainToken source now ks.
Proof.
  intros Hswap. unfold Keychain.ValidateKeychainToken.
  by rewrite (swap_reads_source _ _ _ _ _ Hswap).
Qed.

End Host.

Lemma swapped_target_validates_as_source_witness :
  Keychain.ValidateKeychainToken (Some sampleHome) sampleDigest sampleExpiresAt
    sampleBase64 sampleExp sampleApi targetDir 1700000000 swappedKeychain
  = (None, [Post "sk-new"]).
Proof.
  rewrite (swapped_target_validates_as_source (Some sampleHome) sampleDigest
             sampleExpiresAt sampleBase64 sampleExp sampleApi targetDir sourceDir
             tidyKeychain swappedKeychain sampleBackup 1700000000);
    vm_compute; reflexivity.
Defined.

Lemma validation_fails_open_witness :
  Keychain.ValidateKeychainToken (Some sampleHome) sampleDigest sampleExpiresAt
    sampleBase64 sampleExp strictApi targetDir 1700000000 (keychainWith "sk-bad")
  = (Some ErrRejected, [Post "sk-bad"])
  /\ strictApi "sk-bad" = Some 401
  /\ Keychain.ValidateKeychainToken (Some sampleHome) sampleDigest sampleExpiresAt
       sampleBase64 sampleExp strictApi targetDir 1700000000 (keychainWith bellToken)
     = (None, []).
Proof.
  assert (Hbad :
    Keychain.ValidateKeychainToken (Some sampleHome) sampleDigest sampleExpiresAt
      sampleBase64 sampleExp strictApi targetDir 1700000000 (keychainWith "sk-bad")
    = (Some ErrRejected, [Post "sk-bad"])) by (vm_compute; reflexivity).
  split; [exact Hbad|]. split; [|vm_compute; reflexivity].
  destruct (validation_fails_open (Some sampleHome) sampleDigest sampleExpiresAt
              sampleBase64 sampleExp strictApi targetDir 1700000000
              (keychainWith "sk-bad")) as (_ & _ & Hcause & _).
  destruct (Hcause _ _ Hbad)
    as (raw & Hread & _ & [(e & [=] & _) | [(e & ? & ? & ? & ? & [=] & _)
                                           | (_ & [= <-] & Hst)]]).
  exact Hst.
Defined.

Lemma service_name_shape_witness :
  Keychain.KeychainServiceName (Some sampleHome) sampleDigest targetDir
  = keychainServiceBase ++ "-" ++ "6b726f77".
Proof.
  destruct (service_name_shape (Some sampleHome) sampleDigest targetDir)
    as [Hbase | (suffix & Hname & _)].
  - vm_compute. lia.
  - vm_compute in Hbase. discriminate Hbase.
  - vm_compute. reflexivity.
Defined.

Lemma swap_all_or_nothing_witness :
  exists ks1 backup,
    Keychain.SwapKeychainCredential (Some sampleHome) sampleDigest targetDir sourceDir
      sampleKeychain = (ks1, inl backup)
    /\ ReadKeychainToken ks1
         (Keychain.KeychainServiceName (Some sampleHome) sampleDigest targetDir)
       = inl "sk-new"
    /\ Token backup = "sk-old".
Proof.
  destruct (swap_all_or_nothing (Some sampleHome) sampleDigest targetDir sourceDir
              sampleKeychain) as (_ & Hok & Hruns).
  destruct Hruns as (ks1 & backup & Hswap);
    [vm_compute; eauto | vm_compute; eauto | vm_compute; set_solver|].
  exists ks1, backup. split; [done|].
  destruct (Hok ks1 backup Hswap) as (_ & _ & Hread & _ & Hbackup).
  split; [by rewrite Hread|].
  enough (Hsame : @inl string Error (Token backup) = inl "sk-old") by congruence.
  rewrite <- Hbackup. vm_compute. reflexivity.
Defined.

(** *** The identity document *)
Section Identity.
Variable UserHomeDir : option string.
Variable Join : string -> string -> string.
Variable unmarshalDoc : string -> option (option (gmap string string)).
Variable marshalDoc : gmap string string -> option string.

Abbreviation identityPath := (Keychain.identityPath UserHomeDir Join).
Abbreviation SwapOAuthAccount :=
  (Keychain.SwapOAuthAccount UserHomeDir Join unmarshalDoc marshalDoc).
Abbreviation RestoreOAuthAccount :=
  (Keychain.RestoreOAuthAccount UserHomeDir Join unmarshalDoc marshalDoc).

(** The disk with one file written. *)
Abbreviation wrote d path out :=
  (mkDisk (<[path := out]> (files d)) (unreadable d) (unwritable d) (torn d)).

(** The three ways of [os.WriteFile]: the open fails and nothing changes;
    the write fails and the file holds the bytes written so far; or the
    file holds the data. *)
Lemma WriteFile_cases d path data d1 failed :
  WriteFile d path data = (d1, failed) ->
  (failed = true /\ path ∈ unwritable d /\ d1 = d)
  \/ (failed = true /\ (path ∉ unwritable d)
      /\ exists written,
           torn d !! path = Some written
           /\ d1 = wrote d path (String.substring 0 written data))
  \/ (failed = false /\ (path ∉ unwritable d) /\ torn d !! path = None
      /\ d1 = wrote d path data).
Proof.
  unfold WriteFile. destruct (decide (path ∈ unwritable d)) as [Hin|Hok].
  - intros [= <- <-]. by left.
  - destruct (torn d !! path) as [written|]; intros [= <- <-].
    + right. left. by eauto.
    + right. right. done.
Qed.

(** A write changes the file written at most, and makes no file appear or
    go when the file was there. *)
Lemma WriteFile_frame d path data d1 failed :
  WriteFile d path data = (d1, failed) ->
  is_Some (files d !! path) ->
  (forall other, other <> path -> files d1 !! other = files d !! other)
  /\ (forall other, is_Some (files d1 !! other) <-> is_Some (files d !! other))
  /\ unreadable d1 = unreadable d /\ unwritable d1 = unwritable d
  /\ torn d1 = torn d.
Proof.
  intros Hw Hthere.
  assert (Hwrote : forall out,
    (forall other, other <> path -> files (wrote d path out) !! other = files d !! other)
    /\ (forall other, is_Some (files (wrote d path out) !! other)
                      <-> is_Some (files d !! other))).
  { intros out. cbn [files]. split.
    - intros other Hne. by rewrite lookup_insert_ne.
    - intros other. destruct (decide (other = path)) as [->|Hne].
      + rewrite lookup_insert_eq. split; [done | by eauto].
      + by rewrite lookup_insert_ne. }
  destruct (WriteFile_cases _ _ _ _ _ Hw)
    as [(_ & _ & ->) | [(_ & _ & n & _ & ->) | (_ & _ & _ & ->)]].
  - done.
  - destruct (Hwrote (String.substring 0 n data)). done.
  - destruct (Hwrote data). done.
Qed.

Lemma ReadFile_there d path data :
  ReadFile d path = Some data ->
  files d !! path = Some data /\ (path ∉ unreadable d).
Proof. unfold ReadFile. by destruct (decide _). Qed.

(** What a swap that finishes has found and done: it has given up before
    writing, with the disk as it was; or it has read both documents and
    called [os.WriteFile] on the target's. *)
Lemma SwapOAuthAccount_finished target source d d1 value err :
  SwapOAuthAccount target source d = Finished d1 value err ->
  (d1 = d /\ value = None /\ err <> Some ErrWriteTarget
   /\ (err = None -> notExist d (identityPath target) = true
                     \/ notExist d (identityPath source) = true))
  \/ (exists sourceData sourceDoc sourceOAuth targetData targetDoc out failed,
         ReadFile d (identityPath source) = Some sourceData
         /\ unmarshalDoc sourceData = Some sourceDoc
         /\ default ∅ sourceDoc !! oauthAccount = Some sourceOAuth
         /\ ReadFile d (identityPath target) = Some targetData
         /\ unmarshalDoc targetData = Some (Some targetDoc)
         /\ marshalDoc (<[oauthAccount := sourceOAuth]> targetDoc) = Some out
         /\ WriteFile d (identityPath target) out = (d1, failed)
         /\ (if failed then err = Some ErrWriteTarget /\ value = None
             else err = None /\ value = targetDoc !! oauthAccount)).
Proof.
  unfold Keychain.SwapOAuthAccount.
  destruct (notExist d (identityPath target)) eqn:Hnt.
  { intros [= <- <- <-]. left. auto. }
  destruct (notExist d (identityPath source)) eqn:Hns.
  { intros [= <- <- <-]. left. auto. }
  destruct (ReadFile d (identityPath source)) as [sourceData|] eqn:Hrs;
    [|intros [= <- <- <-]; left; by auto].
  destruct (unmarshalDoc sourceData) as [sourceDoc|] eqn:Hsd;
    [|intros [= <- <- <-]; left; by auto].
  destruct (default ∅ sourceDoc !! oauthAccount) as [sourceOAuth|] eqn:Hsrc;
    [|intros [= <- <- <-]; left; by auto].
  destruct (ReadFile d (identityPath target)) as [targetData|] eqn:Hrt;
    [|intros [= <- <- <-]; left; by auto].
  destruct (unmarshalDoc targetData) as [[targetDoc|]|] eqn:Hdoc;
    [|discriminate|intros [= <- <- <-]; left; by auto].
  destruct (marshalDoc _) as [out|] eqn:Hout;
    [|intros [= <- <- <-]; left; by auto].
  destruct (WriteFile d (identityPath target) out) as [d' failed] eqn:Hw.
  destruct failed; intros [= <- <- <-]; right;
    exists sourceData, sourceDoc, sourceOAuth, targetData, targetDoc, out;
    eexists; repeat split; try done; exact Hw.
Qed.

(** X18. [SwapOAuthAccount] changes the target's document at most.  An
    error comes with no backup.  Every error but that of the write leaves
    the disk as it was.  The error of the write leaves the disk as it was
    when the document could not be opened, and otherwise leaves the
    target's document cut short: the first bytes of the new text, as many
    as were written.  When either document is missing the call does nothing
    and returns neither backup nor error.  Whenever it finishes, every file
    other than the target's document is as it was and no file has appeared
    or gone. *)
Theorem SwapOAuthAccount_touches_target_only target source d d1 value err :
  SwapOAuthAccount target source d = Finished d1 value err ->
  (err <> None -> value = None)
  /\ (err <> None -> err <> Some ErrWriteTarget -> d1 = d)
  /\ (err = Some ErrWriteTarget ->
      exists targetDoc sourceOAuth out,
        marshalDoc (<[oauthAccount := sourceOAuth]> targetDoc) = Some out
        /\ (identityPath target ∈ unwritable d /\ d1 = d
            \/ exists written,
                 torn d !! identityPath target = Some written
                 /\ d1 = wrote d (identityPath target)
                           (String.substring 0 written out)))
  /\ (notExist d (identityPath target) = true
      \/ notExist d (identityPath source) = true ->
      d1 = d /\ value = None /\ err = None)
  /\ (forall path, path <> identityPath target ->
        files d1 !! path = files d !! path)
  /\ (forall path, is_Some (files d1 !! path) <-> is_Some (files d !! path))
  /\ unreadable d1 = unreadable d /\ unwritable d1 = unwritable d
  /\ torn d1 = torn d.
Proof.
  intros Hswap.
  destruct (SwapOAuthAccount_finished _ _ _ _ _ _ Hswap)
    as [(-> & -> & Hnw & Hmiss)
       | (sd & sdoc & so & td & tdoc & out & failed & Hrs & Hsd & Hso & Hrt & Htd
          & Hout & Hw & Hres)].
  - split; [done|]. split; [done|]. split; [done|]. split; [|done].
    intros Hmissing. revert Hswap. unfold Keychain.SwapOAuthAccount.
    destruct (notExist d (identityPath target)); [by intros [= <-]|].
    destruct Hmissing as [Hm | ->]; [done|]. by intros [= <-].
  - destruct (ReadFile_there _ _ _ Hrt) as [Hthere _].
    destruct (WriteFile_frame _ _ _ _ _ Hw ltac:(by eauto))
      as (Hframe & Hdom & Hur & Huw & Htorn).
    split; [|split; [|split; [|split]]].
    + destruct failed; destruct Hres as [-> ->]; done.
    + destruct failed; destruct Hres as [-> ->]; done.
    + intros ->. destruct failed; [|by destruct Hres].
      exists tdoc, so, out. split; [done|].
      destruct (WriteFile_cases _ _ _ _ _ Hw)
        as [(_ & Hin & ->) | [(_ & _ & n & Hn & ->) | ([=] & _)]].
      * by left.
      * right. by exists n.
    + intros Hmissing. exfalso. unfold notExist in Hmissing.
      destruct (ReadFile_there _ _ _ Hrs) as [Hs _]. rewrite Hthere, Hs in Hmissing.
      by destruct Hmissing.
    + done.
Qed.

(** X19. [SwapOAuthAccount] panics in one case only: both documents
    exist, the source's is read and parsed and has the field, and the
    target's is read and parses to a nil map (the document [null]), to
    which the field cannot be assigned. *)
Theorem SwapOAuthAccount_crash target source d :
  SwapOAuthAccount target source d = Crashed
  <-> notExist d (identityPath target) = false
      /\ notExist d (identityPath source) = false
      /\ (exists sourceData sourceDoc,
             ReadFile d (identityPath source) = Some sourceData
             /\ unmarshalDoc sourceData = Some sourceDoc
             /\ is_Some (default ∅ sourceDoc !! oauthAccount))
      /\ (exists targetData,
             ReadFile d (identityPath target) = Some targetData
             /\ unmarshalDoc targetData = Some None).
Proof.
  unfold Keychain.SwapOAuthAccount. split.
  - destruct (notExist d (identityPath target)); [discriminate|].
    destruct (notExist d (identityPath source)); [discriminate|].
    destruct (ReadFile d (identityPath source)) as [sourceData|]; [|discriminate].
    destruct (unmarshalDoc sourceData) as [sourceDoc|] eqn:Hs; [|discriminate].
    destruct (default ∅ sourceDoc !! oauthAccount) as [sourceOAuth|] eqn:Hf;
      [|discriminate].
    destruct (ReadFile d (identityPath target)) as [targetData|]; [|discriminate].
    destruct (unmarshalDoc targetData) as [[targetDoc|]|] eqn:Ht; [|intros _|discriminate].
    + destruct (marshalDoc _); [|discriminate].
      by destruct (WriteFile d (identityPath target) _) as [d' []].
    + split; [done|]. split; [done|]. split.
      * exists sourceData, sourceDoc. rewrite Hf. by eauto.
      * by exists targetData.
  - intros (-> & -> & (sourceData & sourceDoc & -> & -> & [so ->])
            & (targetData & -> & ->)). done.
Qed.

(** X20. [RestoreOAuthAccount] with a nil backup does nothing.  With a
    backup it panics exactly when the target's document is read and parses
    to a nil map.  It returns no value.  Every error but that of the write
    leaves the disk as it was; the error of the write leaves the disk as it
    was when the document could not be opened, and otherwise leaves the
    target's document cut short.  Whenever it finishes after reading the
    document, every other file is as it was and no file has appeared or
    gone. *)
Theorem RestoreOAuthAccount_outcomes target backup d :
  (backup = None -> RestoreOAuthAccount target backup d = Finished d None None)
  /\ (RestoreOAuthAccount target backup d = Crashed
      <-> exists value data,
            backup = Some value
            /\ ReadFile d (identityPath target) = Some data
            /\ unmarshalDoc data = Some None)
  /\ (forall d1 value err,
         RestoreOAuthAccount target backup d = Finished d1 value err ->
         value = None
         /\ (err <> None -> err <> Some ErrWriteTarget -> d1 = d)
         /\ (err = Some ErrWriteTarget ->
             exists restored doc out,
               backup = Some restored
               /\ marshalDoc (<[oauthAccount := restored]> doc) = Some out
               /\ (identityPath target ∈ unwritable d /\ d1 = d
                   \/ exists written,
                        torn d !! identityPath target = Some written
                        /\ d1 = wrote d (identityPath target)
                                  (String.substring 0 written out)))
         /\ (forall path, path <> identityPath target ->
               files d1 !! path = files d !! path)
         /\ (forall path, is_Some (files d1 !! path) <-> is_Some (files d !! path))).
Proof.
  unfold Keychain.RestoreOAuthAccount. split; [by intros ->|].
  destruct backup as [value|].
  2:{ split; [split; [discriminate | by intros (? & ? & [=] & _)]|].
      intros d1 v err [= <- <- <-]. by repeat split. }
  destruct (ReadFile d (identityPath target)) as [data|] eqn:Hread.
  2:{ split; [split; [discriminate | by intros (? & ? & _ & [=] & _)]|].
      intros d1 v err [= <- <- <-]. by repeat split. }
  destruct (ReadFile_there _ _ _ Hread) as [Hthere _].
  destruct (unmarshalDoc data) as [[doc|]|] eqn:Hdoc.
  - split.
    { split.
      - destruct (marshalDoc _); [|discriminate].
        by destruct (WriteFile d (identityPath target) _) as [d' []].
      - intros (? & ? & _ & [= <-] & Hnil). congruence. }
    intros d1 v err. destruct (marshalDoc _) as [out|] eqn:Hout.
    2:{ intros [= <- <- <-]. by repeat split. }
    destruct (WriteFile d (identityPath target) out) as [d' failed] eqn:Hw.
    destruct (WriteFile_frame _ _ _ _ _ Hw ltac:(by eauto)) as (Hframe & Hdom & _).
    destruct (WriteFile_cases _ _ _ _ _ Hw)
      as [(-> & Hin & ->) | [(-> & _ & n & Hn & ->) | (-> & _ & _ & ->)]];
      intros [= <- <- <-]; (split; [done|]); (split; [done|]); (split; [|done]).
    + intros _. exists value, doc, out. split; [done|]. split; [done|]. by left.
    + intros _. exists value, doc, out. split; [done|]. split; [done|].
      right. by exists n.
    + discriminate.
  - split; [|discriminate]. split; [intros _; by exists value, data | done].
  - split; [split; [discriminate|]|].
    + intros (? & ? & _ & [= <-] & Hnil). congruence.
    + intros d1 v err [= <- <- <-]. by repeat split.
Qed.

(** X21. Swap, then restore.  After a swap that returned a backup,
    [RestoreOAuthAccount] with that backup, reading back the document the
    swap wrote, writes the target's document as it was decoded before the
    swap (or returns the marshalling error, leaving the swapped document);
    when that document re-encodes to the text it had, the disk is exactly
    the disk before the swap.  After a swap that returned no backup,
    because the target had no such field, restoring does nothing: the field
    the swap put in stays. *)
Theorem swap_then_restore_identity target source d d1 value :
  SwapOAuthAccount target source d = Finished d1 value None ->
  (value = None -> RestoreOAuthAccount target value d1 = Finished d1 None None)
  /\ (forall sourceData sourceDoc sourceOAuth targetData targetDoc out,
         is_Some value ->
         ReadFile d (identityPath source) = Some sourceData ->
         unmarshalDoc sourceData = Some sourceDoc ->
         default ∅ sourceDoc !! oauthAccount = Some sourceOAuth ->
         ReadFile d (identityPath target) = Some targetData ->
         unmarshalDoc targetData = Some (Some targetDoc) ->
         files d1 !! identityPath target = Some out ->
         unmarshalDoc out = Some (Some (<[oauthAccount := sourceOAuth]> targetDoc)) ->
         value = targetDoc !! oauthAccount
         /\ marshalDoc (<[oauthAccount := sourceOAuth]> targetDoc) = Some out
         /\ RestoreOAuthAccount target value d1
            = match marshalDoc targetDoc with
              | Some restored =>
                  Finished (wrote d (identityPath target) restored) None None
              | None => Finished d1 None (Some ErrMarshalTarget)
              end
         /\ (marshalDoc targetDoc = Some targetData ->
             RestoreOAuthAccount target value d1 = Finished d None None)).
Proof.
  intros Hswap. split; [by intros ->|].
  intros sourceData sourceDoc sourceOAuth targetData targetDoc out
    [backup ->] Hrs Hsd Hso Hrt Htd Hfile Hback.
  destruct (SwapOAuthAccount_finished _ _ _ _ _ _ Hswap)
    as [(_ & [=] & _) | (sd & sdoc & so & td & tdoc & out' & failed & Hrs' & Hsd' & Hso'
                         & Hrt' & Htd' & Hout & Hw & Hres)].
  destruct failed; [by destruct Hres|]. destruct Hres as [_ Hval].
  destruct (WriteFile_cases _ _ _ _ _ Hw)
    as [([=] & _) | [([=] & _) | (_ & Hok & Hwhole & ->)]].
  rewrite Hrs in Hrs'. injection Hrs' as <-.
  rewrite Hsd in Hsd'. injection Hsd' as <-.
  rewrite Hso in Hso'. injection Hso' as <-.
  rewrite Hrt in Hrt'. injection Hrt' as <-.
  rewrite Htd in Htd'. injection Htd' as <-.
  cbn [files] in Hfile. rewrite lookup_insert_eq in Hfile. injection Hfile as ->.
  split; [done|]. split; [done|].
  destruct (ReadFile_there _ _ _ Hrt) as [Hwas Hreadable].
  assert (Hrestore :
    RestoreOAuthAccount target (Some backup) (wrote d (identityPath target) out)
    = match marshalDoc targetDoc with
      | Some restored => Finished (wrote d (identityPath target) restored) None None
      | None => Finished (wrote d (identityPath target) out) None (Some ErrMarshalTarget)
      end).
  { unfold Keychain.RestoreOAuthAccount, ReadFile, WriteFile.
    cbn [files unreadable unwritable torn].
    rewrite decide_False by done. rewrite lookup_insert_eq, Hback.
    rewrite insert_insert_eq, (insert_id targetDoc oauthAccount backup) by done.
    destruct (marshalDoc targetDoc) as [restored|]; [|done].
    rewrite decide_False by done. rewrite Hwhole. by rewrite insert_insert_eq. }
  split; [exact Hrestore|]. intros Hcanon. rewrite Hrestore, Hcanon.
  rewrite (insert_id _ _ _ Hwas). by destruct d.
Qed.

End Identity.

Lemma SwapOAuthAccount_touches_target_only_witness :
  (Keychain.SwapOAuthAccount (Some sampleHome) sampleJoin tableUnmarshalDoc
     tableMarshalDoc targetDir sourceDir (diskWith "work")
   = Finished (diskWith "work-as-home") (Some "{work}") None
   /\ files (diskWith "work-as-home") !! sourceIdentity
      = files (diskWith "work") !! sourceIdentity)
  /\ (exists d1,
         Keychain.SwapOAuthAccount (Some sampleHome) sampleJoin tableUnmarshalDoc
           tableMarshalDoc targetDir sourceDir tornDisk
         = Finished d1 None (Some ErrWriteTarget)
         /\ files d1 !! targetIdentity = Some "work-as"
         /\ files d1 !! sourceIdentity = files tornDisk !! sourceIdentity).
Proof.
  assert (Hswap :
    Keychain.SwapOAuthAccount (Some sampleHome) sampleJoin tableUnmarshalDoc
      tableMarshalDoc targetDir sourceDir (diskWith "work")
    = Finished (diskWith "work-as-home") (Some "{work}") None)
    by (vm_compute; reflexivity).
  split.
  - split; [exact Hswap|].
    destruct (SwapOAuthAccount_touches_target_only (Some sampleHome) sampleJoin
                tableUnmarshalDoc tableMarshalDoc targetDir sourceDir (diskWith "work")
                (diskWith "work-as-home") (Some "{work}") None Hswap)
      as (_ & _ & _ & _ & Hframe & _).
    apply Hframe. discriminate.
  - eexists. split; [vm_compute; reflexivity|]. split; [vm_compute; reflexivity|].
    refine (proj1 (proj2 (proj2 (proj2 (proj2
      (SwapOAuthAccount_touches_target_only (Some sampleHome) sampleJoin
         tableUnmarshalDoc tableMarshalDoc targetDir sourceDir tornDisk
         _ None (Some ErrWriteTarget) _))))) sourceIdentity _);
      [vm_compute; reflexivity | discriminate].
Defined.

Lemma SwapOAuthAccount_crash_witness :
  Keychain.SwapOAuthAccount (Some sampleHome) sampleJoin tableUnmarshalDoc
    tableMarshalDoc targetDir sourceDir (diskWith "null") = Crashed.
Proof.
  apply SwapOAuthAccount_crash. split; [vm_compute; reflexivity|].
  split; [vm_compute; reflexivity|]. split.
  - exists "home", (Some homeDoc). split; [vm_compute; reflexivity|].
    split; [vm_compute; reflexivity|]. vm_compute. eauto.
  - exists "null". split; vm_compute; reflexivity.
Defined.

Lemma RestoreOAuthAccount_outcomes_witness :
  Keychain.RestoreOAuthAccount (Some sampleHome) sampleJoin tableUnmarshalDoc
    tableMarshalDoc targetDir (Some "{work}") (diskWith "null") = Crashed
  /\ Keychain.RestoreOAuthAccount (Some sampleHome) sampleJoin tableUnmarshalDoc
       tableMarshalDoc targetDir None (diskWith "null")
     = Finished (diskWith "null") None None.
Proof.
  destruct (RestoreOAuthAccount_outcomes (Some sampleHome) sampleJoin
              tableUnmarshalDoc tableMarshalDoc targetDir (Some "{work}")
              (diskWith "null")) as (_ & Hcrash & _).
  split.
  - apply Hcrash. exists "{work}", "null". repeat split; vm_compute; reflexivity.
  - by apply (RestoreOAuthAccount_outcomes (Some sampleHome) sampleJoin
                tableUnmarshalDoc tableMarshalDoc targetDir None (diskWith "null")).
Defined.

Lemma swap_then_restore_identity_witness :
  (Keychain.SwapOAuthAccount (Some sampleHome) sampleJoin tableUnmarshalDoc
     tableMarshalDoc targetDir sourceDir (diskWith "work")
   = Finished (diskWith "work-as-home") (Some "{work}") None
   /\ Keychain.RestoreOAuthAccount (Some sampleHome) sampleJoin tableUnmarshalDoc
        tableMarshalDoc targetDir (Some "{work}") (diskWith "work-as-home")
      = Finished (diskWith "work") None None)
  /\ (Keychain.SwapOAuthAccount (Some sampleHome) sampleJoin tableUnmarshalDoc
        tableMarshalDoc targetDir sourceDir (diskWith "bare")
      = Finished (diskWith "bare-as-home") None None
      /\ Keychain.RestoreOAuthAccount (Some sampleHome) sampleJoin
           tableUnmarshalDoc tableMarshalDoc targetDir None (diskWith "bare-as-home")
         = Finished (diskWith "bare-as-home") None None).
Proof.
  assert (Hwork :
    Keychain.SwapOAuthAccount (Some sampleHome) sampleJoin tableUnmarshalDoc
      tableMarshalDoc targetDir sourceDir (diskWith "work")
    = Finished (diskWith "work-as-home") (Some "{work}") None)
    by (vm_compute; reflexivity).
  assert (Hbare :
    Keychain.SwapOAuthAccount (Some sampleHome) sampleJoin tableUnmarshalDoc
      tableMarshalDoc targetDir sourceDir (diskWith "bare")
    = Finished (diskWith "bare-as-home") None None)
    by (vm_compute; reflexivity).
  split; (split; [done|]).
  - destruct (swap_then_restore_identity (Some sampleHome) sampleJoin tableUnmarshalDoc
                tableMarshalDoc targetDir sourceDir (diskWith "work")
                (diskWith "work-as-home") (Some "{work}") Hwork) as [_ Hsome].
    destruct (Hsome "home" (Some homeDoc) "{home}" "work" workDoc "work-as-home")
      as (_ & _ & _ & Hrestore); [by eexists | vm_compute; reflexivity..|].
    apply Hrestore. vm_compute. reflexivity.
  - by apply (swap_then_restore_identity (Some sampleHome) sampleJoin tableUnmarshalDoc
                tableMarshalDoc targetDir sourceDir (diskWith "bare")
                (diskWith "bare-as-home") None Hbare).
Defined.

End KeychainExtras.

(** ** Further properties of the reset-time grammar *)
Module GrammarExtras.
Import GoStrings Config Quota Support MoreSupport StringFacts TrimFacts.

Section Grammar.
Variable LoadLocation : string -> option GoTime.Location.
Abbreviation ParseResetTime := (Quota.ParseResetTime LoadLocation).
Abbreviation splitZone := (Quota.splitZone LoadLocation).

(** X22. White space around a reset time does not matter: two texts that
    [strings.TrimSpace] takes to the same text are parsed alike, and a text
    is parsed as what is left of it once trimmed. *)
Theorem ParseResetTime_ignores_outer_space resetsAt reference :
  ParseResetTime (TrimSpace resetsAt) reference = ParseResetTime resetsAt reference
  /\ (forall other,
         TrimSpace other = TrimSpace resetsAt ->
         ParseResetTime other reference = ParseResetTime resetsAt reference).
Proof.
  assert (Hsame : forall a b, TrimSpace a = TrimSpace b ->
                              ParseResetTime a reference = ParseResetTime b reference).
  { intros a b Hab. unfold Quota.ParseResetTime, Quota.splitZone. by rewrite Hab. }
  split; [|intros other; apply Hsame]. apply Hsame, TrimSpace_fixed.
Qed.

(** X23. The reference counts for its calendar day only.  Two references
    presented in the same zone that fall on the same day of the zone the
    time is resolved in give the same result: the time of day of the
    reference, and its nanoseconds, play no part. *)
Theorem ParseResetTime_reference_day resetsAt r1 r2 :
  GoTime.LocationOf r1 = GoTime.LocationOf r2 ->
  GoTime.dayNumber (GoTime.In r1 (splitZone resetsAt r1).1)
  = GoTime.dayNumber (GoTime.In r2 (splitZone resetsAt r1).1) ->
  ParseResetTime resetsAt r1 = ParseResetTime resetsAt r2.
Proof.
  intros Hloc Hday.
  assert (Hsplit : splitZone resetsAt r1 = splitZone resetsAt r2)
    by (unfold Quota.splitZone; by rewrite Hloc).
  unfold Quota.ParseResetTime. rewrite <- Hsplit.
  destruct (splitZone resetsAt r1) as [l text]. cbn [fst] in Hday.
  unfold GoTime.Year, GoTime.Month, GoTime.Day, GoTime.DateOf. by rewrite Hday.
Qed.

End Grammar.

Lemma ParseResetTime_ignores_outer_space_witness :
  Quota.ParseResetTime sampleZones "  7pm (America/Los_Angeles) " testReference
  = Quota.ParseResetTime sampleZones "7pm (America/Los_Angeles)" testReference.
Proof.
  apply (ParseResetTime_ignores_outer_space sampleZones "7pm (America/Los_Angeles)").
  vm_compute. reflexivity.
Defined.

Lemma ParseResetTime_reference_day_witness :
  Quota.ParseResetTime sampleZones "7pm (America/Los_Angeles)" testReference
  = Quota.ParseResetTime sampleZones "7pm (America/Los_Angeles)" sampleNow.
Proof.
  apply ParseResetTime_reference_day; vm_compute; reflexivity.
Defined.

End GrammarExtras.

(** ** Tracking and rotation together *)
Module RotationExtras.
Import GoStrings Config Quota Support MoreSupport StoreFacts PolicyFacts StoreExtras
  PolicyExtras.
Local Open Scope list_scope.

(** X24. Fresh accounts are picked first.  After [EnsureAccountsTracked],
    every registered handle that was missing is in [AvailableAccounts], and
    it stands before every available handle that has been used. *)
Theorem fresh_accounts_come_first registered v
    (accounts : gmap string AccountQuotaState) st' order handle :
  EnsureAccountsTracked registered (mkState v (Some accounts)) = Some st' ->
  order ≡ₚ (map_to_list (accountsOf st')).*1 ->
  handle ∈ registered -> accounts !! handle = None ->
  handle ∈ AvailableAccounts order (accountsOf st')
  /\ (forall i j other,
         AvailableAccounts order (accountsOf st') !! i = Some handle ->
         AvailableAccounts order (accountsOf st') !! j = Some other ->
         LastUsed (index (accountsOf st') other) <> ""%string ->
         (i < j)%nat).
Proof.
  unfold EnsureAccountsTracked. rewrite ensure_fold. intros [= <-] Horder Hreg Hnew.
  unfold accountsOf. cbn [Accounts default from_option id].
  set (tracked := accounts ∪ gset_to_gmap freshAccount (list_to_set registered)).
  assert (Hfresh : tracked !! handle = Some freshAccount).
  { subst tracked. rewrite lookup_tracked, Hnew.
    rewrite bool_decide_eq_true_2; [done|]. by apply elem_of_list_to_set. }
  assert (Hidx : index tracked handle = freshAccount)
    by (unfold index; by rewrite Hfresh).
  destruct (sortByLastUsed_spec tracked (List.filter (isAvailable tracked) order))
    as [_ Hsorted].
  assert (Hsame : AvailableAccounts order tracked
                  = sortByLastUsed (List.filter (isAvailable tracked) order) tracked).
  { unfold AvailableAccounts. by rewrite fold_available. }
  split.
  - rewrite (AvailableAccounts_perm tracked order), list_elem_of_In, filter_In.
    split.
    + apply list_elem_of_In, (elem_of_keys tracked order handle); [|by eexists].
      exact Horder.
    + unfold isAvailable. by rewrite Hidx.
  - intros i j other Hi Hj Hused.
    destruct (Nat.lt_trichotomy i j) as [Hlt | [-> | Hgt]]; [done| |].
    + rewrite Hi in Hj. injection Hj as <-. by rewrite Hidx in Hused.
    + rewrite Hsame in Hi, Hj.
      pose proof (StronglySorted_lookup tracked _ j i other handle Hsorted Hgt Hj Hi)
        as Hle.
      unfold usedBefore in Hle. rewrite Hidx in Hle. cbn [LastUsed freshAccount] in Hle.
      destruct (LastUsed (index tracked other)); [done|]. by cbn in Hle.
Qed.

Lemma fresh_accounts_come_first_witness :
  exists st',
    EnsureAccountsTracked registered poolState = Some st'
    /\ AvailableAccounts ["c"; "e"; "a"; "f"; "b"; "d"]%string (accountsOf st')
       = ["e"; "f"; "c"; "d"; "a"]%string
    /\ "e"%string ∈ AvailableAccounts ["c"; "e"; "a"; "f"; "b"; "d"]%string
                      (accountsOf st').
Proof.
  eexists. split; [apply ensure_fold|]. split; [vm_compute; reflexivity|].
  eapply (fresh_accounts_come_first registered 1 poolAccounts _
            ["c"; "e"; "a"; "f"; "b"; "d"]%string "e"%string).
  - apply ensure_fold.
  - vm_compute. reflexivity.
  - vm_compute. by left.
  - vm_compute. reflexivity.
Defined.

End RotationExtras.
